(** * consul-k8s acceptance framework: environment registry and connect-inject tests

    A shallow embedding of
    - [acceptance/framework/environment/environment.go] (module [Environment]):
      the registry of named test contexts and the lazily resolved kubectl
      options and API client of a context;
    - the connect-inject acceptance tests (module [Connect]): the four test
      functions, run against an arbitrary behaviour of their collaborators.

    Go pointers are addresses into an explicit store, so that object identity
    and the effect of value receivers are visible.  A failed [require.*]
    assertion ([t.FailNow]) and a run-time panic are separate outcomes. *)

From stdpp Require Import gmap strings list fin_maps.

Open Scope string_scope.
Open Scope list_scope.

(** ** Strings *)

(** [strings.HasPrefix s prefix]. *)
Fixpoint HasPrefix (s prefix : string) {struct prefix} : bool :=
  match prefix, s with
  | EmptyString, _ => true
  | String c p', String d s' => if decide (c = d) then HasPrefix s' p' else false
  | String _ _, EmptyString => false
  end.

(** [strings.Contains s substr]: [substr] occurs somewhere within [s]. *)
Fixpoint Contains (s substr : string) : bool :=
  HasPrefix s substr ||
  match s with
  | EmptyString => false
  | String _ s' => Contains s' substr
  end.

(** The specification of [Contains]: some text before, the substring, some
    text after. *)
Definition occurs_in (substr s : string) : Prop :=
  exists pre post, s = pre +:+ substr +:+ post.

(** [strconv.FormatBool]. *)
Definition FormatBool (b : bool) : string := if b then "true" else "false".

(** ** Types shared by the two packages *)

(** A Go [error] value, identified with its text; [None] is a nil error. *)
Definition error := string.

(** [config.TestConfig]: the fields read by the code modelled here. *)
Module config.
Record TestConfig := {
  KubeNamespace : string;
  Kubeconfig : string;
  KubeContext : string;
  EnableMultiCluster : bool;
  SecondaryKubeNamespace : string;
  SecondaryKubeconfig : string;
  SecondaryKubeContext : string;
  NoCleanupOnFailure : bool;
  DebugDirectory : string;
  EnableTransparentProxy : bool
}.
End config.

(** [k8s.KubectlOptions] (terratest): the three fields set by this package. *)
Module k8s.
Record KubectlOptions := {
  ContextName : string;
  ConfigPath : string;
  Namespace : string
}.
End k8s.

(** [clientcmdapi.Context] and [clientcmdapi.Config] (client-go): a
    kubeconfig file as loaded; [Contexts] is a Go [map[string]*Context]. *)
Module clientcmdapi.
Record Context := { Namespace : string }.

Record Config := {
  CurrentContext : string;
  Contexts : gmap string Context
}.
End clientcmdapi.

(** [rest.Config] (client-go), the loaded client configuration (opaque). *)
Module rest.
Record Config := { Host : string }.
End rest.

(** ** The environment package *)

Module Environment.

Definition DefaultContextName : string := "default".
Definition SecondaryContextName : string := "secondary".

(** [metav1.NamespaceDefault]. *)
Definition NamespaceDefault : string := "default".

(** Addresses of heap objects; a Go pointer is [nil] or an address. *)
Definition loc := nat.
Definition ptr := option loc.
Definition nil : ptr := None.

(** A Go result pair [(v, err)]. *)
Inductive Result (A : Type) : Type :=
| Val (a : A)
| Err (e : error).
Arguments Val {A} a.
Arguments Err {A} e.

(** [type kubernetesContext struct]. *)
Record kubernetesContext := {
  pathToKubeConfig : string;
  kubeContextName : string;
  namespace : string;
  client : ptr;
  options : ptr
}.

(** [type KubernetesEnvironment struct]. *)
Record KubernetesEnvironment := {
  contexts : gmap string ptr
}.

(** The collaborators outside the repository, as they answer at one moment:
    terratest's [GetConfigPath], [LoadConfigFromPath(..).RawConfig()] and
    [LoadApiClientConfigE], and client-go's [kubernetes.NewForConfig].
    What they answer depends on files and process environment, so two calls
    made at different moments may see two different worlds. *)
Record World := {
  GetConfigPath : k8s.KubectlOptions -> Result string;
  LoadRawConfig : string -> Result clientcmdapi.Config;
  LoadApiClientConfigE : string -> string -> Result rest.Config;
  NewForConfig : rest.Config -> Result unit
}.

(** The heap: every object a pointer of this package can refer to. *)
Record Store := {
  envHeap : gmap loc KubernetesEnvironment;
  contextHeap : gmap loc kubernetesContext;
  optionsHeap : gmap loc k8s.KubectlOptions;
  clientHeap : gmap loc rest.Config;
  next : loc
}.

Definition empty_store : Store :=
  {| envHeap := ∅; contextHeap := ∅; optionsHeap := ∅; clientHeap := ∅; next := 1 |}.

(** How a failed assertion stopped the test. *)
Inductive Failure :=
| NoError_failed (err : error)
| Truef_failed (msg : string).

(** A call returns, or a [require.*] assertion fails the test ([t.FailNow]
    ends the goroutine: nothing is returned), or the goroutine panics. *)
Inductive Outcome (A : Type) : Type :=
| Ok (a : A) (s : Store)
| Failed (f : Failure) (s : Store)
| Panicked (s : Store).
Arguments Ok {A} a s.
Arguments Failed {A} f s.
Arguments Panicked {A} s.

Definition M (A : Type) : Type := World -> Store -> Outcome A.

Definition ret {A} (a : A) : M A := fun _ s => Ok a s.

Definition bind {A B} (m : M A) (k : A -> M B) : M B :=
  fun w s =>
    match m w s with
    | Ok a s' => k a w s'
    | Failed f s' => Failed f s'
    | Panicked s' => Panicked s'
    end.

Notation "x <- c1 ;; c2" := (bind c1 (fun x => c2))
  (at level 63, c1 at next level, right associativity).
Notation "c1 ;;; c2" := (bind c1 (fun _ => c2))
  (at level 63, right associativity).

Definition panic {A} : M A := fun _ s => Panicked s.

(** [v, err := f(...); require.NoError(t, err)]. *)
Definition require_NoError {A} (call : World -> Result A) : M A :=
  fun w s =>
    match call w with
    | Val a => Ok a s
    | Err e => Failed (NoError_failed e) s
    end.

(** [require.Truef(t, ok, msg)]. *)
Definition require_Truef (ok : bool) (msg : string) : M unit :=
  fun _ s => if ok then Ok tt s else Failed (Truef_failed msg) s.

(** Dereferencing: a nil pointer panics. *)
Definition deref {A} (heap : Store -> gmap loc A) (p : ptr) : M A :=
  fun _ s =>
    match p with
    | Some l => match heap s !! l with Some a => Ok a s | None => Panicked s end
    | None => Panicked s
    end.

(** Allocation of a new object of each kind. *)
Definition new_env (e : KubernetesEnvironment) : M ptr :=
  fun _ s =>
    Ok (Some (next s))
       {| envHeap := <[next s := e]> (envHeap s); contextHeap := contextHeap s;
          optionsHeap := optionsHeap s; clientHeap := clientHeap s;
          next := S (next s) |}.

Definition new_context (k : kubernetesContext) : M ptr :=
  fun _ s =>
    Ok (Some (next s))
       {| envHeap := envHeap s; contextHeap := <[next s := k]> (contextHeap s);
          optionsHeap := optionsHeap s; clientHeap := clientHeap s;
          next := S (next s) |}.

Definition new_options (o : k8s.KubectlOptions) : M ptr :=
  fun _ s =>
    Ok (Some (next s))
       {| envHeap := envHeap s; contextHeap := contextHeap s;
          optionsHeap := <[next s := o]> (optionsHeap s); clientHeap := clientHeap s;
          next := S (next s) |}.

Definition new_client (c : rest.Config) : M ptr :=
  fun _ s =>
    Ok (Some (next s))
       {| envHeap := envHeap s; contextHeap := contextHeap s;
          optionsHeap := optionsHeap s; clientHeap := <[next s := c]> (clientHeap s);
          next := S (next s) |}.

(** [p.Namespace = ns] through an options pointer. *)
Definition set_Namespace (p : ptr) (ns : string) : M unit :=
  fun _ s =>
    match p with
    | Some l =>
        match optionsHeap s !! l with
        | Some o =>
            Ok tt {| envHeap := envHeap s; contextHeap := contextHeap s;
                     optionsHeap :=
                       <[l := {| k8s.ContextName := k8s.ContextName o;
                                 k8s.ConfigPath := k8s.ConfigPath o;
                                 k8s.Namespace := ns |}]> (optionsHeap s);
                     clientHeap := clientHeap s; next := next s |}
        | None => Panicked s
        end
    | None => Panicked s
    end.

(** [e.contexts[name] = ctx] through an environment pointer. *)
Definition set_context (p : ptr) (name : string) (ctx : ptr) : M unit :=
  fun _ s =>
    match p with
    | Some l =>
        match envHeap s !! l with
        | Some e =>
            Ok tt {| envHeap := <[l := {| contexts := <[name := ctx]> (contexts e) |}]> (envHeap s);
                     contextHeap := contextHeap s; optionsHeap := optionsHeap s;
                     clientHeap := clientHeap s; next := next s |}
        | None => Panicked s
        end
    | None => Panicked s
    end.

(** [rawConfig.Contexts[name].Namespace]: indexing the map of pointers with
    a missing key gives nil, and the field access then panics. *)
Definition Contexts_Namespace (rawConfig : clientcmdapi.Config) (name : string) : M string :=
  match clientcmdapi.Contexts rawConfig !! name with
  | Some c => ret (clientcmdapi.Namespace c)
  | None => panic
  end.

(** [func NewContext]. *)
Definition NewContext (namespace pathToKubeConfig kubeContextName : string) : M ptr :=
  new_context {| pathToKubeConfig := pathToKubeConfig;
                 kubeContextName := kubeContextName;
                 namespace := namespace;
                 client := nil;
                 options := nil |}.

(** [func NewKubernetesEnvironmentFromConfig].  The configuration is behind
    a pointer that is only read: nil, or the configuration it leads to.
    The arguments of the first [NewContext] read its fields, so a nil
    pointer panics before anything is allocated. *)
Definition NewKubernetesEnvironmentFromConfig (config : option config.TestConfig) : M ptr :=
  match config with
  | None => panic
  | Some config =>
      defaultContext <- NewContext (config.KubeNamespace config) (config.Kubeconfig config) (config.KubeContext config) ;;
      kenv <- new_env {| contexts := {[ DefaultContextName := defaultContext ]} |} ;;
      (if config.EnableMultiCluster config then
         secondary <- NewContext (config.SecondaryKubeNamespace config) (config.SecondaryKubeconfig config)
                                 (config.SecondaryKubeContext config) ;;
         set_context kenv SecondaryContextName secondary
       else ret tt) ;;;
      ret kenv
  end.

(** [func NewKubernetesEnvironmentFromContext]. *)
Definition NewKubernetesEnvironmentFromContext (context : ptr) : M ptr :=
  kenv <- new_env {| contexts := {[ DefaultContextName := context ]} |} ;;
  ret kenv.

(** [func (k *KubernetesEnvironment) Context]. *)
Definition Context (k : ptr) (name : string) : M ptr :=
  e <- deref envHeap k ;;
  let ctx := contexts e !! name in
  require_Truef (bool_decide (is_Some ctx))
                ("requested context " +:+ name +:+ " not found") ;;;
  ret (default nil ctx).

(** [func (k *KubernetesEnvironment) DefaultContext]. *)
Definition DefaultContext (k : ptr) : M ptr :=
  e <- deref envHeap k ;;
  let ctx := contexts e !! DefaultContextName in
  require_Truef (bool_decide (is_Some ctx)) "default context not found" ;;;
  ret (default nil ctx).

(** [func KubernetesContextFromOptions]. *)
Definition KubernetesContextFromOptions (options : ptr) : M string :=
  o <- deref optionsHeap options ;;
  if bool_decide (k8s.ContextName o ≠ "") then ret (k8s.ContextName o)
  else
    configPath <- require_NoError (fun w => GetConfigPath w o) ;;
    rawConfig <- require_NoError (fun w => LoadRawConfig w configPath) ;;
    ret (clientcmdapi.CurrentContext rawConfig).

(** [func (k kubernetesContext) KubectlOptions].  The receiver is a value:
    the body works on its own copy [k] of the struct, and the assignment to
    [k.options] changes that copy only. *)
Definition KubectlOptions (k : kubernetesContext) : M ptr :=
  if bool_decide (options k ≠ nil) then ret (options k)
  else
    p <- new_options {| k8s.ContextName := kubeContextName k;
                        k8s.ConfigPath := pathToKubeConfig k;
                        k8s.Namespace := namespace k |} ;;
    let k := {| pathToKubeConfig := pathToKubeConfig k;
                kubeContextName := kubeContextName k;
                namespace := namespace k;
                client := client k;
                options := p |} in
    (if bool_decide (namespace k = "") then
       o <- deref optionsHeap (options k) ;;
       configPath <- require_NoError (fun w => GetConfigPath w o) ;;
       rawConfig <- require_NoError (fun w => LoadRawConfig w configPath) ;;
       contextName <- KubernetesContextFromOptions (options k) ;;
       ns <- Contexts_Namespace rawConfig contextName ;;
       if bool_decide (ns ≠ "") then
         ns' <- Contexts_Namespace rawConfig contextName ;;
         set_Namespace (options k) ns'
       else set_Namespace (options k) NamespaceDefault
     else ret tt) ;;;
    ret (options k).

(** [func KubernetesClientFromOptions]. *)
Definition KubernetesClientFromOptions (options : ptr) : M ptr :=
  o <- deref optionsHeap options ;;
  configPath <- require_NoError (fun w => GetConfigPath w o) ;;
  config <- require_NoError (fun w => LoadApiClientConfigE w configPath (k8s.ContextName o)) ;;
  require_NoError (fun w => NewForConfig w config) ;;;
  client <- new_client config ;;
  ret client.

(** [func (k kubernetesContext) KubernetesClient], again on a copy. *)
Definition KubernetesClient (k : kubernetesContext) : M ptr :=
  if bool_decide (client k ≠ nil) then ret (client k)
  else
    opts <- KubectlOptions k ;;
    c <- KubernetesClientFromOptions opts ;;
    let k := {| pathToKubeConfig := pathToKubeConfig k;
                kubeContextName := kubeContextName k;
                namespace := namespace k;
                client := c;
                options := options k |} in
    ret (client k).

(** A [TestContext] interface value holding a [*kubernetesContext]: calling
    a value-receiver method through the pointer copies the struct out of
    the heap first. *)
Definition TestContext_KubectlOptions (ctx : ptr) : M ptr :=
  k <- deref contextHeap ctx ;;
  KubectlOptions k.

Definition TestContext_KubernetesClient (ctx : ptr) : M ptr :=
  k <- deref contextHeap ctx ;;
  KubernetesClient k.

(** *** Stores, worlds and predicates used to state the properties *)

(** The store in which a call ends, however it ends. *)
Definition final_store {A} (r : Outcome A) : Store :=
  match r with
  | Ok _ s => s
  | Failed _ s => s
  | Panicked s => s
  end.

(** A kubeconfig fixture: every path in [files] loads, an empty path in the
    options stands for [fallback], client configurations always load. *)
Definition fixture_world (fallback : string) (files : gmap string clientcmdapi.Config) : World :=
  {| GetConfigPath := fun o =>
       Val (if bool_decide (k8s.ConfigPath o = "") then fallback else k8s.ConfigPath o);
     LoadRawConfig := fun path =>
       match files !! path with
       | Some c => Val c
       | None => Err ("open " +:+ path +:+ ": no such file or directory")
       end;
     LoadApiClientConfigE := fun path ctx => Val {| rest.Host := path +:+ "#" +:+ ctx |};
     NewForConfig := fun _ => Val tt |}.

(** A kubeconfig file with one context, [name], recording [ns]. *)
Definition one_context_file (name ns : string) : clientcmdapi.Config :=
  {| clientcmdapi.CurrentContext := name;
     clientcmdapi.Contexts := {[ name := {| clientcmdapi.Namespace := ns |} ]} |}.

Definition multi_cluster_config : config.TestConfig :=
  {| config.KubeNamespace := ""; config.Kubeconfig := "/kube/primary";
     config.KubeContext := "dc1"; config.EnableMultiCluster := true;
     config.SecondaryKubeNamespace := "ns2"; config.SecondaryKubeconfig := "/kube/secondary";
     config.SecondaryKubeContext := "dc2"; config.NoCleanupOnFailure := false;
     config.DebugDirectory := ""; config.EnableTransparentProxy := false |}.

Definition world_teamA : World :=
  fixture_world "/home/.kube/config" {[ "/kube/primary" := one_context_file "dc1" "teamA" ]}.
Definition world_teamB : World :=
  fixture_world "/home/.kube/config" {[ "/kube/primary" := one_context_file "dc1" "teamB" ]}.

(** [preserves f m]: whatever [m] does, the component [f] of the store is
    at the end what it was at the start. *)
Definition preserves {A X} (f : Store -> X) (m : M A) : Prop :=
  forall w s, f (final_store (m w s)) = f s.

(** An environment holding one entry, and one holding none. *)
Definition store_with_env (e : KubernetesEnvironment) : Store :=
  {| envHeap := {[ 1 := e ]}; contextHeap := ∅; optionsHeap := ∅; clientHeap := ∅;
     next := 2 |}.

(** Options stored at address 1. *)
Definition store_with_options (o : k8s.KubectlOptions) : Store :=
  {| envHeap := ∅; contextHeap := ∅; optionsHeap := {[ 1 := o ]}; clientHeap := ∅;
     next := 2 |}.

Definition options_naming (name : string) : k8s.KubectlOptions :=
  {| k8s.ContextName := name; k8s.ConfigPath := "/kube/primary"; k8s.Namespace := "" |}.

(** The options a context asks for before the namespace is resolved. *)
Definition initial_options (k : kubernetesContext) : k8s.KubectlOptions :=
  {| k8s.ContextName := kubeContextName k;
     k8s.ConfigPath := pathToKubeConfig k;
     k8s.Namespace := namespace k |}.

(** The active context name: the explicit one if set, else the file's
    current-context. *)
Definition active_context (k : kubernetesContext) (rawConfig : clientcmdapi.Config) : string :=
  if bool_decide (kubeContextName k <> "") then kubeContextName k
  else clientcmdapi.CurrentContext rawConfig.

Definition unresolved (path name ns : string) : kubernetesContext :=
  {| pathToKubeConfig := path; kubeContextName := name; namespace := ns;
     client := nil; options := nil |}.

Definition world_no_namespace : World :=
  fixture_world "/home/.kube/config" {[ "/kube/secondary" := one_context_file "secondary" "" ]}.

(** The store after [NewKubernetesEnvironmentFromConfig]: the default
    context is at address 1, the environment at 2, the secondary at 3. *)
Definition store_after_setup : Store :=
  final_store (NewKubernetesEnvironmentFromConfig (Some multi_cluster_config) world_teamA
                 empty_store).

(** *** The accessors without the store *)

(** How the resolution of the namespace of a context ends. *)
Inductive Resolution :=
| Resolved (ns : string)
| Resolution_fails (e : error)
| Resolution_panics.

(** The namespace [KubectlOptions] settles on for a context not yet
    resolved, in a world: the steps of the method, the heap left out. *)
Definition resolve_namespace (k : kubernetesContext) (w : World) : Resolution :=
  if bool_decide (namespace k = "") then
    match GetConfigPath w (initial_options k) with
    | Err e => Resolution_fails e
    | Val configPath =>
        match LoadRawConfig w configPath with
        | Err e => Resolution_fails e
        | Val rawConfig =>
            match clientcmdapi.Contexts rawConfig !! active_context k rawConfig with
            | None => Resolution_panics
            | Some c =>
                Resolved (if bool_decide (clientcmdapi.Namespace c <> "")
                          then clientcmdapi.Namespace c
                          else NamespaceDefault)
            end
        end
    end
  else Resolved (namespace k).

(** The store after one more options object, or one more client. *)
Definition with_options (s : Store) (o : k8s.KubectlOptions) : Store :=
  {| envHeap := envHeap s; contextHeap := contextHeap s;
     optionsHeap := <[next s := o]> (optionsHeap s); clientHeap := clientHeap s;
     next := S (next s) |}.

Definition with_client (s : Store) (c : rest.Config) : Store :=
  {| envHeap := envHeap s; contextHeap := contextHeap s;
     optionsHeap := optionsHeap s; clientHeap := <[next s := c]> (clientHeap s);
     next := S (next s) |}.

(** The options of a context with the namespace [ns]. *)
Definition options_with (k : kubernetesContext) (ns : string) : k8s.KubectlOptions :=
  {| k8s.ContextName := kubeContextName k;
     k8s.ConfigPath := pathToKubeConfig k;
     k8s.Namespace := ns |}.

(** How building a client from options ends, the heap left out. *)
Definition client_config (o : k8s.KubectlOptions) (w : World) : Result rest.Config :=
  match GetConfigPath w o with
  | Err e => Err e
  | Val configPath =>
      match LoadApiClientConfigE w configPath (k8s.ContextName o) with
      | Err e => Err e
      | Val config =>
          match NewForConfig w config with
          | Err e => Err e
          | Val _ => Val config
          end
      end
  end.

(** Worlds in which a collaborator refuses. *)
Definition world_without_path : World :=
  {| GetConfigPath := fun _ => Err "kubeconfig path not found";
     LoadRawConfig := fun _ => Err "unreachable";
     LoadApiClientConfigE := fun _ _ => Err "unreachable";
     NewForConfig := fun _ => Err "unreachable" |}.

Definition world_bad_client_config : World :=
  {| GetConfigPath := fun o => Val (k8s.ConfigPath o);
     LoadRawConfig := fun _ => Val (one_context_file "dc1" "teamA");
     LoadApiClientConfigE := fun _ _ => Err "context not found";
     NewForConfig := fun _ => Val tt |}.

Definition world_refusing_clients : World :=
  {| GetConfigPath := fun o => Val (k8s.ConfigPath o);
     LoadRawConfig := fun _ => Val (one_context_file "dc1" "teamA");
     LoadApiClientConfigE := fun path ctx => Val {| rest.Host := path |};
     NewForConfig := fun _ => Err "host must be a URL" |}.

(** A kubeconfig file whose current-context names a context the file does
    not record. *)
Definition dangling_file : clientcmdapi.Config :=
  {| clientcmdapi.CurrentContext := "dc2";
     clientcmdapi.Contexts := {[ "dc1" := {| clientcmdapi.Namespace := "teamA" |} ]} |}.

Definition world_dangling : World :=
  fixture_world "/home/.kube/config" {[ "/kube/primary" := dangling_file ]}.

End Environment.

(** ** The connect-inject acceptance tests *)

Module Connect.

(** Handles of objects owned by collaborators. *)
Definition TestContext := nat.
Definition Cluster := nat.
Definition ConsulClient := nat.
Definition KubeClient := nat.

(** [api.CatalogService] (consul) and [corev1.Pod]: the fields read here. *)
Record CatalogService := { ServiceID : string }.
Record Pod := { Name : string }.

(** The two topology generators of package [consul] a case may select. *)
Module consul.
Inductive Generator :=
| NewHelmCluster
| NewCLICluster.
End consul.

(** [ConnectHelper], as the tests fill it in (the test handle left out). *)
Record ConnectHelper := {
  ClusterGenerator : consul.Generator;
  ReleaseName : string;
  Secure : bool;
  AutoEncrypt : bool;
  AdditionalHelmValues : gmap string string;
  Ctx : TestContext;
  Cfg : config.TestConfig
}.

(** Every call a test makes on a collaborator, indexed by what it returns. *)
Inductive Call : Type -> Type :=
| suite_Config : Call config.TestConfig
| suite_Environment_DefaultContext : Call TestContext
| helpers_RandomName : Call string
| Install (connHelper : ConnectHelper) : Call (option error)
| TestInstallation (connHelper : ConnectHelper) : Call (option error)
| Upgrade (connHelper : ConnectHelper) : Call (option error)
| NewHelmCluster (helmValues : gmap string string) (ctx : TestContext)
    (cfg : config.TestConfig) (releaseName : string) : Call Cluster
| Create (consulCluster : Cluster) : Call unit
| SetupConsulClient (consulCluster : Cluster) (secure : bool) : Call ConsulClient
| logger_Log (msg : string) : Call unit
| logger_Logf (format : string) (args : list string) : Call unit
| KubectlOptions (ctx : TestContext) : Call k8s.KubectlOptions
| KubernetesClient (ctx : TestContext) : Call KubeClient
| k8s_DeployKustomize (options : k8s.KubectlOptions) (noCleanupOnFailure : bool)
    (debugDirectory kustomizeDir : string) : Call unit
| k8s_CheckStaticServerConnectionSuccessful (options : k8s.KubectlOptions)
    (url : string) : Call unit
| k8s_RunKubectl (options : k8s.KubectlOptions) (args : list string) : Call unit
| Catalog_Service (consulClient : ConsulClient) (name tag : string)
    : Call (list CatalogService * option error)
| Pods_List (client : KubeClient) (ns labelSelector : string)
    : Call (list Pod * option error)
| Pods_Delete (client : KubeClient) (ns name : string) (gracePeriodSeconds : option Z)
    : Call (option error).

(** A collaborator returns, or it ends the test goroutine itself (it was
    handed [t] and failed the test, or it panicked). *)
Inductive Reply (X : Type) : Type :=
| Returns (x : X)
| Stops.
Arguments Returns {X} x.
Arguments Stops {X}.

Inductive Event : Type :=
| Ev {X : Type} (c : Call X) (r : Reply X).

(** The behaviour of all collaborators in one run: the answer to the call
    made as the [i]-th interaction of the run. *)
Definition Oracle := nat -> forall X, Call X -> Reply X.

(** How an assertion of the test itself failed it. *)
Inductive Failure :=
| NoError_failed (err : error)
| Len_failed (actual : nat)
| retry_exhausted (output : list string).

Inductive Status (A : Type) : Type :=
| Returned (a : A)
| TestFailed (f : Failure)
| Stopped.
Arguments Returned {A} a.
Arguments TestFailed {A} f.
Arguments Stopped {A}.

(** A test body: given the collaborators and the number of interactions so
    far, the events it adds to the trace and how it ends. *)
Definition T (A : Type) : Type := Oracle -> nat -> list Event * Status A.

Definition ret {A} (a : A) : T A := fun _ _ => ([], Returned a).

Definition bind {A B} (m : T A) (k : A -> T B) : T B :=
  fun o i =>
    match m o i with
    | (tr, Returned a) => let '(tr', st) := k a o (i + length tr) in (tr ++ tr', st)
    | (tr, TestFailed f) => (tr, TestFailed f)
    | (tr, Stopped) => (tr, Stopped)
    end.

Notation "x <- c1 ;; c2" := (bind c1 (fun x => c2))
  (at level 63, c1 at next level, right associativity).
Notation "c1 ;;; c2" := (bind c1 (fun _ => c2))
  (at level 63, right associativity).

Definition call {X} (c : Call X) : T X :=
  fun o i =>
    match o i X c with
    | Returns x => ([Ev c (Returns x)], Returned x)
    | Stops => ([Ev c Stops], Stopped)
    end.

Definition fail_test {A} (f : Failure) : T A := fun _ _ => ([], TestFailed f).

(** [require.NoError(t, err)]. *)
Definition require_NoError (err : option error) : T unit :=
  match err with
  | None => ret tt
  | Some e => fail_test (NoError_failed e)
  end.

(** [require.Len(t, object, length)]. *)
Definition require_Len {A} (object : list A) (len : nat) : T unit :=
  if decide (length object = len) then ret tt else fail_test (Len_failed (length object)).

(** *** The convergence poller *)

(** Modelled from the spec: the package [github.com/hashicorp/consul/sdk/testutil/retry]
    ([retry.Run], [retry.R]) is not part of the sources.  The poller is given a
    bounded number of attempts and repeatedly executes a check closure that
    may record zero or more failures per attempt; no record is kept beyond
    the current attempt.  [R] is what one attempt has recorded so far. *)
Record R := { fail : bool; output : list string }.

(** A step of a check closure goes on with the closure, or ends the attempt
    where it stands. *)
Inductive Attempt (A : Type) : Type :=
| Goes_on (a : A) (r : R)
| Ended (r : R).
Arguments Goes_on {A} a r.
Arguments Ended {A} r.

Definition RT (A : Type) : Type := R -> T (Attempt A).

Definition ret_r {A} (a : A) : RT A := fun r => ret (Goes_on a r).

Definition bind_r {A B} (m : RT A) (k : A -> RT B) : RT B :=
  fun r =>
    bind (m r) (fun st =>
      match st with
      | Goes_on a r' => k a r'
      | Ended r' => ret (Ended r')
      end).

Definition lift {A} (m : T A) : RT A :=
  fun r => bind m (fun a => ret (Goes_on a r)).

(** Modelled from the spec: [r.Errorf] records a failure of the current
    attempt, and the closure goes on. *)
Definition r_Errorf (msg : string) : RT unit :=
  fun r => ret (Goes_on tt {| fail := true; output := output r ++ [msg] |}).

(** Modelled from the spec: [r.Check(err)] with a non-nil error records it
    as a failure of the current attempt, a retryable one and not a failure
    of the test, and ends the attempt there; a nil error changes nothing. *)
Definition r_Check (err : option error) : RT unit :=
  fun r =>
    match err with
    | None => ret (Goes_on tt r)
    | Some e => ret (Ended {| fail := true; output := output r ++ [e] |})
    end.

(** [for _, x := range xs { body }] inside a check closure. *)
Fixpoint for_range {A} (xs : list A) (body : A -> RT unit) : RT unit :=
  match xs with
  | [] => ret_r tt
  | x :: xs' => bind_r (body x) (fun _ => for_range xs' body)
  end.

Definition final_R {A} (st : Attempt A) : R :=
  match st with
  | Goes_on _ r => r
  | Ended r => r
  end.

(** Modelled from the spec: [retry.Run] with a budget of [attempts].  If the
    closure records no failures polling stops successfully; if the attempts
    exhaust with outstanding failures, the last failure set is surfaced as
    the test failure. *)
Fixpoint run (attempts : nat) (f : RT unit) (last : list string) : T unit :=
  match attempts with
  | 0 => fail_test (retry_exhausted last)
  | S n =>
      bind (f {| fail := false; output := [] |}) (fun st =>
        if fail (final_R st) then run n f (output (final_R st)) else ret tt)
  end.

(** Modelled from the spec: [retry.Run(t, f)], polling within a budget of
    [attempts]. *)
Definition retry_Run (attempts : nat) (f : RT unit) : T unit := run attempts f [].

(** *** The test functions

    [consul.CLIReleaseName] and the attempt budget of the poller are not
    fixed by the sources; they are parameters. *)

Section Tests.

Variable CLIReleaseName : string.
Variable attempts : nat.

(** A row of the table of [TestConnectInject]. *)
Record InjectCase := {
  clusterGen : consul.Generator;
  releaseName : string;
  secure : bool;
  autoEncrypt : bool
}.

(** The table of [TestConnectInject]; the three Helm release names are the
    results of [helpers.RandomName()], drawn while the table is built. *)
Definition TestConnectInject_cases (r1 r2 r3 : string) : gmap string InjectCase :=
  list_to_map [
    ("Helm install without secure or auto-encrypt",
      {| clusterGen := consul.NewHelmCluster; releaseName := r1;
         secure := false; autoEncrypt := false |});
    ("Helm install with secure",
      {| clusterGen := consul.NewHelmCluster; releaseName := r2;
         secure := true; autoEncrypt := false |});
    ("Helm install with secure and auto-encrypt",
      {| clusterGen := consul.NewHelmCluster; releaseName := r3;
         secure := true; autoEncrypt := true |});
    ("CLI install without secure or auto-encrypt",
      {| clusterGen := consul.NewCLICluster; releaseName := CLIReleaseName;
         secure := false; autoEncrypt := false |});
    ("CLI install with secure",
      {| clusterGen := consul.NewCLICluster; releaseName := CLIReleaseName;
         secure := true; autoEncrypt := false |});
    ("CLI install with secure and auto-encrypt",
      {| clusterGen := consul.NewCLICluster; releaseName := CLIReleaseName;
         secure := true; autoEncrypt := true |})
  ].

(** The body run by [t.Run] for one row of [TestConnectInject]. *)
Definition TestConnectInject (c : InjectCase) : T unit :=
  cfg <- call suite_Config ;;
  ctx <- call suite_Environment_DefaultContext ;;
  let connHelper :=
    {| ClusterGenerator := clusterGen c;
       Secure := secure c;
       AutoEncrypt := autoEncrypt c;
       ReleaseName := releaseName c;
       AdditionalHelmValues := ∅;
       Ctx := ctx;
       Cfg := cfg |} in
  err <- call (Install connHelper) ;;
  require_NoError err ;;;
  err <- call (TestInstallation connHelper) ;;
  require_NoError err.

(** [type TestCase struct] and a row of the table of
    [TestConnectInjectOnUpgrade]. *)
Record TestCase := {
  tc_secure : bool;
  tc_autoEncrypt : bool;
  tc_helmValues : gmap string string
}.

Record UpgradeCase := {
  up_clusterGen : consul.Generator;
  up_releaseName : string;
  initial : TestCase;
  upgrade : TestCase
}.

Definition zero_TestCase : TestCase :=
  {| tc_secure := false; tc_autoEncrypt := false; tc_helmValues := ∅ |}.

Definition TestConnectInjectOnUpgrade_cases (r1 : string) : gmap string UpgradeCase :=
  list_to_map [
    ("Helm upgrade changes nothing",
      {| up_clusterGen := consul.NewHelmCluster; up_releaseName := r1;
         initial := zero_TestCase; upgrade := zero_TestCase |});
    ("CLI upgrade changes nothing",
      {| up_clusterGen := consul.NewCLICluster; up_releaseName := CLIReleaseName;
         initial := zero_TestCase; upgrade := zero_TestCase |})
  ].

(** The body run by [t.Run] for one row of [TestConnectInjectOnUpgrade]. *)
Definition TestConnectInjectOnUpgrade (c : UpgradeCase) : T unit :=
  cfg <- call suite_Config ;;
  ctx <- call suite_Environment_DefaultContext ;;
  let connHelper :=
    {| ClusterGenerator := up_clusterGen c;
       Secure := tc_secure (initial c);
       AutoEncrypt := tc_autoEncrypt (initial c);
       ReleaseName := up_releaseName c;
       AdditionalHelmValues := ∅;
       Ctx := ctx;
       Cfg := cfg |} in
  err <- call (Install connHelper) ;;
  require_NoError err ;;;
  err <- call (TestInstallation connHelper) ;;
  require_NoError err ;;;
  let connHelper :=
    {| ClusterGenerator := ClusterGenerator connHelper;
       Secure := tc_secure (upgrade c);
       AutoEncrypt := tc_autoEncrypt (upgrade c);
       ReleaseName := ReleaseName connHelper;
       AdditionalHelmValues := tc_helmValues (upgrade c);
       Ctx := Ctx connHelper;
       Cfg := Cfg connHelper |} in
  err <- call (Upgrade connHelper) ;;
  require_NoError err ;;;
  err <- call (TestInstallation connHelper) ;;
  require_NoError err.

(** The table of [TestConnectInject_CleanupKilledPods]: (secure, autoEncrypt). *)
Definition TestConnectInject_CleanupKilledPods_cases : list (bool * bool) :=
  [(false, false); (true, false); (true, true)].

(** The names of the two registrations of the static client. *)
Definition static_client_services : list string :=
  ["static-client"; "static-client-sidecar-proxy"].

(** The [helmValues] of one row of [TestConnectInject_CleanupKilledPods]. *)
Definition cleanup_helmValues (secure autoEncrypt : bool) : gmap string string :=
  list_to_map [
    ("connectInject.enabled", "true");
    ("global.tls.enabled", FormatBool secure);
    ("global.tls.enableAutoEncrypt", FormatBool autoEncrypt);
    ("global.acls.manageSystemACLs", FormatBool secure)
  ].

(** The first check closure: each service has exactly one instance. *)
Definition registered_check (consulClient : ConsulClient) : RT unit :=
  for_range static_client_services (fun name =>
    bind_r (lift (call (Catalog_Service consulClient name ""))) (fun '(instances, err) =>
    bind_r (r_Check err) (fun _ =>
    if decide (length instances ≠ 1)
    then r_Errorf ("expected 1 instance of " +:+ name)
    else ret_r tt))).

(** The second check closure: no instance of either service still carries
    the name of the deleted pod. *)
Definition deregistered_check (consulClient : ConsulClient) (podName : string) : RT unit :=
  for_range static_client_services (fun name =>
    bind_r (lift (call (Catalog_Service consulClient name ""))) (fun '(instances, err) =>
    bind_r (r_Check err) (fun _ =>
    for_range instances (fun instance =>
      if Contains (ServiceID instance) podName
      then r_Errorf (ServiceID instance +:+ " is still registered")
      else ret_r tt)))).

(** [pods.Items[0]]: indexing an empty slice panics. *)
Definition Items_0 (pods : list Pod) : T Pod :=
  match pods with
  | p :: _ => ret p
  | [] => fun _ _ => ([], Stopped)
  end.

(** The body run by [t.Run] for one row of
    [TestConnectInject_CleanupKilledPods]. *)
Definition TestConnectInject_CleanupKilledPods (c_secure c_autoEncrypt : bool) : T unit :=
  cfg <- call suite_Config ;;
  ctx <- call suite_Environment_DefaultContext ;;
  let helmValues := cleanup_helmValues c_secure c_autoEncrypt in
  releaseName <- call helpers_RandomName ;;
  consulCluster <- call (NewHelmCluster helmValues ctx cfg releaseName) ;;
  call (Create consulCluster) ;;;
  call (logger_Log "creating static-client deployment") ;;;
  opts <- call (KubectlOptions ctx) ;;
  call (k8s_DeployKustomize opts (config.NoCleanupOnFailure cfg) (config.DebugDirectory cfg)
          "../fixtures/cases/static-client-inject") ;;;
  call (logger_Log "waiting for static-client to be registered with Consul") ;;;
  consulClient <- call (SetupConsulClient consulCluster c_secure) ;;
  retry_Run attempts (registered_check consulClient) ;;;
  opts <- call (KubectlOptions ctx) ;;
  let ns := k8s.Namespace opts in
  client <- call (KubernetesClient ctx) ;;
  listed <- call (Pods_List client ns "app=static-client") ;;
  let '(pods, err) := listed in
  require_NoError err ;;;
  require_Len pods 1 ;;;
  pod <- Items_0 pods ;;
  let podName := Name pod in
  call (logger_Logf "force killing the static-client pod %q" [podName]) ;;;
  let gracePeriod := 0%Z in
  client <- call (KubernetesClient ctx) ;;
  err <- call (Pods_Delete client ns podName (Some gracePeriod)) ;;
  require_NoError err ;;;
  call (logger_Log "ensuring pod is deregistered") ;;;
  retry_Run attempts (deregistered_check consulClient podName).

(** [CheckStaticServerConnectionSuccessful] against the URL that fits the
    proxy mode. *)
Definition check_connection (cfg : config.TestConfig) (ctx : TestContext) : T unit :=
  if config.EnableTransparentProxy cfg then
    opts <- call (KubectlOptions ctx) ;;
    call (k8s_CheckStaticServerConnectionSuccessful opts "http://static-server")
  else
    opts <- call (KubectlOptions ctx) ;;
    call (k8s_CheckStaticServerConnectionSuccessful opts "http://localhost:1234").

(** [func TestConnectInject_RestartConsulClients]. *)
Definition TestConnectInject_RestartConsulClients : T unit :=
  cfg <- call suite_Config ;;
  ctx <- call suite_Environment_DefaultContext ;;
  let helmValues : gmap string string := {[ "connectInject.enabled" := "true" ]} in
  releaseName <- call helpers_RandomName ;;
  consulCluster <- call (NewHelmCluster helmValues ctx cfg releaseName) ;;
  call (Create consulCluster) ;;;
  call (logger_Log "creating static-server and static-client deployments") ;;;
  opts <- call (KubectlOptions ctx) ;;
  call (k8s_DeployKustomize opts (config.NoCleanupOnFailure cfg) (config.DebugDirectory cfg)
          "../fixtures/cases/static-server-inject") ;;;
  (if config.EnableTransparentProxy cfg then
     opts <- call (KubectlOptions ctx) ;;
     call (k8s_DeployKustomize opts (config.NoCleanupOnFailure cfg) (config.DebugDirectory cfg)
             "../fixtures/cases/static-client-tproxy")
   else
     opts <- call (KubectlOptions ctx) ;;
     call (k8s_DeployKustomize opts (config.NoCleanupOnFailure cfg) (config.DebugDirectory cfg)
             "../fixtures/cases/static-client-inject")) ;;;
  call (logger_Log "checking that connection is successful") ;;;
  check_connection cfg ctx ;;;
  call (logger_Log "restarting Consul client daemonset") ;;;
  opts <- call (KubectlOptions ctx) ;;
  call (k8s_RunKubectl opts ["rollout"; "restart"; "ds/" +:+ releaseName +:+ "-consul-client"]) ;;;
  opts <- call (KubectlOptions ctx) ;;
  call (k8s_RunKubectl opts ["rollout"; "status"; "ds/" +:+ releaseName +:+ "-consul-client"]) ;;;
  call (logger_Log "checking that connection is still successful") ;;;
  check_connection cfg ctx.

End Tests.

(** *** Traces: what the claims say about them *)

(** An install or upgrade of the release is asked for ... *)
Definition is_deploy_call (e : Event) : bool :=
  match e with
  | Ev c _ =>
      match c with
      | Install _ | Upgrade _ | Create _ => true
      | _ => false
      end
  end.

(** ... and has returned success: [Install] and [Upgrade] return a nil
    error, [Create] (which reports through [t]) returns at all. *)
Definition deploy_succeeded (e : Event) : bool :=
  match e with
  | Ev c r =>
      match c in Call X return Reply X -> bool with
      | Install _ | Upgrade _ =>
          fun r => match r with Returns None => true | _ => false end
      | Create _ =>
          fun r => match r with Returns _ => true | Stops => false end
      | _ => fun _ => false
      end r
  end.

(** A verification step begins: [TestInstallation], a lookup in the service
    registry, or a connectivity check. *)
Definition is_verification (e : Event) : bool :=
  match e with
  | Ev c _ =>
      match c with
      | TestInstallation _ | Catalog_Service _ _ _
      | k8s_CheckStaticServerConnectionSuccessful _ _ => true
      | _ => false
      end
  end.

Definition is_lookup (e : Event) : bool :=
  match e with
  | Ev c _ => match c with Catalog_Service _ _ _ => true | _ => false end
  end.

(** The lookup of [name] returned without error exactly one instance. *)
Definition confirms (name : string) (e : Event) : bool :=
  match e with
  | Ev c r =>
      match c in Call X return Reply X -> bool with
      | Catalog_Service _ n _ =>
          fun r =>
            match r with
            | Returns (instances, None) =>
                bool_decide (n = name) && bool_decide (length instances = 1)
            | _ => false
            end
      | _ => fun _ => false
      end r
  end.

(** The lookup returned an error. *)
Definition lookup_failed (e : Event) : bool :=
  match e with
  | Ev c r =>
      match c in Call X return Reply X -> bool with
      | Catalog_Service _ _ _ =>
          fun r => match r with Returns (_, Some _) => true | _ => false end
      | _ => fun _ => false
      end r
  end.

(** The arguments of a pod deletion: namespace, name, grace period. *)
Definition deletion (e : Event) : option (string * string * option Z) :=
  match e with
  | Ev c _ =>
      match c with
      | Pods_Delete _ ns name gracePeriodSeconds => Some (ns, name, gracePeriodSeconds)
      | _ => None
      end
  end.

(** The pods a listing returned without error. *)
Definition listed (e : Event) : option (list Pod) :=
  match e with
  | Ev c r =>
      match c in Call X return Reply X -> option (list Pod) with
      | Pods_List _ _ _ =>
          fun r => match r with Returns (pods, None) => Some pods | _ => None end
      | _ => fun _ => None
      end r
  end.

(** The override map handed to a topology generator. *)
Definition generator_overrides (e : Event) : option (gmap string string) :=
  match e with
  | Ev c _ =>
      match c with
      | NewHelmCluster helmValues _ _ _ => Some helmValues
      | _ => None
      end
  end.

(** Whenever a verification step begins, the latest install or upgrade
    call before it has returned success. *)
Definition verified_only_after_deploy (tr : list Event) : Prop :=
  forall pre e post,
    tr = pre ++ e :: post -> is_verification e = true ->
    exists p1 d p2,
      pre = p1 ++ d :: p2
      /\ deploy_succeeded d = true
      /\ Forall (fun x => is_deploy_call x = false) p2.

(** Whenever a pod is deleted, an attempt of the registration check has seen
    one instance of each of the two services, and the registry has not
    been looked up since. *)
Definition deleted_only_after_registration (tr : list Event) : Prop :=
  forall pre e post,
    tr = pre ++ e :: post -> is_Some (deletion e) ->
    exists a e1 e2 b,
      pre = a ++ e1 :: e2 :: b
      /\ confirms "static-client" e1 = true
      /\ confirms "static-client-sidecar-proxy" e2 = true
      /\ Forall (fun x => is_lookup x = false) b.

(** Whenever a pod is deleted, it is with a grace period of zero, and it is
    the one pod that the latest listing returned. *)
Definition deletes_the_listed_pod (tr : list Event) : Prop :=
  forall pre e post ns name gracePeriodSeconds,
    tr = pre ++ e :: post ->
    deletion e = Some (ns, name, gracePeriodSeconds) ->
    gracePeriodSeconds = Some 0%Z
    /\ exists p1 l p2 pod,
         pre = p1 ++ l :: p2
         /\ listed l = Some [pod]
         /\ name = Name pod
         /\ Forall (fun x => listed x = None) p2.

(** *** Monitors

    A property of traces is checked by an automaton that reads the trace
    event by event and gets stuck on a violation. *)

Fixpoint scan {S} (step : S -> Event -> option S) (st : S) (tr : list Event) : option S :=
  match tr with
  | [] => Some st
  | e :: tr' =>
      match step st e with
      | Some st' => scan step st' tr'
      | None => None
      end
  end.

(** Did the latest install or upgrade call succeed? *)
Definition deploy_step (ok : bool) (e : Event) : option bool :=
  if is_deploy_call e then Some (deploy_succeeded e)
  else if is_verification e then (if ok then Some ok else None)
  else Some ok.

(** How far the registration is confirmed. *)
Inductive Confirmation := Unconfirmed | Half_confirmed | Confirmed.

Definition delete_step (st : Confirmation) (e : Event) : option Confirmation :=
  if is_lookup e then
    Some (if confirms "static-client" e then Half_confirmed
          else match st with
               | Half_confirmed =>
                   if confirms "static-client-sidecar-proxy" e
                   then Confirmed else Unconfirmed
               | _ => Unconfirmed
               end)
  else
    match deletion e, st with
    | Some _, Confirmed => Some Confirmed
    | Some _, _ => None
    | None, Confirmed => Some Confirmed
    | None, _ => Some Unconfirmed
    end.

(** The pods of the latest listing that succeeded. *)
Definition pods_step (st : option (list Pod)) (e : Event) : option (option (list Pod)) :=
  match listed e with
  | Some pods => Some (Some pods)
  | None =>
      match deletion e with
      | Some (_, name, gracePeriodSeconds) =>
          match st with
          | Some [pod] =>
              if bool_decide (gracePeriodSeconds = Some 0%Z /\ name = Name pod)
              then Some st else None
          | _ => None
          end
      | None => Some st
      end
  end.

(** Every generator is handed the overrides [expected]. *)
Definition overrides_step (expected : gmap string string) (st : unit) (e : Event)
    : option unit :=
  match generator_overrides e with
  | Some helmValues => if bool_decide (helmValues = expected) then Some tt else None
  | None => Some tt
  end.

(** [triple step st m Q]: run from the monitor state [st], the events of [m]
    never get the monitor stuck, and if [m] returns [a], with the monitor
    then in state [st'], [Q a st'] holds. *)
Definition triple {S A} (step : S -> Event -> option S) (st : S) (m : T A)
    (Q : A -> S -> Prop) : Prop :=
  forall o i,
    exists st', scan step st (m o i).1 = Some st'
                /\ forall a, (m o i).2 = Returned a -> Q a st'.

(** *** The poller, attempt by attempt *)

Definition fresh : R := {| fail := false; output := [] |}.

(** All of the [n] attempts that start at interaction [i] record a failure. *)
Fixpoint all_attempts_fail (n : nat) (f : RT unit) (o : Oracle) (i : nat) : Prop :=
  match n with
  | 0 => True
  | S n' =>
      exists tr att,
        f fresh o i = (tr, Returned att)
        /\ fail (final_R att) = true
        /\ all_attempts_fail n' f o (i + length tr)
  end.

(** The failure set an exhausted poll surfaces: that of the last of its [n]
    attempts ([last] when there was none). *)
Fixpoint last_failure_set (n : nat) (f : RT unit) (last : list string) (o : Oracle)
    (i : nat) : list string :=
  match n with
  | 0 => last
  | S n' =>
      let '(tr, st) := f fresh o i in
      match st with
      | Returned att => last_failure_set n' f (output (final_R att)) o (i + length tr)
      | _ => last
      end
  end.

(** One of the [n] attempts that start at interaction [i] records no
    failure, all those before it having recorded one. *)
Fixpoint some_attempt_passes (n : nat) (f : RT unit) (o : Oracle) (i : nat) : Prop :=
  match n with
  | 0 => False
  | S n' =>
      exists tr att,
        f fresh o i = (tr, Returned att)
        /\ (fail (final_R att) = false
            \/ (fail (final_R att) = true /\ some_attempt_passes n' f o (i + length tr)))
  end.

(** The instances a lookup returned ([nil] when it failed or stopped). *)
Definition instances_of (r : Reply (list CatalogService * option error)) : list CatalogService :=
  match r with
  | Returns (instances, _) => instances
  | Stops => []
  end.

(** An attempt of the deregistration check at interaction [i] sees both
    lookups return without error, and no instance that carries [podName]. *)
Definition sees_pod_deregistered (consulClient : ConsulClient) (podName : string)
    (o : Oracle) (i : nat) : Prop :=
  exists instances1 instances2,
    o i _ (Catalog_Service consulClient "static-client" "") = Returns (instances1, None)
    /\ o (i + 1) _ (Catalog_Service consulClient "static-client-sidecar-proxy" "")
       = Returns (instances2, None)
    /\ Forall (fun instance => Contains (ServiceID instance) podName = false)
              (instances1 ++ instances2).

(** *** What the monitors know, and one attempt written out *)

(** What the deploy monitor knows when it says [true]. *)
Definition deploy_inv (ok : bool) (pre : list Event) : Prop :=
  ok = true ->
  exists p1 d p2,
    pre = p1 ++ d :: p2
    /\ deploy_succeeded d = true
    /\ Forall (fun x => is_deploy_call x = false) p2.

(** What the deletion monitor knows in each of its states. *)
Definition delete_inv (st : Confirmation) (pre : list Event) : Prop :=
  match st with
  | Unconfirmed => True
  | Half_confirmed => exists a e1, pre = a ++ [e1] /\ confirms "static-client" e1 = true
  | Confirmed =>
      exists a e1 e2 b,
        pre = a ++ e1 :: e2 :: b
        /\ confirms "static-client" e1 = true
        /\ confirms "static-client-sidecar-proxy" e2 = true
        /\ Forall (fun x => is_lookup x = false) b
  end.

(** What the listing monitor knows about the pods it holds. *)
Definition pods_inv (st : option (list Pod)) (pre : list Event) : Prop :=
  match st with
  | None => True
  | Some pods =>
      exists p1 l p2,
        pre = p1 ++ l :: p2 /\ listed l = Some pods
        /\ Forall (fun x => listed x = None) p2
  end.

(** The messages the deregistration check records for [instances]. *)
Definition still_registered (instances : list CatalogService) (podName : string)
    : list string :=
  (fun instance => ServiceID instance +:+ " is still registered")
    <$> filter (fun instance => Contains (ServiceID instance) podName = true) instances.

Definition record_failures (r : R) (msgs : list string) : R :=
  match msgs with
  | [] => r
  | _ => {| fail := true; output := output r ++ msgs |}
  end.

(** The message the registration check records for [instances]. *)
Definition not_exactly_one (name : string) (instances : list CatalogService)
    : list string :=
  if decide (length instances ≠ 1) then ["expected 1 instance of " +:+ name] else [].

(** One attempt of a check that looks both services up and records
    [judge name instances] for each. *)
Definition attempt_of (judge : string -> list CatalogService -> list string)
    (consulClient : ConsulClient) (r : R) (o : Oracle) (i : nat)
    : list Event * Status (Attempt unit) :=
  let c1 := Catalog_Service consulClient "static-client" "" in
  let c2 := Catalog_Service consulClient "static-client-sidecar-proxy" "" in
  match o i _ c1 with
  | Stops => ([Ev c1 Stops], Stopped)
  | Returns (l1, Some e) =>
      ([Ev c1 (Returns (l1, Some e))],
       Returned (Ended {| fail := true; output := output r ++ [e] |}))
  | Returns (l1, None) =>
      let r1 := record_failures r (judge "static-client" l1) in
      let ev1 := Ev c1 (Returns (l1, None)) in
      match o (i + 1) _ c2 with
      | Stops => ([ev1; Ev c2 Stops], Stopped)
      | Returns (l2, Some e) =>
          ([ev1; Ev c2 (Returns (l2, Some e))],
           Returned (Ended {| fail := true; output := output r1 ++ [e] |}))
      | Returns (l2, None) =>
          ([ev1; Ev c2 (Returns (l2, None))],
           Returned (Goes_on tt
             (record_failures r1 (judge "static-client-sidecar-proxy" l2))))
      end
  end.

(** A check closure [f] treats lookup errors as retryable: within an attempt, a lookup that
    returns an error makes the attempt a failed one, and never fails the
    test; after a failed attempt the poller goes on with what is left of
    its budget; the poll fails the test exactly when every attempt of the
    budget has recorded a failure, and it then surfaces the failures of
    the last one. *)
Definition lookup_errors_are_retryable (f : RT unit) : Prop :=
  forall (o : Oracle) (i : nat),
    (forall r fl, (f r o i).2 <> TestFailed fl)
    /\ (forall r,
          Exists (fun e => lookup_failed e = true) (f r o i).1 ->
          exists att, (f r o i).2 = Returned att /\ fail (final_R att) = true)
    /\ (forall n last tr att,
          f fresh o i = (tr, Returned att) ->
          fail (final_R att) = true ->
          run (S n) f last o i
          = (tr ++ (run n f (output (final_R att)) o (i + length tr)).1,
             (run n f (output (final_R att)) o (i + length tr)).2))
    /\ (forall n fl,
          (retry_Run n f o i).2 = TestFailed fl
          <-> all_attempts_fail n f o i
              /\ fl = retry_exhausted (last_failure_set n f [] o i)).

(** *** Collaborators for concrete runs *)

Definition sample_config : config.TestConfig :=
  {| config.KubeNamespace := ""; config.Kubeconfig := ""; config.KubeContext := "";
     config.EnableMultiCluster := false; config.SecondaryKubeNamespace := "";
     config.SecondaryKubeconfig := ""; config.SecondaryKubeContext := "";
     config.NoCleanupOnFailure := false; config.DebugDirectory := "";
     config.EnableTransparentProxy := false |}.

Definition sample_options : k8s.KubectlOptions :=
  {| k8s.ContextName := "dc1"; k8s.ConfigPath := "/kube/primary"; k8s.Namespace := "ns1" |}.

(** Everything succeeds; the registry holds the instances [registry i] at
    interaction [i]. *)
Definition cooperative (registry : nat -> string -> list CatalogService * option error)
    : Oracle :=
  fun i X c =>
    match c in Call X return Reply X with
    | suite_Config => Returns sample_config
    | suite_Environment_DefaultContext => Returns 1
    | helpers_RandomName => Returns "test-abcdef"
    | Install _ | TestInstallation _ | Upgrade _ => Returns None
    | NewHelmCluster _ _ _ _ => Returns 2
    | Create _ => Returns tt
    | SetupConsulClient _ _ => Returns 3
    | logger_Log _ | logger_Logf _ _ => Returns tt
    | KubectlOptions _ => Returns sample_options
    | KubernetesClient _ => Returns 4
    | k8s_DeployKustomize _ _ _ _ => Returns tt
    | k8s_CheckStaticServerConnectionSuccessful _ _ => Returns tt
    | k8s_RunKubectl _ _ => Returns tt
    | Catalog_Service _ name _ => Returns (registry i name)
    | Pods_List _ _ _ => Returns ([ {| Name := "static-client-7f9c" |} ], None)
    | Pods_Delete _ _ _ _ => Returns None
    end.

(** The registry cannot be reached at all. *)
Definition unreachable_registry : nat -> string -> list CatalogService * option error :=
  fun _ _ => ([], Some "connection refused").

(** The pod's two registrations are there up to interaction [until], and
    gone afterwards. *)
Definition registered_until (until : nat) : nat -> string -> list CatalogService * option error :=
  fun i name =>
    if decide (i <= until)
    then ([ {| ServiceID := "static-client-7f9c-" +:+ name |} ], None)
    else ([], None).

(** *** What a run has seen, and what is allowed next *)

(** [seen update init pre]: what is known after the events [pre]. *)
Definition seen {A} (update : A -> Event -> A) (init : A) (pre : list Event) : A :=
  fold_left update pre init.

(** Every event of the trace satisfies [P], given what has been seen
    before it. *)
Definition always_allowed {A} (update : A -> Event -> A) (P : A -> Event -> Prop)
    (init : A) (tr : list Event) : Prop :=
  forall pre e post, tr = pre ++ e :: post -> P (seen update init pre) e.

(** [keeps update P st m Q]: started when [st] has been seen, every event of
    [m] is allowed, and [Q] relates how [m] ends to what has been seen then. *)
Definition keeps {A X} (update : A -> Event -> A) (P : A -> Event -> Prop) (st : A)
    (m : T X) (Q : Status X -> A -> Prop) : Prop :=
  forall o i,
    always_allowed update P st (m o i).1
    /\ Q (m o i).2 (seen update st (m o i).1).

(** How a call ends for the caller. *)
Definition status_of {X} (r : Reply X) : Status X :=
  match r with
  | Returns x => Returned x
  | Stops => Stopped
  end.

(** A lookup of one of the two services, on [consulClient], with no tag. *)
Definition check_lookup (consulClient : ConsulClient) (e : Event) : Prop :=
  match e with
  | Ev c _ =>
      match c with
      | Catalog_Service client name tag =>
          client = consulClient /\ name ∈ static_client_services /\ tag = ""
      | _ => False
      end
  end.

(** A poll fails the test only by exhausting its budget. *)
Definition poll_status (r : Status unit) : Prop :=
  forall fl, r = TestFailed fl -> exists out, fl = retry_exhausted out.

(** *** Failing fast *)

(** The failure, if any, of the assertion the tests make on the result of
    a call: [require.NoError] on what [Install], [Upgrade],
    [TestInstallation], the pod listing and the pod deletion return, and
    [require.Len] on the pods listed. *)
Definition asserted_failure (e : Event) : option Failure :=
  match e with
  | Ev c r =>
      match c in Call X return Reply X -> option Failure with
      | Install _ | TestInstallation _ | Upgrade _ | Pods_Delete _ _ _ _ =>
          fun r =>
            match r with
            | Returns (Some err) => Some (NoError_failed err)
            | _ => None
            end
      | Pods_List _ _ _ =>
          fun r =>
            match r with
            | Returns (_, Some err) => Some (NoError_failed err)
            | Returns (pods, None) =>
                if decide (length pods = 1) then None else Some (Len_failed (length pods))
            | Stops => None
            end
      | _ => fun _ => None
      end r
  end.

(** The first failed assertion seen. *)
Definition first_failure (st : option Failure) (e : Event) : option Failure :=
  match st with
  | Some f => Some f
  | None => asserted_failure e
  end.

(** A call whose result fails its assertion is the last call of the run, and
    the run is a test failure for that reason; a run that is a test failure
    for another reason is a poll that exhausted its budget. *)
Definition fails_fast (run : list Event * Status unit) : Prop :=
  (forall pre e post f,
      run.1 = pre ++ e :: post ->
      asserted_failure e = Some f ->
      post = [] /\ run.2 = TestFailed f)
  /\ (forall f,
        run.2 = TestFailed f ->
        (exists out, f = retry_exhausted out)
        \/ exists pre e, run.1 = pre ++ [e] /\ asserted_failure e = Some f).

(** How a run may end, given the first failed assertion seen. *)
Definition ends_as_seen {X} (r : Status X) (st : option Failure) : Prop :=
  match st with
  | Some f => r = TestFailed f
  | None => forall f, r = TestFailed f -> exists out, f = retry_exhausted out
  end.

(** *** Handles *)

(** The values the collaborators have handed out so far: for each kind,
    what the latest call that returned one gave. *)
Record Handles := {
  h_cfg : option config.TestConfig;
  h_ctx : option TestContext;
  h_release : option string;
  h_cluster : option Cluster;
  h_options : option k8s.KubectlOptions;
  h_kube : option KubeClient;
  h_consul : option ConsulClient;
  h_pods : option (list Pod);
  h_upgraded : bool;
  h_rollout : option (list string)
}.

Definition no_handles : Handles :=
  {| h_cfg := None; h_ctx := None; h_release := None; h_cluster := None;
     h_options := None; h_kube := None; h_consul := None; h_pods := None;
     h_upgraded := false; h_rollout := None |}.

Definition note (st : Handles) (e : Event) : Handles :=
  match e with
  | Ev c r =>
      match c in Call X return Reply X -> Handles with
      | suite_Config => fun r =>
          match r with
          | Returns cfg =>
              {| h_cfg := Some cfg; h_ctx := h_ctx st; h_release := h_release st;
                 h_cluster := h_cluster st; h_options := h_options st; h_kube := h_kube st;
                 h_consul := h_consul st; h_pods := h_pods st;
                 h_upgraded := h_upgraded st; h_rollout := h_rollout st |}
          | Stops => st
          end
      | suite_Environment_DefaultContext => fun r =>
          match r with
          | Returns ctx =>
              {| h_cfg := h_cfg st; h_ctx := Some ctx; h_release := h_release st;
                 h_cluster := h_cluster st; h_options := h_options st; h_kube := h_kube st;
                 h_consul := h_consul st; h_pods := h_pods st;
                 h_upgraded := h_upgraded st; h_rollout := h_rollout st |}
          | Stops => st
          end
      | helpers_RandomName => fun r =>
          match r with
          | Returns name =>
              {| h_cfg := h_cfg st; h_ctx := h_ctx st; h_release := Some name;
                 h_cluster := h_cluster st; h_options := h_options st; h_kube := h_kube st;
                 h_consul := h_consul st; h_pods := h_pods st;
                 h_upgraded := h_upgraded st; h_rollout := h_rollout st |}
          | Stops => st
          end
      | NewHelmCluster _ _ _ _ => fun r =>
          match r with
          | Returns cluster =>
              {| h_cfg := h_cfg st; h_ctx := h_ctx st; h_release := h_release st;
                 h_cluster := Some cluster; h_options := h_options st; h_kube := h_kube st;
                 h_consul := h_consul st; h_pods := h_pods st;
                 h_upgraded := h_upgraded st; h_rollout := h_rollout st |}
          | Stops => st
          end
      | KubectlOptions _ => fun r =>
          match r with
          | Returns options =>
              {| h_cfg := h_cfg st; h_ctx := h_ctx st; h_release := h_release st;
                 h_cluster := h_cluster st; h_options := Some options; h_kube := h_kube st;
                 h_consul := h_consul st; h_pods := h_pods st;
                 h_upgraded := h_upgraded st; h_rollout := h_rollout st |}
          | Stops => st
          end
      | KubernetesClient _ => fun r =>
          match r with
          | Returns client =>
              {| h_cfg := h_cfg st; h_ctx := h_ctx st; h_release := h_release st;
                 h_cluster := h_cluster st; h_options := h_options st; h_kube := Some client;
                 h_consul := h_consul st; h_pods := h_pods st;
                 h_upgraded := h_upgraded st; h_rollout := h_rollout st |}
          | Stops => st
          end
      | SetupConsulClient _ _ => fun r =>
          match r with
          | Returns client =>
              {| h_cfg := h_cfg st; h_ctx := h_ctx st; h_release := h_release st;
                 h_cluster := h_cluster st; h_options := h_options st; h_kube := h_kube st;
                 h_consul := Some client; h_pods := h_pods st;
                 h_upgraded := h_upgraded st; h_rollout := h_rollout st |}
          | Stops => st
          end
      | Pods_List _ _ _ => fun r =>
          match r with
          | Returns (pods, _) =>
              {| h_cfg := h_cfg st; h_ctx := h_ctx st; h_release := h_release st;
                 h_cluster := h_cluster st; h_options := h_options st; h_kube := h_kube st;
                 h_consul := h_consul st; h_pods := Some pods;
                 h_upgraded := h_upgraded st; h_rollout := h_rollout st |}
          | Stops => st
          end
      | Upgrade _ => fun _ =>
          {| h_cfg := h_cfg st; h_ctx := h_ctx st; h_release := h_release st;
             h_cluster := h_cluster st; h_options := h_options st; h_kube := h_kube st;
             h_consul := h_consul st; h_pods := h_pods st;
             h_upgraded := true; h_rollout := h_rollout st |}
      | k8s_RunKubectl _ args => fun r =>
          match r with
          | Returns _ =>
              {| h_cfg := h_cfg st; h_ctx := h_ctx st; h_release := h_release st;
                 h_cluster := h_cluster st; h_options := h_options st; h_kube := h_kube st;
                 h_consul := h_consul st; h_pods := h_pods st;
                 h_upgraded := h_upgraded st; h_rollout := Some args |}
          | Stops => st
          end
      | _ => fun _ => st
      end r
  end.

(** The helper a row of [TestConnectInject] calls [Install] and
    [TestInstallation] on. *)
Definition inject_helper (c : InjectCase) (ctx : TestContext) (cfg : config.TestConfig)
    : ConnectHelper :=
  {| ClusterGenerator := clusterGen c; ReleaseName := releaseName c;
     Secure := secure c; AutoEncrypt := autoEncrypt c; AdditionalHelmValues := ∅;
     Ctx := ctx; Cfg := cfg |}.

(** The helper of a row of [TestConnectInjectOnUpgrade], as it is before
    and from the upgrade on. *)
Definition upgrade_helper (c : UpgradeCase) (upgraded : bool) (ctx : TestContext)
    (cfg : config.TestConfig) : ConnectHelper :=
  {| ClusterGenerator := up_clusterGen c; ReleaseName := up_releaseName c;
     Secure := tc_secure (if upgraded then upgrade c else initial c);
     AutoEncrypt := tc_autoEncrypt (if upgraded then upgrade c else initial c);
     AdditionalHelmValues := if upgraded then tc_helmValues (upgrade c) else ∅;
     Ctx := ctx; Cfg := cfg |}.

(** The helper a call is made on. *)
Definition helper_of (e : Event) : option ConnectHelper :=
  match e with
  | Ev c _ =>
      match c with
      | Install h | TestInstallation h | Upgrade h => Some h
      | _ => None
      end
  end.

Definition is_upgrade (e : Event) : bool :=
  match e with
  | Ev c _ => match c with Upgrade _ => true | _ => false end
  end.

(** Every call on the helper of [TestConnectInject] is made on the helper
    built from the row and from the context and configuration the suite
    returned. *)
Definition inject_wired (c : InjectCase) (st : Handles) (e : Event) : Prop :=
  forall h,
    helper_of e = Some h ->
    exists ctx cfg,
      h_ctx st = Some ctx /\ h_cfg st = Some cfg /\ h = inject_helper c ctx cfg.

(** For [TestConnectInjectOnUpgrade]: [Install] and what precedes the
    upgrade see the initial flags and no additional values; [Upgrade] and
    what follows see those of the upgrade; release name, generator,
    context and configuration are the same throughout. *)
Definition upgrade_wired (c : UpgradeCase) (st : Handles) (e : Event) : Prop :=
  forall h,
    helper_of e = Some h ->
    exists ctx cfg,
      h_ctx st = Some ctx /\ h_cfg st = Some cfg
      /\ h = upgrade_helper c (h_upgraded st || is_upgrade e) ctx cfg.

(** For [TestConnectInject_CleanupKilledPods]: each call is given the
    handles that the latest calls handing them out returned. *)
Definition cleanup_wired (c_secure c_autoEncrypt : bool) (st : Handles) (e : Event) : Prop :=
  match e with
  | Ev c _ =>
      match c with
      | NewHelmCluster helmValues ctx cfg releaseName =>
          helmValues = cleanup_helmValues c_secure c_autoEncrypt
          /\ h_ctx st = Some ctx /\ h_cfg st = Some cfg /\ h_release st = Some releaseName
      | Create consulCluster => h_cluster st = Some consulCluster
      | SetupConsulClient consulCluster secure =>
          h_cluster st = Some consulCluster /\ secure = c_secure
      | KubectlOptions ctx | KubernetesClient ctx => h_ctx st = Some ctx
      | k8s_DeployKustomize options noCleanupOnFailure debugDirectory kustomizeDir =>
          h_options st = Some options
          /\ Some noCleanupOnFailure = config.NoCleanupOnFailure <$> h_cfg st
          /\ Some debugDirectory = config.DebugDirectory <$> h_cfg st
          /\ kustomizeDir = "../fixtures/cases/static-client-inject"
      | Catalog_Service consulClient name tag =>
          h_consul st = Some consulClient /\ name ∈ static_client_services /\ tag = ""
      | Pods_List client ns labelSelector =>
          h_kube st = Some client
          /\ Some ns = k8s.Namespace <$> h_options st
          /\ labelSelector = "app=static-client"
      | Pods_Delete client ns name gracePeriodSeconds =>
          h_kube st = Some client
          /\ Some ns = k8s.Namespace <$> h_options st
          /\ (exists pod, h_pods st = Some [pod] /\ name = Name pod)
          /\ gracePeriodSeconds = Some 0%Z
      | Install _ | TestInstallation _ | Upgrade _
      | k8s_CheckStaticServerConnectionSuccessful _ _ | k8s_RunKubectl _ _ => False
      | _ => True
      end
  end.

(** The URL and the client fixture that fit the proxy mode. *)
Definition static_server_url (cfg : config.TestConfig) : string :=
  if config.EnableTransparentProxy cfg then "http://static-server"
  else "http://localhost:1234".

Definition static_client_fixture (cfg : config.TestConfig) : string :=
  if config.EnableTransparentProxy cfg then "../fixtures/cases/static-client-tproxy"
  else "../fixtures/cases/static-client-inject".

(** For [TestConnectInject_RestartConsulClients]. *)
Definition restart_wired (st : Handles) (e : Event) : Prop :=
  match e with
  | Ev c _ =>
      match c with
      | NewHelmCluster helmValues ctx cfg releaseName =>
          helmValues = {[ "connectInject.enabled" := "true" ]}
          /\ h_ctx st = Some ctx /\ h_cfg st = Some cfg /\ h_release st = Some releaseName
      | Create consulCluster => h_cluster st = Some consulCluster
      | KubectlOptions ctx => h_ctx st = Some ctx
      | k8s_DeployKustomize options noCleanupOnFailure debugDirectory kustomizeDir =>
          h_options st = Some options
          /\ Some noCleanupOnFailure = config.NoCleanupOnFailure <$> h_cfg st
          /\ Some debugDirectory = config.DebugDirectory <$> h_cfg st
          /\ (kustomizeDir = "../fixtures/cases/static-server-inject"
              \/ Some kustomizeDir = static_client_fixture <$> h_cfg st)
      | k8s_CheckStaticServerConnectionSuccessful options url =>
          h_options st = Some options /\ Some url = static_server_url <$> h_cfg st
      | k8s_RunKubectl options args =>
          h_options st = Some options
          /\ exists releaseName verb,
               h_release st = Some releaseName
               /\ (verb = "restart" \/ verb = "status")
               /\ args = ["rollout"; verb; "ds/" +:+ releaseName +:+ "-consul-client"]
      | Install _ | TestInstallation _ | Upgrade _ | SetupConsulClient _ _
      | KubernetesClient _ | Catalog_Service _ _ _ | Pods_List _ _ _
      | Pods_Delete _ _ _ _ => False
      | _ => True
      end
  end.

(** The verb of a [kubectl rollout] call. *)
Definition rollout_verb (args : list string) : option string :=
  match args with
  | [_; verb; _] => Some verb
  | _ => None
  end.

(** For [TestConnectInject_RestartConsulClients]: [rollout status] is asked
    only when the latest [kubectl] call to return was the [rollout restart],
    and the connection is checked either before any [kubectl] call or when
    the latest one to return was the [rollout status]. *)
Definition restart_ordered (st : Handles) (e : Event) : Prop :=
  match e with
  | Ev c _ =>
      match c with
      | k8s_RunKubectl _ args =>
          (rollout_verb args = Some "restart" /\ h_rollout st = None)
          \/ (rollout_verb args = Some "status"
              /\ (h_rollout st ≫= rollout_verb) = Some "restart")
      | k8s_CheckStaticServerConnectionSuccessful _ _ =>
          h_rollout st = None \/ (h_rollout st ≫= rollout_verb) = Some "status"
      | _ => True
      end
  end.

(** *** The registration check *)

(** An attempt of the registration check at interaction [i] sees both
    lookups return, without error, exactly one instance. *)
Definition sees_one_of_each (consulClient : ConsulClient) (o : Oracle) (i : nat) : Prop :=
  exists instance1 instance2,
    o i _ (Catalog_Service consulClient "static-client" "")
    = Returns ([instance1], None)
    /\ o (i + 1) _ (Catalog_Service consulClient "static-client-sidecar-proxy" "")
       = Returns ([instance2], None).

(** Collaborators for concrete runs: everything succeeds but the install,
    or but the pod listing, which finds two pods. *)
Definition failing_install (err : error) : Oracle :=
  fun i X c =>
    match c in Call X return Reply X with
    | Install _ => Returns (Some err)
    | c' => cooperative (registered_until 13) i _ c'
    end.

Definition listing_two_pods : Oracle :=
  fun i X c =>
    match c in Call X return Reply X with
    | Pods_List _ _ _ =>
        Returns ([ {| Name := "static-client-7f9c" |}; {| Name := "static-client-x2b4" |} ],
                 None)
    | c' => cooperative (registered_until 13) i _ c'
    end.

Definition sample_inject_case : InjectCase :=
  {| clusterGen := consul.NewHelmCluster; releaseName := "test-abcdef";
     secure := true; autoEncrypt := false |}.

(** *** The scenario of the cleanup case *)

(** The collaborator did as it was asked: a call that reports an error
    reported none, the listing found the one pod [pod], and every other
    call returned.  The registry is left free. *)
Definition succeeds (pod : Pod) {X} (c : Call X) : Reply X -> Prop :=
  match c in Call X return Reply X -> Prop with
  | Catalog_Service _ _ _ => fun _ => True
  | Pods_List _ _ _ => fun r => r = Returns ([pod], None)
  | Install _ | TestInstallation _ | Upgrade _ | Pods_Delete _ _ _ _ =>
      fun r => r = Returns None
  | _ => fun r => exists x, r = Returns x
  end.

Definition obliging (pod : Pod) (o : Oracle) : Prop :=
  forall i X (c : Call X), succeeds pod c (o i X c).

(** The pod's two registrations are there up to interaction [until];
    afterwards the registry cannot be reached. *)
Definition reachable_until (until : nat) : nat -> string -> list CatalogService * option error :=
  fun i name =>
    if decide (i <= until)
    then ([ {| ServiceID := "static-client-7f9c-" +:+ name |} ], None)
    else ([], Some "connection refused").

(** The instances that the lookups of a trace returned. *)
Definition returned_instances (tr : list Event) : list CatalogService :=
  tr ≫= (fun e =>
    match e with
    | Ev c r =>
        match c in Call X return Reply X -> list CatalogService with
        | Catalog_Service _ _ _ => instances_of
        | _ => fun _ => []
        end r
    end).

(** No instance that a lookup of [post] returned carries [podName]. *)
Definition no_registration_remains (podName : string) (post : list Event) : Prop :=
  Forall (fun instance => Contains (ServiceID instance) podName = false)
         (returned_instances post).

(** How a run of the cleanup case goes at interaction [i] when the single
    backing pod is [pod]: after the setup, which ends with the Consul
    client being set up, comes the registration poll.  If it does not
    confirm the registrations the run ends with it, and no pod is deleted.
    If it does, then after the listing [pod] is deleted, with a grace
    period of zero, and this is the only deletion; the rest of the run is
    the deregistration poll, on the same Consul client and for the name of
    that pod, and the run returns exactly when the poll does: when one of
    its attempts passes. *)
Definition cleanup_scenario (attempts : nat) (c_secure c_autoEncrypt : bool) (pod : Pod)
    (o : Oracle) (i : nat) : Prop :=
  let run := TestConnectInject_CleanupKilledPods attempts c_secure c_autoEncrypt o i in
  exists setup consulCluster consulClient,
    last setup = Some (Ev (SetupConsulClient consulCluster c_secure) (Returns consulClient))
    /\ let registration :=
         retry_Run attempts (registered_check consulClient) o (i + length setup) in
       (registration.2 <> Returned tt ->
        run = (setup ++ registration.1, registration.2)
        /\ Forall (fun e => deletion e = None) run.1)
       /\ (registration.2 = Returned tt ->
           exists mid client ns,
             let before := setup ++ registration.1 ++ mid in
             let deregistration :=
               retry_Run attempts (deregistered_check consulClient (Name pod)) o
                 (i + length before + 2) in
             run.1 = before
                     ++ Ev (Pods_Delete client ns (Name pod) (Some 0%Z)) (Returns None)
                     :: Ev (logger_Log "ensuring pod is deregistered") (Returns tt)
                     :: deregistration.1
             /\ Forall (fun e => deletion e = None) (before ++ deregistration.1)
             /\ run.2 = deregistration.2
             /\ (run.2 = Returned tt
                 <-> some_attempt_passes attempts
                       (deregistered_check consulClient (Name pod)) o
                       (i + length before + 2))).

End Connect.

(** ** Properties of the string functions *)

Lemma append_nil_l (s : string) : "" +:+ s = s.
Proof. reflexivity. Qed.

Lemma append_cons c (a b : string) : String c a +:+ b = String c (a +:+ b).
Proof. reflexivity. Qed.

Lemma string_app_assoc (a b c : string) : (a +:+ b) +:+ c = a +:+ (b +:+ c).
Proof.
  induction a as [|x a IH]; [done|]. by rewrite !append_cons, IH.
Qed.

Lemma string_app_nil_r (a : string) : a +:+ "" = a.
Proof.
  induction a as [|x a IH]; [done|]. by rewrite append_cons, IH.
Qed.

Lemma HasPrefix_spec s p : HasPrefix s p = true <-> exists post, s = p +:+ post.
Proof.
  revert s. induction p as [|c p IH]; intros s.
  - destruct s; simpl; (split; [intros _; by eexists | done]).
  - destruct s as [|d s]; simpl.
    + split; [done | intros [post H]; discriminate].
    + case_decide as Hcd.
      * subst d. rewrite IH. split; intros [post H]; exists post.
        -- by rewrite append_cons, H.
        -- rewrite append_cons in H. by injection H.
      * split; [done | intros [post H]; rewrite append_cons in H; injection H; congruence].
Qed.

Lemma Contains_spec s substr : Contains s substr = true <-> occurs_in substr s.
Proof.
  induction s as [|d s IH]; simpl.
  - rewrite orb_false_r, HasPrefix_spec. split.
    + intros [post H]. by exists "", post.
    + intros [pre [post H]]. destruct pre.
      * by exists post.
      * discriminate.
  - rewrite orb_true_iff, HasPrefix_spec, IH. split.
    + intros [[post H] | [pre [post H]]].
      * by exists "", post.
      * exists (String d pre), post. by rewrite append_cons, H.
    + intros [pre [post H]]. destruct pre as [|e pre].
      * left. by exists post.
      * right. rewrite append_cons in H. injection H as _ H. by exists pre, post.
Qed.

(** ** Properties of the environment package *)

Module EnvironmentSpec.
Import Environment.

(** *** Frame lemmas: what the accessors leave alone *)

Lemma preserves_ret {A X} (f : Store -> X) (a : A) : preserves f (ret a).
Proof. by intros w s. Qed.

Lemma preserves_panic {A X} (f : Store -> X) : preserves f (@panic A).
Proof. by intros w s. Qed.

Lemma preserves_bind {A B X} (f : Store -> X) (m : M A) (k : A -> M B) :
  preserves f m -> (forall a, preserves f (k a)) -> preserves f (bind m k).
Proof.
  intros Hm Hk w s. unfold bind. specialize (Hm w s).
  destruct (m w s) as [a s'| |]; simpl in *; try done.
  by rewrite Hk.
Qed.

Lemma preserves_require_NoError {A X} (f : Store -> X) (c : World -> Result A) :
  preserves f (require_NoError c).
Proof. intros w s. unfold require_NoError. by destruct (c w). Qed.

Lemma preserves_require_Truef {X} (f : Store -> X) ok msg :
  preserves f (require_Truef ok msg).
Proof. intros w s. unfold require_Truef. by destruct ok. Qed.

Lemma preserves_deref {A X} (f : Store -> X) (h : Store -> gmap loc A) p :
  preserves f (deref h p).
Proof. intros w s. unfold deref. destruct p as [l|]; [|done]. by destruct (h s !! l). Qed.

Lemma preserves_if {A X} (f : Store -> X) (b : bool) (m1 m2 : M A) :
  preserves f m1 -> preserves f m2 -> preserves f (if b then m1 else m2).
Proof. by destruct b. Qed.

Lemma preserves_env_new_options o : preserves envHeap (new_options o).
Proof. by intros w s. Qed.
Lemma preserves_ctx_new_options o : preserves contextHeap (new_options o).
Proof. by intros w s. Qed.
Lemma preserves_env_new_client c : preserves envHeap (new_client c).
Proof. by intros w s. Qed.
Lemma preserves_ctx_new_client c : preserves contextHeap (new_client c).
Proof. by intros w s. Qed.
Lemma preserves_env_set_Namespace p ns : preserves envHeap (set_Namespace p ns).
Proof. intros w s. unfold set_Namespace. destruct p as [l|]; [|done]. by destruct (_ !! l). Qed.
Lemma preserves_ctx_set_Namespace p ns : preserves contextHeap (set_Namespace p ns).
Proof. intros w s. unfold set_Namespace. destruct p as [l|]; [|done]. by destruct (_ !! l). Qed.

Create HintDb frame discriminated.
#[local] Hint Resolve preserves_ret preserves_panic preserves_require_NoError
  preserves_require_Truef preserves_deref preserves_env_new_options
  preserves_ctx_new_options preserves_env_new_client preserves_ctx_new_client
  preserves_env_set_Namespace preserves_ctx_set_Namespace : frame.

Ltac frame :=
  repeat first
    [ solve [auto with frame]
    | apply preserves_bind; [|intros ?]
    | apply preserves_if
    | match goal with |- preserves _ (match ?x with _ => _ end) => destruct x end ].

Lemma preserves_Context {X} (f : Store -> X) k name : preserves f (Context k name).
Proof. unfold Context. frame. Qed.

Lemma preserves_DefaultContext {X} (f : Store -> X) k : preserves f (DefaultContext k).
Proof. unfold DefaultContext. frame. Qed.

Lemma preserves_KubernetesContextFromOptions {X} (f : Store -> X) p :
  preserves f (KubernetesContextFromOptions p).
Proof. unfold KubernetesContextFromOptions. frame. Qed.

Lemma preserves_env_KubectlOptions k : preserves envHeap (KubectlOptions k).
Proof.
  unfold KubectlOptions, Contexts_Namespace.
  pose proof (@preserves_KubernetesContextFromOptions _ envHeap). frame.
Qed.

Lemma preserves_ctx_KubectlOptions k : preserves contextHeap (KubectlOptions k).
Proof.
  unfold KubectlOptions, Contexts_Namespace.
  pose proof (@preserves_KubernetesContextFromOptions _ contextHeap). frame.
Qed.

Lemma preserves_env_KubernetesClient k : preserves envHeap (KubernetesClient k).
Proof.
  unfold KubernetesClient, KubernetesClientFromOptions.
  pose proof preserves_env_KubectlOptions. frame.
Qed.

Lemma preserves_ctx_KubernetesClient k : preserves contextHeap (KubernetesClient k).
Proof.
  unfold KubernetesClient, KubernetesClientFromOptions.
  pose proof preserves_ctx_KubectlOptions. frame.
Qed.

(** *** The registry *)

Lemma message_mentions_both (name : string) :
  let msg := "requested context " +:+ name +:+ " not found" in
  Contains msg "requested context" = true /\ Contains msg "not found" = true.
Proof.
  cbv zeta. split; apply Contains_spec.
  - exists "", (" " +:+ name +:+ " not found"). reflexivity.
  - exists ("requested context " +:+ name +:+ " "), "".
    rewrite string_app_nil_r, !string_app_assoc. reflexivity.
Qed.

(** C3.  On an environment in which [name] is not registered,
    [Context(t, name)] fails the test with the message
    "requested context <name> not found", which contains "requested context"
    and "not found"; it neither panics nor returns.  [DefaultContext] fails
    with "default context not found" when the default entry is absent. *)
Theorem Context_unregistered_fails (w : World) (s : Store) (l : loc)
    (e : KubernetesEnvironment) :
  envHeap s !! l = Some e ->
  (forall name, contexts e !! name = None ->
     let msg := "requested context " +:+ name +:+ " not found" in
     Context (Some l) name w s = Failed (Truef_failed msg) s
     /\ Contains msg "requested context" = true
     /\ Contains msg "not found" = true)
  /\ (contexts e !! DefaultContextName = None ->
      DefaultContext (Some l) w s = Failed (Truef_failed "default context not found") s
      /\ Contains "default context not found" "not found" = true).
Proof.
  intros He. split.
  - intros name Hname msg. split; [|apply message_mentions_both].
    unfold Context, bind, deref. rewrite He, Hname. reflexivity.
  - intros Hdef. split; [|reflexivity].
    unfold DefaultContext, bind, deref. rewrite He, Hdef. reflexivity.
Qed.

Lemma Context_unregistered_fails_witness :
  Context (Some 1) "nonexistent" world_teamA
    (store_with_env {| contexts := {[ "default" := Some 7 ]} |})
  = Failed (Truef_failed "requested context nonexistent not found")
      (store_with_env {| contexts := {[ "default" := Some 7 ]} |})
  /\ DefaultContext (Some 1) world_teamA (store_with_env {| contexts := ∅ |})
    = Failed (Truef_failed "default context not found")
        (store_with_env {| contexts := ∅ |}).
Proof.
  split.
  - apply (Context_unregistered_fails world_teamA
             (store_with_env {| contexts := {[ "default" := Some 7 ]} |}) 1
             {| contexts := {[ "default" := Some 7 ]} |});
      reflexivity.
  - apply (Context_unregistered_fails world_teamA
             (store_with_env {| contexts := ∅ |}) 1 {| contexts := ∅ |});
      reflexivity.
Defined.

(** *** The two constructors *)

Lemma FromConfig_runs (cfg : config.TestConfig) (w : World) (s : Store) :
  let c1 := {| pathToKubeConfig := config.Kubeconfig cfg;
               kubeContextName := config.KubeContext cfg;
               namespace := config.KubeNamespace cfg;
               client := nil; options := nil |} in
  let c2 := {| pathToKubeConfig := config.SecondaryKubeconfig cfg;
               kubeContextName := config.SecondaryKubeContext cfg;
               namespace := config.SecondaryKubeNamespace cfg;
               client := nil; options := nil |} in
  exists s',
    NewKubernetesEnvironmentFromConfig (Some cfg) w s = Ok (Some (S (next s))) s'
    /\ envHeap s' !! S (next s)
       = Some {| contexts :=
                  if config.EnableMultiCluster cfg
                  then <[SecondaryContextName := Some (S (S (next s)))]>
                         {[ DefaultContextName := Some (next s) ]}
                  else {[ DefaultContextName := Some (next s) ]} |}
    /\ contextHeap s' !! next s = Some c1
    /\ (config.EnableMultiCluster cfg = true -> contextHeap s' !! S (S (next s)) = Some c2).
Proof.
  intros c1 c2. unfold NewKubernetesEnvironmentFromConfig, NewContext, bind.
  cbn [new_context new_env next envHeap contextHeap].
  destruct (config.EnableMultiCluster cfg) eqn:Hm.
  - cbn [new_context new_env set_context ret next envHeap contextHeap optionsHeap clientHeap].
    rewrite lookup_insert_eq.
    cbn [set_context ret next envHeap contextHeap optionsHeap clientHeap contexts].
    eexists. split; [reflexivity|].
    cbn [envHeap contextHeap]. rewrite lookup_insert_eq.
    split; [reflexivity|]. split.
    + rewrite lookup_insert_ne by lia. by rewrite lookup_insert_eq.
    + intros _. by rewrite lookup_insert_eq.
  - cbn [ret]. eexists. split; [reflexivity|].
    cbn [envHeap contextHeap]. rewrite !lookup_insert_eq.
    split; [reflexivity|]. split; [reflexivity|done].
Qed.

Lemma FromContext_runs (ctx : ptr) (w : World) (s : Store) :
  exists s',
    NewKubernetesEnvironmentFromContext ctx w s = Ok (Some (next s)) s'
    /\ envHeap s' !! next s = Some {| contexts := {[ DefaultContextName := ctx ]} |}.
Proof.
  unfold NewKubernetesEnvironmentFromContext, bind, new_env, ret.
  eexists. split; [reflexivity|]. cbn [envHeap]. by rewrite lookup_insert_eq.
Qed.

(** C2, as stated, fails on the second constructor: with multi-cluster mode
    enabled in the configuration, the environment built from a single
    context has no "secondary" entry. *)
Lemma secondary_iff_multi_cluster_counterexample :
  exists s' e,
    NewKubernetesEnvironmentFromContext (Some 1) world_teamA empty_store = Ok (Some 1) s'
    /\ envHeap s' !! 1 = Some e
    /\ config.EnableMultiCluster multi_cluster_config = true
    /\ contexts e !! SecondaryContextName = None
    /\ ~ (is_Some (contexts e !! SecondaryContextName)
          <-> config.EnableMultiCluster multi_cluster_config = true).
Proof.
  eexists _, _. split; [reflexivity|]. split; [reflexivity|].
  split; [reflexivity|]. split; [reflexivity|].
  intros [_ H]. destruct (H eq_refl) as [x Hx]. discriminate Hx.
Qed.

(** C2, amended.  Both constructors return an environment with a "default"
    entry.  Built from a configuration, it has a "secondary" entry iff
    multi-cluster mode is enabled there, and no entry under another name;
    built from a single context, "default" is its only entry.  None of the
    accessors changes an environment: the heap of environments is after
    every call what it was before. *)
Theorem registry_entries (cfg : config.TestConfig) (ctx : ptr) (w : World) (s : Store) :
  (exists l s' e,
      NewKubernetesEnvironmentFromConfig (Some cfg) w s = Ok (Some l) s'
      /\ envHeap s' !! l = Some e
      /\ is_Some (contexts e !! DefaultContextName)
      /\ (is_Some (contexts e !! SecondaryContextName)
          <-> config.EnableMultiCluster cfg = true)
      /\ (forall name, is_Some (contexts e !! name) ->
            name = DefaultContextName \/ name = SecondaryContextName))
  /\ (exists l s' e,
      NewKubernetesEnvironmentFromContext ctx w s = Ok (Some l) s'
      /\ envHeap s' !! l = Some e
      /\ contexts e !! DefaultContextName = Some ctx
      /\ (forall name, name <> DefaultContextName -> contexts e !! name = None))
  /\ (forall (k p : ptr) (name : string),
      envHeap (final_store (Context k name w s)) = envHeap s
      /\ envHeap (final_store (DefaultContext k w s)) = envHeap s
      /\ envHeap (final_store (TestContext_KubectlOptions p w s)) = envHeap s
      /\ envHeap (final_store (TestContext_KubernetesClient p w s)) = envHeap s
      /\ envHeap (final_store (KubernetesContextFromOptions p w s)) = envHeap s).
Proof.
  split; [|split].
  - destruct (FromConfig_runs cfg w s) as (s' & Hrun & Henv & _).
    eexists _, s', _. split; [exact Hrun|]. split; [exact Henv|].
    cbn [contexts]. unfold SecondaryContextName, DefaultContextName.
    destruct (config.EnableMultiCluster cfg).
    + split; [by rewrite lookup_insert_ne, lookup_singleton_eq|].
      split; [by rewrite lookup_insert_eq|].
      intros name [x Hx]. destruct (decide (name = "secondary")) as [|Hne]; [by right|].
      left. rewrite lookup_insert_ne in Hx by done.
      by apply lookup_singleton_Some in Hx as [<- _].
    + split; [by rewrite lookup_singleton_eq|].
      split; [split; [intros [x Hx]; by rewrite lookup_singleton_ne in Hx | done]|].
      intros name [x Hx]. left. by apply lookup_singleton_Some in Hx as [<- _].
  - destruct (FromContext_runs ctx w s) as (s' & Hrun & Henv).
    eexists _, s', _. split; [exact Hrun|]. split; [exact Henv|].
    cbn [contexts]. split; [by rewrite lookup_singleton_eq|].
    intros name Hne. by rewrite lookup_singleton_ne.
  - intros k p name. repeat split.
    + apply preserves_Context.
    + apply preserves_DefaultContext.
    + unfold TestContext_KubectlOptions.
      apply preserves_bind; [apply preserves_deref | apply preserves_env_KubectlOptions].
    + unfold TestContext_KubernetesClient.
      apply preserves_bind; [apply preserves_deref | apply preserves_env_KubernetesClient].
    + apply preserves_KubernetesContextFromOptions.
Qed.

(** C10.  An environment built from a single context holds exactly one
    entry, registered under "default"; asking it for "secondary" fails with
    "requested context secondary not found", also when multi-cluster mode
    is enabled in the global configuration. *)
Theorem FromContext_has_no_secondary (cfg : config.TestConfig) (ctx : ptr)
    (w w' : World) (s : Store) :
  config.EnableMultiCluster cfg = true ->
  exists l s' e,
    NewKubernetesEnvironmentFromContext ctx w s = Ok (Some l) s'
    /\ envHeap s' !! l = Some e
    /\ contexts e = {[ DefaultContextName := ctx ]}
    /\ size (contexts e) = 1
    /\ Context (Some l) SecondaryContextName w' s'
       = Failed (Truef_failed "requested context secondary not found") s'.
Proof.
  intros _. destruct (FromContext_runs ctx w s) as (s' & Hrun & Henv).
  eexists _, s', _. split; [exact Hrun|]. split; [exact Henv|].
  cbn [contexts]. split; [reflexivity|]. split; [apply map_size_singleton|].
  unfold Context, bind, deref. rewrite Henv. cbn [contexts].
  unfold SecondaryContextName, DefaultContextName.
  rewrite lookup_singleton_ne by done. reflexivity.
Qed.

Lemma FromContext_has_no_secondary_witness :
  config.EnableMultiCluster multi_cluster_config = true
  /\ exists l s' e,
       NewKubernetesEnvironmentFromContext (Some 1) world_teamA empty_store = Ok (Some l) s'
       /\ envHeap s' !! l = Some e
       /\ contexts e = {[ DefaultContextName := Some 1 ]}
       /\ size (contexts e) = 1
       /\ Context (Some l) SecondaryContextName world_teamA s'
          = Failed (Truef_failed "requested context secondary not found") s'.
Proof.
  split; [reflexivity|].
  apply (FromContext_has_no_secondary multi_cluster_config (Some 1)
           world_teamA world_teamA empty_store).
  reflexivity.
Defined.

(** *** Resolution of the context name and of the namespace *)

Lemma context_name_explicit (w : World) (s : Store) (l : loc) (o : k8s.KubectlOptions) :
  optionsHeap s !! l = Some o ->
  k8s.ContextName o <> "" ->
  KubernetesContextFromOptions (Some l) w s = Ok (k8s.ContextName o) s.
Proof.
  intros Ho Hne. unfold KubernetesContextFromOptions, bind, deref. rewrite Ho.
  by rewrite bool_decide_eq_true_2.
Qed.

Lemma context_name_current (w : World) (s : Store) (l : loc) (o : k8s.KubectlOptions)
    configPath rawConfig :
  optionsHeap s !! l = Some o ->
  k8s.ContextName o = "" ->
  GetConfigPath w o = Val configPath ->
  LoadRawConfig w configPath = Val rawConfig ->
  KubernetesContextFromOptions (Some l) w s = Ok (clientcmdapi.CurrentContext rawConfig) s.
Proof.
  intros Ho He Hp Hc. unfold KubernetesContextFromOptions, bind, deref. rewrite Ho.
  rewrite bool_decide_eq_false_2 by (by intros H; apply H).
  unfold require_NoError. by rewrite Hp, Hc.
Qed.

(** C5.  [KubernetesContextFromOptions] returns [options.ContextName] when
    it is not empty; otherwise it returns the current-context of the config
    file loaded from the path [GetConfigPath] gives for these options. *)
Theorem KubernetesContextFromOptions_spec (w : World) (s : Store) (l : loc)
    (o : k8s.KubectlOptions) :
  optionsHeap s !! l = Some o ->
  (k8s.ContextName o <> "" ->
     KubernetesContextFromOptions (Some l) w s = Ok (k8s.ContextName o) s)
  /\ (k8s.ContextName o = "" ->
      forall configPath rawConfig,
        GetConfigPath w o = Val configPath ->
        LoadRawConfig w configPath = Val rawConfig ->
        KubernetesContextFromOptions (Some l) w s
        = Ok (clientcmdapi.CurrentContext rawConfig) s).
Proof.
  intros Ho. split.
  - intros Hne. by apply context_name_explicit.
  - intros He configPath rawConfig Hp Hc. by eapply context_name_current.
Qed.

Lemma KubernetesContextFromOptions_spec_witness :
  KubernetesContextFromOptions (Some 1) world_teamA (store_with_options (options_naming "dc7"))
  = Ok "dc7" (store_with_options (options_naming "dc7"))
  /\ KubernetesContextFromOptions (Some 1) world_teamA (store_with_options (options_naming ""))
    = Ok "dc1" (store_with_options (options_naming "")).
Proof.
  split.
  - apply (KubernetesContextFromOptions_spec world_teamA
             (store_with_options (options_naming "dc7")) 1 (options_naming "dc7"));
      [reflexivity | discriminate].
  - apply (KubernetesContextFromOptions_spec world_teamA
             (store_with_options (options_naming "")) 1 (options_naming "") eq_refl)
      with (configPath := "/kube/primary")
           (rawConfig := one_context_file "dc1" "teamA");
      reflexivity.
Defined.

(** Where the config file records the active context.  For a context not
    yet resolved whose stored namespace is empty, [KubectlOptions] loads the
    config file at the path [GetConfigPath] gives for the stored path, takes
    the active context name, and reads the namespace that context records
    in the file: the options returned carry it when it is not empty, and
    "default" otherwise.  A stored namespace that is not empty is carried
    as it is. *)
Theorem KubectlOptions_namespace (w : World) (s : Store) (k : kubernetesContext) :
  options k = nil ->
  (namespace k = "" ->
     forall configPath rawConfig c,
       GetConfigPath w (initial_options k) = Val configPath ->
       LoadRawConfig w configPath = Val rawConfig ->
       clientcmdapi.Contexts rawConfig !! active_context k rawConfig = Some c ->
       exists s',
         KubectlOptions k w s = Ok (Some (next s)) s'
         /\ optionsHeap s' !! next s
            = Some {| k8s.ContextName := kubeContextName k;
                      k8s.ConfigPath := pathToKubeConfig k;
                      k8s.Namespace :=
                        if bool_decide (clientcmdapi.Namespace c <> "")
                        then clientcmdapi.Namespace c
                        else NamespaceDefault |})
  /\ (namespace k <> "" ->
      exists s',
        KubectlOptions k w s = Ok (Some (next s)) s'
        /\ optionsHeap s' !! next s
           = Some {| k8s.ContextName := kubeContextName k;
                     k8s.ConfigPath := pathToKubeConfig k;
                     k8s.Namespace := namespace k |}).
Proof.
  intros Hopt. unfold KubectlOptions. rewrite Hopt.
  rewrite bool_decide_eq_false_2 by (by intros H; apply H).
  split.
  - intros Hns configPath rawConfig c Hp Hc Hctx.
    unfold bind at 1. cbn [new_options namespace options].
    rewrite bool_decide_eq_true_2 by done.
    unfold bind at 1. unfold bind at 1. unfold deref at 1.
    cbn [optionsHeap]. rewrite lookup_insert_eq.
    fold (initial_options k).
    unfold bind at 1. unfold require_NoError at 1. rewrite Hp.
    unfold bind at 1. unfold require_NoError at 1. rewrite Hc.
    unfold bind at 1.
    match goal with |- context [KubernetesContextFromOptions ?p w ?st] =>
      assert (KubernetesContextFromOptions p w st = Ok (active_context k rawConfig) st) as ->
    end.
    { unfold active_context.
      match goal with |- KubernetesContextFromOptions _ _ ?st = _ =>
        assert (optionsHeap st !! next s = Some (initial_options k)) as Hheap
      end.
      { cbn [optionsHeap]. by rewrite lookup_insert_eq. }
      case_bool_decide as Hn.
      - by apply (context_name_explicit _ _ _ _ Hheap).
      - apply (context_name_current _ _ _ _ configPath rawConfig Hheap); [|done..].
        cbn [initial_options k8s.ContextName]. by destruct (decide (kubeContextName k = "")). }
    unfold bind at 1. unfold Contexts_Namespace at 1. rewrite Hctx. cbn [ret].
    case_bool_decide as Hn.
    + unfold bind at 1. unfold Contexts_Namespace at 1. rewrite Hctx. cbn [ret].
      unfold set_Namespace, bind, ret. cbn [optionsHeap]. rewrite lookup_insert_eq.
      eexists. split; [reflexivity|]. cbn [optionsHeap]. rewrite lookup_insert_eq.
      reflexivity.
    + unfold set_Namespace, bind, ret. cbn [optionsHeap]. rewrite lookup_insert_eq.
      eexists. split; [reflexivity|]. cbn [optionsHeap]. rewrite lookup_insert_eq.
      reflexivity.
  - intros Hns. unfold bind at 1. cbn [new_options namespace options].
    rewrite bool_decide_eq_false_2 by done.
    unfold bind, ret. eexists. split; [reflexivity|].
    cbn [optionsHeap]. by rewrite lookup_insert_eq.
Qed.

Lemma KubectlOptions_namespace_witness :
  (exists s',
      KubectlOptions (unresolved "/kube/primary" "" "") world_teamA empty_store = Ok (Some 1) s'
      /\ optionsHeap s' !! 1
         = Some {| k8s.ContextName := ""; k8s.ConfigPath := "/kube/primary";
                   k8s.Namespace := "teamA" |})
  /\ (exists s',
      KubectlOptions (unresolved "/kube/secondary" "secondary" "") world_no_namespace
        empty_store = Ok (Some 1) s'
      /\ optionsHeap s' !! 1
         = Some {| k8s.ContextName := "secondary"; k8s.ConfigPath := "/kube/secondary";
                   k8s.Namespace := "default" |})
  /\ (exists s',
      KubectlOptions (unresolved "/kube/primary" "dc1" "ns2") world_teamA empty_store
      = Ok (Some 1) s'
      /\ optionsHeap s' !! 1
         = Some {| k8s.ContextName := "dc1"; k8s.ConfigPath := "/kube/primary";
                   k8s.Namespace := "ns2" |}).
Proof.
  split; [|split].
  - apply (proj1 (KubectlOptions_namespace world_teamA empty_store
                    (unresolved "/kube/primary" "" "") eq_refl) eq_refl
             "/kube/primary" (one_context_file "dc1" "teamA")
             {| clientcmdapi.Namespace := "teamA" |});
      reflexivity.
  - apply (proj1 (KubectlOptions_namespace world_no_namespace empty_store
                    (unresolved "/kube/secondary" "secondary" "") eq_refl) eq_refl
             "/kube/secondary" (one_context_file "secondary" "")
             {| clientcmdapi.Namespace := "" |});
      reflexivity.
  - apply (proj2 (KubectlOptions_namespace world_teamA empty_store
                    (unresolved "/kube/primary" "dc1" "ns2") eq_refl)).
    discriminate.
Defined.

(** C4, at a failing input.  The config file at "/kube/primary" loads and
    records one context, "dc1".  A context not yet resolved, whose stored
    namespace is empty, names "dc2": the active context name is "dc2", the
    map of contexts has no entry for it, indexing gives nil and reading
    [.Namespace] through it panics, where the claim, and the comment above
    the branch, have the options carry "default".  Naming no context, with
    a file whose current-context is not among its contexts, ends the same
    way.  No options are returned in either case. *)
Theorem KubectlOptions_panics_on_missing_context :
  let k := unresolved "/kube/primary" "dc2" "" in
  let k' := unresolved "/kube/primary" "" "" in
  (namespace k = ""
   /\ GetConfigPath world_teamA (initial_options k) = Val "/kube/primary"
   /\ LoadRawConfig world_teamA "/kube/primary" = Val (one_context_file "dc1" "teamA")
   /\ active_context k (one_context_file "dc1" "teamA") = "dc2"
   /\ clientcmdapi.Contexts (one_context_file "dc1" "teamA") !! "dc2" = None
   /\ KubectlOptions k world_teamA empty_store
      = Panicked (with_options empty_store (initial_options k))
   /\ forall p s', KubectlOptions k world_teamA empty_store <> Ok p s')
  /\ (namespace k' = ""
      /\ LoadRawConfig world_dangling "/kube/primary" = Val dangling_file
      /\ active_context k' dangling_file = "dc2"
      /\ clientcmdapi.Contexts dangling_file !! "dc2" = None
      /\ KubectlOptions k' world_dangling empty_store
         = Panicked (with_options empty_store (initial_options k'))
      /\ forall p s', KubectlOptions k' world_dangling empty_store <> Ok p s').
Proof.
  assert (KubectlOptions (unresolved "/kube/primary" "dc2" "") world_teamA empty_store
          = Panicked (with_options empty_store
                        (initial_options (unresolved "/kube/primary" "dc2" "")))) as H1
    by (vm_compute; reflexivity).
  assert (KubectlOptions (unresolved "/kube/primary" "" "") world_dangling empty_store
          = Panicked (with_options empty_store
                        (initial_options (unresolved "/kube/primary" "" "")))) as H2
    by (vm_compute; reflexivity).
  cbv zeta. split.
  - split; [reflexivity|]. split; [reflexivity|]. split; [reflexivity|].
    split; [reflexivity|]. split; [reflexivity|]. split; [exact H1|].
    intros p s' H. rewrite H1 in H. discriminate H.
  - split; [reflexivity|]. split; [reflexivity|]. split; [reflexivity|].
    split; [reflexivity|]. split; [exact H2|].
    intros p s' H. rewrite H2 in H. discriminate H.
Qed.

(** *** The cache fields *)

(** No accessor writes to a context in the heap: the methods have value
    receivers, and what they assign is a field of their own copy. *)
Lemma accessors_leave_contexts (p : ptr) (w : World) (s : Store) :
  contextHeap (final_store (TestContext_KubectlOptions p w s)) = contextHeap s
  /\ contextHeap (final_store (TestContext_KubernetesClient p w s)) = contextHeap s.
Proof.
  split.
  - unfold TestContext_KubectlOptions.
    apply preserves_bind; [apply preserves_deref | apply preserves_ctx_KubectlOptions].
  - unfold TestContext_KubernetesClient.
    apply preserves_bind; [apply preserves_deref | apply preserves_ctx_KubernetesClient].
Qed.

(** C1, on a concrete run.  The default context of [multi_cluster_config]
    is asked twice for its options, the kubeconfig file recording "teamA"
    at the first call and "teamB" at the second: the two calls return two
    different objects, the second resolved anew and carrying "teamB", and
    the context in the heap still has a nil [options] field.  Likewise two
    calls of [KubernetesClient] return two different clients and leave the
    [client] field nil. *)
Theorem accessors_do_not_memoize :
  exists s2 s3 s4 s5,
    TestContext_KubectlOptions (Some 1) world_teamA store_after_setup = Ok (Some 4) s2
    /\ TestContext_KubectlOptions (Some 1) world_teamB s2 = Ok (Some 5) s3
    /\ k8s.Namespace <$> optionsHeap s3 !! 4 = Some "teamA"
    /\ k8s.Namespace <$> optionsHeap s3 !! 5 = Some "teamB"
    /\ options <$> contextHeap s3 !! 1 = Some nil
    /\ TestContext_KubernetesClient (Some 1) world_teamA s3 = Ok (Some 7) s4
    /\ TestContext_KubernetesClient (Some 1) world_teamA s4 = Ok (Some 9) s5
    /\ client <$> contextHeap s5 !! 1 = Some nil.
Proof.
  eexists _, _, _, _.
  split; [vm_compute; reflexivity|].
  split; [vm_compute; reflexivity|].
  split; [vm_compute; reflexivity|].
  split; [vm_compute; reflexivity|].
  split; [vm_compute; reflexivity|].
  split; [vm_compute; reflexivity|].
  split; [vm_compute; reflexivity|].
  vm_compute; reflexivity.
Qed.

End EnvironmentSpec.

(** ** Properties of the connect-inject tests *)

Module ConnectSpec.
Import Connect.

(** *** Monitors *)

Section Scan.
Context {S : Type} (step : S -> Event -> option S).

Lemma scan_app st tr1 tr2 :
  scan step st (tr1 ++ tr2)
  = match scan step st tr1 with
    | Some st' => scan step st' tr2
    | None => None
    end.
Proof.
  revert st. induction tr1 as [|e tr1 IH]; intros st; [done|].
  simpl. destruct (step st e); [apply IH | done].
Qed.

(** An accepted trace, cut before any of its events: the monitor has a
    state there, and it accepts the event. *)
Lemma scan_split st pre e post :
  is_Some (scan step st (pre ++ e :: post)) ->
  exists st1, scan step st pre = Some st1 /\ is_Some (step st1 e).
Proof.
  rewrite scan_app. destruct (scan step st pre) as [st1|]; [|by intros [? ?]].
  simpl. intros H. exists st1. split; [done|].
  destruct (step st1 e); [by eexists | by destruct H].
Qed.

(** A relation between monitor state and the trace read so far that holds
    at the start and is kept by every step holds throughout. *)
Lemma scan_invariant (Inv : S -> list Event -> Prop) st0 :
  Inv st0 [] ->
  (forall st pre e st', Inv st pre -> step st e = Some st' -> Inv st' (pre ++ [e])) ->
  forall pre st', scan step st0 pre = Some st' -> Inv st' pre.
Proof.
  intros H0 Hstep pre. induction pre as [|e pre IH] using rev_ind; intros st'.
  - simpl. by intros [= <-].
  - rewrite scan_app. destruct (scan step st0 pre) as [st1|] eqn:H1; [|done].
    simpl. destruct (step st1 e) as [st2|] eqn:H2; [|done].
    intros [= <-]. eapply Hstep; [by apply IH | done].
Qed.

End Scan.

(** Classes of events exclude one another. *)
Ltac by_cases_on_event e :=
  let X := fresh "X" in let c := fresh "c" in let r := fresh "r" in
  destruct e as [X c r]; destruct c; try done.

Lemma verification_is_no_deploy e : is_verification e = true -> is_deploy_call e = false.
Proof. by_cases_on_event e. Qed.

Lemma lookup_is_no_deletion e : is_lookup e = true -> deletion e = None.
Proof. by_cases_on_event e. Qed.

Lemma confirms_is_lookup name e : confirms name e = true -> is_lookup e = true.
Proof. by_cases_on_event e. Qed.

Lemma listed_is_no_deletion e pods : listed e = Some pods -> deletion e = None.
Proof. by_cases_on_event e. Qed.

Lemma deploy_inv_step ok pre e ok' :
  deploy_inv ok pre -> deploy_step ok e = Some ok' -> deploy_inv ok' (pre ++ [e]).
Proof.
  unfold deploy_step. intros Hinv Hstep Hok'.
  destruct (is_deploy_call e) eqn:Hd.
  - injection Hstep as <-. exists pre, e, []. by rewrite Forall_nil.
  - assert (ok = ok') as ->.
    { destruct (is_verification e); [destruct ok|]; congruence. }
    destruct (Hinv Hok') as (p1 & d & p2 & -> & Hsucc & Hno).
    exists p1, d, (p2 ++ [e]). split; [by rewrite <- app_assoc|]. split; [done|].
    apply Forall_app. split; [done|]. by apply Forall_singleton.
Qed.

Lemma deploy_sound tr :
  is_Some (scan deploy_step false tr) -> verified_only_after_deploy tr.
Proof.
  intros Hacc pre e post -> Hver.
  destruct (scan_split _ _ _ _ _ Hacc) as (ok & Hpre & Hstep).
  assert (deploy_inv ok pre) as Hinv.
  { eapply (scan_invariant deploy_step deploy_inv false); [done | | done].
    intros. by eapply deploy_inv_step. }
  apply Hinv. unfold deploy_step in Hstep.
  rewrite (verification_is_no_deploy _ Hver), Hver in Hstep.
  destruct ok; [done | by destruct Hstep].
Qed.

Lemma delete_inv_step st pre e st' :
  delete_inv st pre -> delete_step st e = Some st' -> delete_inv st' (pre ++ [e]).
Proof.
  unfold delete_step. intros Hinv Hstep.
  destruct (is_lookup e) eqn:Hl.
  - injection Hstep as <-.
    destruct (confirms "static-client" e) eqn:H1; [by exists pre, e|].
    destruct st; try done.
    destruct (confirms "static-client-sidecar-proxy" e) eqn:H2; [|done].
    destruct Hinv as (a & e1 & -> & He1).
    exists a, e1, e, []. rewrite <- app_assoc. by rewrite Forall_nil.
  - assert (st = Confirmed /\ st' = Confirmed \/ st' = Unconfirmed) as [[-> ->] | ->].
    { destruct (deletion e), st; simplify_eq; auto. }
    + destruct Hinv as (a & e1 & e2 & b & -> & He1 & He2 & Hb).
      exists a, e1, e2, (b ++ [e]). rewrite <- app_assoc. repeat split; try done.
      apply Forall_app. split; [done|]. by apply Forall_singleton.
    + done.
Qed.

Lemma delete_sound tr :
  is_Some (scan delete_step Unconfirmed tr) -> deleted_only_after_registration tr.
Proof.
  intros Hacc pre e post -> [d Hdel].
  destruct (scan_split _ _ _ _ _ Hacc) as (st & Hpre & Hstep).
  assert (delete_inv st pre) as Hinv.
  { eapply (scan_invariant delete_step delete_inv Unconfirmed); [done | | done].
    intros. by eapply delete_inv_step. }
  unfold delete_step in Hstep.
  destruct (is_lookup e) eqn:Hl.
  { rewrite (lookup_is_no_deletion _ Hl) in Hdel. done. }
  rewrite Hdel in Hstep. destruct st; [by destruct Hstep.. | exact Hinv].
Qed.

Lemma pods_inv_step st pre e st' :
  pods_inv st pre -> pods_step st e = Some st' -> pods_inv st' (pre ++ [e]).
Proof.
  unfold pods_step. intros Hinv Hstep.
  destruct (listed e) as [pods|] eqn:Hl.
  - injection Hstep as <-. exists pre, e, []. by rewrite Forall_nil.
  - assert (st' = st) as ->.
    { destruct (deletion e) as [[[? ?] ?]|]; [|congruence].
      destruct st as [[|? [|? ?]]|]; try done. case_bool_decide; congruence. }
    destruct st as [pods|]; [|done].
    destruct Hinv as (p1 & l & p2 & -> & Hlist & Hno).
    exists p1, l, (p2 ++ [e]). rewrite <- app_assoc. repeat split; try done.
    apply Forall_app. split; [done|]. by apply Forall_singleton.
Qed.

Lemma pods_sound tr :
  is_Some (scan pods_step None tr) -> deletes_the_listed_pod tr.
Proof.
  intros Hacc pre e post ns name gp -> Hdel.
  destruct (scan_split _ _ _ _ _ Hacc) as (st & Hpre & Hstep).
  assert (pods_inv st pre) as Hinv.
  { eapply (scan_invariant pods_step pods_inv None); [done | | done].
    intros. by eapply pods_inv_step. }
  unfold pods_step in Hstep.
  destruct (listed e) as [pods|] eqn:Hl.
  { by rewrite (listed_is_no_deletion _ _ Hl) in Hdel. }
  rewrite Hdel in Hstep.
  destruct st as [[|pod [|? ?]]|]; try (by destruct Hstep).
  case_bool_decide as Hok; [|by destruct Hstep].
  destruct Hok as [-> ->]. split; [done|].
  destruct Hinv as (p1 & l & p2 & -> & Hlist & Hno). by exists p1, l, p2, pod.
Qed.

Lemma overrides_sound expected tr :
  is_Some (scan (overrides_step expected) tt tr) ->
  forall e helmValues,
    e ∈ tr -> generator_overrides e = Some helmValues -> helmValues = expected.
Proof.
  induction tr as [|e0 tr IH]; intros Hacc e hv Hin Hgen.
  - by apply elem_of_nil in Hin.
  - simpl in Hacc. unfold overrides_step in Hacc at 1.
    apply elem_of_cons in Hin as [-> | Hin].
    + rewrite Hgen in Hacc. case_bool_decide; [done | by destruct Hacc].
    + destruct (generator_overrides e0).
      * case_bool_decide; [|by destruct Hacc]. by eapply IH.
      * by eapply IH.
Qed.


(** *** Rules for [triple] *)

Section Triple.
Context {S : Type} (step : S -> Event -> option S).

Lemma triple_ret {A} st (a : A) (Q : A -> S -> Prop) :
  Q a st -> triple step st (ret a) Q.
Proof. intros HQ o i. exists st. split; [done|]. by intros a' [= <-]. Qed.

Lemma triple_fail {A} st f (Q : A -> S -> Prop) : triple step st (fail_test f) Q.
Proof. intros o i. exists st. by split. Qed.

Lemma triple_stopped {A} st (Q : A -> S -> Prop) :
  triple step st (fun _ _ => ([], Stopped)) Q.
Proof. intros o i. exists st. by split. Qed.

Lemma triple_bind {A B} st (m : T A) (k : A -> T B) (Q : B -> S -> Prop) :
  triple step st m (fun a st' => triple step st' (k a) Q) ->
  triple step st (bind m k) Q.
Proof.
  intros Hm o i. destruct (Hm o i) as (st1 & Hscan & Hk). unfold bind.
  destruct (m o i) as [tr [a | f |]]; simpl in *.
  - destruct (Hk a eq_refl o (i + length tr)) as (st2 & Hscan2 & HQ).
    destruct (k a o (i + length tr)) as [tr' r]; simpl in *.
    exists st2. by rewrite scan_app, Hscan.
  - exists st1. by split.
  - exists st1. by split.
Qed.

Lemma triple_call {X} st (c : Call X) (Q : X -> S -> Prop) :
  (forall r, exists st', step st (Ev c r) = Some st'
                         /\ forall x, r = Returns x -> Q x st') ->
  triple step st (call c) Q.
Proof.
  intros H o i. unfold call. destruct (H (o i X c)) as (st' & Hstep & HQ).
  exists st'. destruct (o i X c) as [x|]; simpl; rewrite Hstep.
  - split; [done|]. intros a [= <-]. by apply HQ.
  - by split.
Qed.

Lemma triple_weaken {A} st (m : T A) (Q Q' : A -> S -> Prop) :
  triple step st m Q -> (forall a st', Q a st' -> Q' a st') -> triple step st m Q'.
Proof.
  intros H HQ o i. destruct (H o i) as (st' & Hscan & Ha).
  exists st'. split; [done|]. intros a Hr. by apply HQ, Ha.
Qed.

Lemma triple_accepts {A} st (m : T A) (Q : A -> S -> Prop) o i :
  triple step st m Q -> is_Some (scan step st (m o i).1).
Proof. intros H. destruct (H o i) as (st' & -> & _). by eexists. Qed.

(** The poller: [I] holds between attempts, [D] once an attempt passes. *)
Lemma triple_run (I D : S -> Prop) (f : RT unit) :
  (forall st, I st ->
     triple step st (f fresh)
       (fun att st' => if fail (final_R att) then I st' else D st')) ->
  forall n last st, I st -> triple step st (run n f last) (fun _ st' => D st').
Proof.
  intros Hf n. induction n as [|n IH]; intros last st HI; simpl.
  - apply triple_fail.
  - apply triple_bind. eapply triple_weaken; [by apply Hf|].
    intros att st' Hatt. simpl in Hatt.
    destruct (fail (final_R att)); [by apply IH | by apply triple_ret].
Qed.

End Triple.

(** *** One attempt of each check, written out *)

Lemma record_failures_app r msgs1 msgs2 :
  record_failures (record_failures r msgs1) msgs2 = record_failures r (msgs1 ++ msgs2).
Proof.
  destruct msgs1 as [|m msgs1]; [done|]. destruct msgs2 as [|m' msgs2].
  - by rewrite app_nil_r.
  - simpl. by rewrite <- app_assoc.
Qed.

Lemma instances_loop (instances : list CatalogService) podName r o i :
  for_range instances
    (fun instance =>
       if Contains (ServiceID instance) podName
       then r_Errorf (ServiceID instance +:+ " is still registered")
       else ret_r tt) r o i
  = ([], Returned (Goes_on tt (record_failures r (still_registered instances podName)))).
Proof.
  revert r i. induction instances as [|x xs IH]; intros r i; [done|].
  unfold still_registered. simpl for_range. unfold bind_r, bind.
  rewrite filter_cons. destruct (Contains (ServiceID x) podName) eqn:Hc.
  - rewrite decide_True by done. unfold r_Errorf, ret at 1. rewrite IH.
    rewrite fmap_cons.
    change (?a :: ?b) with ([a] ++ b) at 2. by rewrite <- record_failures_app.
  - rewrite decide_False by (by intros ?). unfold ret_r, ret at 1. by rewrite IH.
Qed.

(** Equations of the two monads. *)
Lemma bind_assoc {A B C} (m : T A) (k : A -> T B) (k' : B -> T C) o i :
  bind (bind m k) k' o i = bind m (fun a => bind (k a) k') o i.
Proof.
  unfold bind. destruct (m o i) as [tr [a | f |]]; try done.
  destruct (k a o (i + length tr)) as [tr' [b | f |]]; try done.
  rewrite length_app, Nat.add_assoc.
  destruct (k' b o (i + length tr + length tr')) as [tr'' r]. by rewrite app_assoc.
Qed.

Lemma bind_pure {A B} (m : T A) (k : A -> T B) a o i :
  m o i = ([], Returned a) -> bind m k o i = k a o i.
Proof.
  intros Hm. unfold bind. rewrite Hm. simpl. rewrite Nat.add_0_r.
  by destruct (k a o i).
Qed.

Lemma bind_call {X B} (c : Call X) (k : X -> T B) o i :
  bind (call c) k o i
  = match o i X c with
    | Returns x => let '(tr, st) := k x o (i + 1) in (Ev c (Returns x) :: tr, st)
    | Stops => ([Ev c Stops], Stopped)
    end.
Proof. unfold bind, call. by destruct (o i X c). Qed.

Lemma bind_call_returns {X B} (c : Call X) (k : X -> T B) o i x :
  o i X c = Returns x ->
  bind (call c) k o i = (Ev c (Returns x) :: (k x o (i + 1)).1, (k x o (i + 1)).2).
Proof. intros H. rewrite bind_call, H. by destruct (k x o (i + 1)). Qed.

Lemma bind_returned {A B} (m : T A) (k : A -> T B) o i a :
  (m o i).2 = Returned a ->
  bind m k o i
  = ((m o i).1 ++ (k a o (i + length (m o i).1)).1, (k a o (i + length (m o i).1)).2).
Proof.
  unfold bind. destruct (m o i) as [tr st]. simpl. intros ->.
  by destruct (k a o (i + length tr)).
Qed.

Lemma bind_not_returned {A} (m : T A) (k : A -> T A) o i :
  (forall a, (m o i).2 <> Returned a) -> bind m k o i = m o i.
Proof.
  unfold bind. destruct (m o i) as [tr [a | f |]]; simpl; intros H; [|done..].
  by destruct (H a).
Qed.

Lemma bind_r_assoc {A B C} (m : RT A) (k : A -> RT B) (k' : B -> RT C) r o i :
  bind_r (bind_r m k) k' r o i = bind_r m (fun a => bind_r (k a) k') r o i.
Proof.
  unfold bind_r. rewrite bind_assoc. unfold bind.
  by destruct (m r o i) as [tr [[a r' | r'] | f |]].
Qed.

Lemma bind_r_pure {A B} (m : RT A) (k : A -> RT B) a r r' o i :
  m r o i = ([], Returned (Goes_on a r')) -> bind_r m k r o i = k a r' o i.
Proof. intros Hm. unfold bind_r. by rewrite (bind_pure _ _ _ _ _ Hm). Qed.

Lemma bind_r_lift_call {X B} (c : Call X) (k : X -> RT B) r o i :
  bind_r (lift (call c)) k r o i
  = match o i X c with
    | Returns x => let '(tr, st) := k x r o (i + 1) in (Ev c (Returns x) :: tr, st)
    | Stops => ([Ev c Stops], Stopped)
    end.
Proof.
  unfold bind_r, lift. rewrite bind_assoc, bind_call.
  destruct (o i X c) as [x|]; [|done].
  by rewrite (bind_pure _ _ (Goes_on x r)).
Qed.

Lemma bind_r_Check {B} (err : option error) (k : unit -> RT B) r o i :
  bind_r (r_Check err) k r o i
  = match err with
    | None => k tt r o i
    | Some e => ([], Returned (Ended {| fail := true; output := output r ++ [e] |}))
    end.
Proof.
  destruct err as [e|].
  - reflexivity.
  - by apply bind_r_pure.
Qed.

(** Both checks are instances of one scheme. *)
Lemma check_attempt (judge : string -> list CatalogService -> list string)
    (body : string -> list CatalogService -> RT unit) consulClient r o i :
  (forall name l r o i,
     body name l r o i = ([], Returned (Goes_on tt (record_failures r (judge name l))))) ->
  for_range static_client_services (fun name =>
    bind_r (lift (call (Catalog_Service consulClient name ""))) (fun '(instances, err) =>
    bind_r (r_Check err) (fun _ => body name instances))) r o i
  = attempt_of judge consulClient r o i.
Proof.
  intros Hbody. unfold attempt_of, static_client_services. simpl for_range.
  rewrite bind_r_assoc, bind_r_lift_call.
  destruct (o i _ _) as [[l1 [e|]]|]; [| |done].
  { rewrite bind_r_assoc, bind_r_Check. done. }
  rewrite bind_r_assoc, bind_r_Check.
  rewrite (bind_r_pure _ _ tt _ _ _ _ (Hbody _ _ _ _ _)).
  rewrite bind_r_assoc, bind_r_lift_call.
  destruct (o (i + 1) _ _) as [[l2 [e|]]|]; [| |done].
  { rewrite bind_r_assoc, bind_r_Check. done. }
  rewrite bind_r_assoc, bind_r_Check.
  rewrite (bind_r_pure _ _ tt _ _ _ _ (Hbody _ _ _ _ _)). done.
Qed.

Lemma registered_check_attempt consulClient r o i :
  registered_check consulClient r o i = attempt_of not_exactly_one consulClient r o i.
Proof.
  unfold registered_check.
  apply (check_attempt not_exactly_one
           (fun name instances =>
              if decide (length instances ≠ 1)
              then r_Errorf ("expected 1 instance of " +:+ name)
              else ret_r tt)).
  intros name l r' o' i'. unfold not_exactly_one. by destruct (decide (length l ≠ 1)).
Qed.

Lemma deregistered_check_attempt consulClient podName r o i :
  deregistered_check consulClient podName r o i
  = attempt_of (fun _ instances => still_registered instances podName) consulClient r o i.
Proof.
  unfold deregistered_check.
  apply (check_attempt (fun _ instances => still_registered instances podName)
           (fun _ instances =>
              for_range instances (fun instance =>
                if Contains (ServiceID instance) podName
                then r_Errorf (ServiceID instance +:+ " is still registered")
                else ret_r tt))).
  intros _ l r' o' i'. apply instances_loop.
Qed.


(** *** The checks only look the registry up *)

Lemma attempt_only_looks_up judge consulClient r o i :
  Forall (fun e => is_lookup e = true) (attempt_of judge consulClient r o i).1.
Proof.
  unfold attempt_of. destruct (o i _ _) as [[l1 [e|]]|]; simpl;
    [by repeat constructor | | by repeat constructor].
  destruct (o (i + 1) _ _) as [[l2 [e|]]|]; simpl; by repeat constructor.
Qed.

Lemma run_only_looks_up (f : RT unit) :
  (forall r o i, Forall (fun e => is_lookup e = true) (f r o i).1) ->
  forall n last o i, Forall (fun e => is_lookup e = true) (run n f last o i).1.
Proof.
  intros Hf n. induction n as [|n IH]; intros last o i; simpl; [done|].
  unfold bind. specialize (Hf {| fail := false; output := [] |} o i).
  destruct (f _ o i) as [tr [att | fl |]]; simpl in *; try done.
  destruct (fail (final_R att)).
  - specialize (IH (output (final_R att)) o (i + length tr)).
    destruct (run n f _ o _) as [tr' st]. simpl in *. by apply Forall_app.
  - simpl. by rewrite app_nil_r.
Qed.

(** A monitor that lets lookups through, keeping [I], lets through whatever
    only looks the registry up. *)
Lemma triple_of_lookups {S A} (step : S -> Event -> option S) (I : S -> Prop) (m : T A) :
  (forall st e, I st -> is_lookup e = true -> exists st', step st e = Some st' /\ I st') ->
  (forall o i, Forall (fun e => is_lookup e = true) (m o i).1) ->
  forall st, I st -> triple step st m (fun _ st' => I st').
Proof.
  intros Hstep Hm st HI o i. specialize (Hm o i).
  assert (exists st', scan step st (m o i).1 = Some st' /\ I st') as (st' & ? & ?).
  { revert st HI. induction Hm as [|e tr He _ IH]; intros st HI; [by exists st|].
    destruct (Hstep st e HI He) as (st1 & Hs & HI1). simpl. rewrite Hs. by apply IH. }
  by exists st'.
Qed.

Lemma triple_registration_poll {S} (step : S -> Event -> option S) (I : S -> Prop)
    n consulClient :
  (forall st e, I st -> is_lookup e = true -> exists st', step st e = Some st' /\ I st') ->
  forall st, I st ->
    triple step st (retry_Run n (registered_check consulClient)) (fun _ st' => I st').
Proof.
  intros Hstep. apply triple_of_lookups; [done|]. intros o i.
  apply run_only_looks_up. intros r o' i'.
  rewrite registered_check_attempt. apply attempt_only_looks_up.
Qed.

Lemma triple_deregistration_poll {S} (step : S -> Event -> option S) (I : S -> Prop)
    n consulClient podName :
  (forall st e, I st -> is_lookup e = true -> exists st', step st e = Some st' /\ I st') ->
  forall st, I st ->
    triple step st (retry_Run n (deregistered_check consulClient podName))
      (fun _ st' => I st').
Proof.
  intros Hstep. apply triple_of_lookups; [done|]. intros o i.
  apply run_only_looks_up. intros r o' i'.
  rewrite deregistered_check_attempt. apply attempt_only_looks_up.
Qed.

(** What each monitor does with a lookup. *)
Lemma deploy_step_lookup st e :
  st = true -> is_lookup e = true -> exists st', deploy_step st e = Some st' /\ st' = true.
Proof. intros -> He. exists true. split; [|done]. by by_cases_on_event e. Qed.

Lemma delete_step_lookup st e :
  True -> is_lookup e = true -> exists st', delete_step st e = Some st' /\ True.
Proof. intros _ He. unfold delete_step. rewrite He. by eexists. Qed.

Lemma pods_step_lookup st0 st e :
  st = st0 -> is_lookup e = true -> exists st', pods_step st e = Some st' /\ st' = st0.
Proof. intros -> He. exists st0. split; [|done]. by by_cases_on_event e. Qed.

Lemma overrides_step_lookup expected st e :
  True -> is_lookup e = true -> exists st', overrides_step expected st e = Some st' /\ True.
Proof. intros _ He. exists tt. split; [|done]. by by_cases_on_event e. Qed.

(** The registration poll, once it returns, has confirmed both services. *)
Ltac settle_attempt :=
  eexists; split; [simpl; reflexivity|];
  let a := fresh "a" in let H := fresh "H" in
  intros a H; simpl in H; simplify_eq; simpl; try done.

Lemma registration_attempt_confirms consulClient st :
  triple delete_step st (registered_check consulClient fresh)
    (fun att st' => if fail (final_R att) then True else st' = Confirmed).
Proof.
  intros o i. rewrite registered_check_attempt. unfold attempt_of.
  destruct (o i _ _) as [[l1 [e|]]|]; [settle_attempt | | settle_attempt].
  destruct (o (i + 1) _ _) as [[l2 [e|]]|]; [settle_attempt | | settle_attempt].
  unfold not_exactly_one.
  destruct (decide (length l1 ≠ 1)) as [Hl1 | Hl1]; [by settle_attempt; case_decide|].
  destruct (decide (length l2 ≠ 1)) as [Hl2 | Hl2]; [by settle_attempt|].
  apply dec_stable in Hl1, Hl2.
  exists Confirmed. split; [|by intros a [= <-]].
  simpl. unfold delete_step. simpl.
  by rewrite !bool_decide_eq_true_2.
Qed.

Lemma registration_poll_confirms n consulClient st :
  triple delete_step st (retry_Run n (registered_check consulClient))
    (fun _ st' => st' = Confirmed).
Proof.
  unfold retry_Run.
  apply (triple_run delete_step (fun _ => True) (fun st' => st' = Confirmed)); [|done].
  intros st' _. apply registration_attempt_confirms.
Qed.

(** *** Walking through a test body *)

Lemma triple_require_NoError {S} (step : S -> Event -> option S) st err
    (Q : unit -> S -> Prop) :
  (err = None -> Q tt st) -> triple step st (require_NoError err) Q.
Proof.
  intros HQ. destruct err; [apply triple_fail | by apply triple_ret, HQ].
Qed.

Lemma triple_require_Len {S A} (step : S -> Event -> option S) st (object : list A) len
    (Q : unit -> S -> Prop) :
  (length object = len -> Q tt st) -> triple step st (require_Len object len) Q.
Proof.
  intros HQ. unfold require_Len. case_decide; [by apply triple_ret, HQ | apply triple_fail].
Qed.

Ltac accept_event :=
  first [ reflexivity
        | unfold overrides_step; simpl generator_overrides;
          rewrite bool_decide_eq_true_2 by done; reflexivity
        | unfold pods_step; cbn;
          rewrite bool_decide_eq_true_2 by done; reflexivity ].

Ltac triple_call_step :=
  apply triple_call;
  let r := fresh "r" in
  let x := fresh "x" in
  intros r; destruct r as [x|];
  [ try (lazymatch type of x with
         | (_ * option _)%type => destruct x as [? [?|]]
         end);
    (eexists; split; [accept_event | intros ? [= <-]])
  | eexists; split; [accept_event | intros ? [=]] ].

(** [poll] deals with a call of [retry.Run]. *)
Ltac triple_walk_with poll :=
  repeat first
    [ apply triple_ret
    | apply triple_fail
    | apply triple_stopped
    | poll
    | apply triple_bind
    | apply triple_require_NoError; intros ->
    | apply triple_require_Len; intros ?
    | match goal with
      | H : length (_ :: ?l) = 1 |- _ => destruct l; [clear H | discriminate H]
      end
    | triple_call_step
    | match goal with
      | |- triple _ _ (if ?b then _ else _) _ => destruct b
      | |- triple _ _ (match ?x with _ => _ end) _ => destruct x
      | |- triple _ _ (let '(_, _) := ?x in _) _ => destruct x
      end ];
  try done.

Ltac triple_walk := triple_walk_with fail.

Ltac poll_keeping lookup_lemma I :=
  idtac;
  match goal with
  | |- triple ?step _ (retry_Run _ (registered_check _)) _ =>
      eapply triple_weaken;
      [ apply (triple_registration_poll step I); [apply lookup_lemma | done]
      | cbv beta; intros ? ? ? ]
  | |- triple ?step _ (retry_Run _ (deregistered_check _ _)) _ =>
      eapply triple_weaken;
      [ apply (triple_deregistration_poll step I); [apply lookup_lemma | done]
      | cbv beta; intros ? ? ? ]
  end.

Ltac poll_confirming :=
  idtac;
  match goal with
  | |- triple delete_step _ (retry_Run _ (registered_check _)) _ =>
      eapply triple_weaken;
      [ apply registration_poll_confirms | cbv beta; intros ? ? -> ]
  | |- triple delete_step _ (retry_Run _ (deregistered_check _ _)) _ =>
      eapply triple_weaken;
      [ apply (triple_deregistration_poll delete_step (fun _ => True));
        [apply delete_step_lookup | done]
      | cbv beta; intros ? ? _ ]
  end.

(** *** The tests under each monitor *)

Lemma TestConnectInject_deploy c :
  triple deploy_step false (TestConnectInject c) (fun _ _ => True).
Proof. unfold TestConnectInject. triple_walk. Qed.

Lemma TestConnectInjectOnUpgrade_deploy c :
  triple deploy_step false (TestConnectInjectOnUpgrade c) (fun _ _ => True).
Proof. unfold TestConnectInjectOnUpgrade. triple_walk. Qed.

Lemma CleanupKilledPods_deploy attempts c_secure c_autoEncrypt :
  triple deploy_step false
    (TestConnectInject_CleanupKilledPods attempts c_secure c_autoEncrypt)
    (fun _ _ => True).
Proof.
  unfold TestConnectInject_CleanupKilledPods, Items_0.
  triple_walk_with ltac:(poll_keeping deploy_step_lookup (fun st : bool => st = true); subst).
Qed.

Lemma RestartConsulClients_deploy :
  triple deploy_step false TestConnectInject_RestartConsulClients (fun _ _ => True).
Proof. unfold TestConnectInject_RestartConsulClients, check_connection. triple_walk. Qed.

Lemma CleanupKilledPods_delete attempts c_secure c_autoEncrypt :
  triple delete_step Unconfirmed
    (TestConnectInject_CleanupKilledPods attempts c_secure c_autoEncrypt)
    (fun _ _ => True).
Proof.
  unfold TestConnectInject_CleanupKilledPods, Items_0.
  triple_walk_with poll_confirming.
Qed.

Lemma CleanupKilledPods_pods attempts c_secure c_autoEncrypt :
  triple pods_step None
    (TestConnectInject_CleanupKilledPods attempts c_secure c_autoEncrypt)
    (fun _ _ => True).
Proof.
  unfold TestConnectInject_CleanupKilledPods, Items_0.
  triple_walk_with ltac:(
    first [ poll_keeping (pods_step_lookup None) (fun st : option (list Pod) => st = None)
          | match goal with
            | |- triple pods_step (Some ?p) _ _ =>
                poll_keeping (pods_step_lookup (Some p))
                             (fun st : option (list Pod) => st = Some p)
            end ]; subst).
Qed.

Lemma CleanupKilledPods_overrides attempts c_secure c_autoEncrypt :
  triple (overrides_step (cleanup_helmValues c_secure c_autoEncrypt)) tt
    (TestConnectInject_CleanupKilledPods attempts c_secure c_autoEncrypt)
    (fun _ _ => True).
Proof.
  unfold TestConnectInject_CleanupKilledPods, Items_0.
  triple_walk_with ltac:(
    poll_keeping (overrides_step_lookup (cleanup_helmValues c_secure c_autoEncrypt))
                 (fun _ : unit => True)).
Qed.


(** *** The poller, attempt by attempt *)

Lemma run_goes_on (f : RT unit) n last tr att o i :
  f fresh o i = (tr, Returned att) ->
  fail (final_R att) = true ->
  run (S n) f last o i
  = (tr ++ (run n f (output (final_R att)) o (i + length tr)).1,
     (run n f (output (final_R att)) o (i + length tr)).2).
Proof.
  intros Hf Hfail. simpl. unfold bind. fold fresh. rewrite Hf, Hfail.
  by destruct (run n f _ o _).
Qed.

Lemma run_fails_iff (f : RT unit) :
  (forall r o i fl, (f r o i).2 <> TestFailed fl) ->
  forall n last o i fl,
    (run n f last o i).2 = TestFailed fl
    <-> all_attempts_fail n f o i
        /\ fl = retry_exhausted (last_failure_set n f last o i).
Proof.
  intros Hnever n. induction n as [|n IH]; intros last o i fl.
  - simpl. split; [by intros [= <-] | by intros [_ ->]].
  - simpl. unfold bind. fold fresh.
    pose proof (Hnever fresh o i) as Hf.
    destruct (f fresh o i) as [tr [att | fl' |]]; simpl in *.
    + destruct (fail (final_R att)) eqn:Hfail.
      * specialize (IH (output (final_R att)) o (i + length tr) fl).
        destruct (run n f _ o _) as [tr' st]. simpl in *. rewrite IH. split.
        -- intros [Hall ->]. split; [by exists tr, att | done].
        -- intros [(tr0 & att0 & [= <- <-] & _ & Hall) ->]. done.
      * simpl. split; [done|].
        intros [(tr0 & att0 & [= <- <-] & Hfail' & _) _]. congruence.
    + by destruct (Hf fl').
    + split; [done|]. by intros [(tr0 & att0 & ? & _) _].
Qed.

Lemma run_returns_iff (f : RT unit) n last o i :
  (run n f last o i).2 = Returned tt <-> some_attempt_passes n f o i.
Proof.
  revert last i. induction n as [|n IH]; intros last i.
  - simpl. split; [done | by intros []].
  - simpl. unfold bind. fold fresh.
    destruct (f fresh o i) as [tr [att | fl' |]]; simpl.
    + destruct (fail (final_R att)) eqn:Hfail.
      * specialize (IH (output (final_R att)) (i + length tr)).
        destruct (run n f _ o _) as [tr' st]. simpl in *. rewrite IH. split.
        -- intros Hsome. exists tr, att. split; [done|]. by right.
        -- intros (tr0 & att0 & [= <- <-] & [Hno | [_ Hsome]]); [congruence | done].
      * simpl. split; [|done]. intros _. exists tr, att. split; [done|]. by left.
    + split; [done|]. by intros (tr0 & att0 & ? & _).
    + split; [done|]. by intros (tr0 & att0 & ? & _).
Qed.

Lemma attempt_never_fails_the_test judge consulClient r o i fl :
  (attempt_of judge consulClient r o i).2 <> TestFailed fl.
Proof.
  unfold attempt_of. destruct (o i _ _) as [[l1 [e|]]|]; try done.
  by destruct (o (i + 1) _ _) as [[l2 [e|]]|].
Qed.

Lemma attempt_with_failed_lookup judge consulClient r o i :
  Exists (fun e => lookup_failed e = true) (attempt_of judge consulClient r o i).1 ->
  exists att,
    (attempt_of judge consulClient r o i).2 = Returned att /\ fail (final_R att) = true.
Proof.
  unfold attempt_of. destruct (o i _ _) as [[l1 [e|]]|]; simpl.
  - intros _. by eexists.
  - destruct (o (i + 1) _ _) as [[l2 [e|]]|]; simpl.
    + intros _. by eexists.
    + intros H. repeat (apply Exists_cons in H as [H|H]; [done|]).
      by apply Exists_nil in H.
    + intros H. repeat (apply Exists_cons in H as [H|H]; [done|]).
      by apply Exists_nil in H.
  - intros H. repeat (apply Exists_cons in H as [H|H]; [done|]).
    by apply Exists_nil in H.
Qed.

Lemma retryable_of_attempt (f : RT unit) judge consulClient :
  (forall r o i, f r o i = attempt_of judge consulClient r o i) ->
  lookup_errors_are_retryable f.
Proof.
  intros Hf o i.
  assert (forall r o i fl, (f r o i).2 <> TestFailed fl) as Hnever.
  { intros r o' i' fl. rewrite Hf. apply attempt_never_fails_the_test. }
  split; [intros r fl; apply Hnever|]. split; [|split].
  - intros r. rewrite Hf. apply attempt_with_failed_lookup.
  - intros n last tr att. apply run_goes_on.
  - intros n fl. by apply run_fails_iff.
Qed.

Lemma still_registered_nil instances podName :
  still_registered instances podName = []
  <-> Forall (fun instance => Contains (ServiceID instance) podName = false) instances.
Proof.
  unfold still_registered.
  induction instances as [|x xs IH]; [by rewrite filter_nil|].
  rewrite filter_cons, Forall_cons. destruct (Contains (ServiceID x) podName).
  - rewrite decide_True by done. rewrite fmap_cons. split; [done | by intros [? _]].
  - rewrite decide_False by (by intros ?). rewrite IH. split; [done | by intros [_ ?]].
Qed.

Lemma record_failures_fail r msgs :
  fail (record_failures r msgs) = false <-> fail r = false /\ msgs = [].
Proof.
  destruct msgs; simpl; (split; [intros ? | intros [? ?]]); done.
Qed.

(** An attempt of the deregistration check records no failure exactly when
    both lookups succeed and no instance carries the pod's name. *)
Lemma deregistration_attempt_passes consulClient podName o i :
  (exists tr att,
      deregistered_check consulClient podName fresh o i = (tr, Returned att)
      /\ fail (final_R att) = false)
  <-> sees_pod_deregistered consulClient podName o i.
Proof.
  rewrite deregistered_check_attempt. unfold attempt_of, sees_pod_deregistered. split.
  - intros (tr & att & Hrun & Hfail).
    destruct (o i _ _) as [[l1 [e|]]|]; [by simplify_eq | | done].
    destruct (o (i + 1) _ _) as [[l2 [e|]]|]; [by simplify_eq | | done].
    injection Hrun as <- <-. simpl in Hfail.
    apply record_failures_fail in Hfail as [Hfail H2].
    apply record_failures_fail in Hfail as [_ H1].
    exists l1, l2. split; [done|]. split; [done|].
    apply Forall_app. by rewrite <- !still_registered_nil.
  - intros (l1 & l2 & -> & -> & [H1 H2]%Forall_app).
    apply still_registered_nil in H1, H2. eexists _, _. split; [done|].
    simpl. by rewrite H1, H2.
Qed.


(** *** The claims *)

(** C6.  In every run of every test case, whatever the collaborators do: a
    verification step ([TestInstallation], a lookup in the service
    registry, a connectivity check) begins only when the latest install or
    upgrade call before it has returned success; and in the
    cleanup-killed-pods case a pod is deleted only after an attempt of the
    registration check has seen exactly one instance of "static-client"
    and of "static-client-sidecar-proxy". *)
Theorem verification_and_deletion_in_order (c : InjectCase) (c' : UpgradeCase)
    (attempts : nat) (c_secure c_autoEncrypt : bool) (o : Oracle) (i : nat) :
  verified_only_after_deploy (TestConnectInject c o i).1
  /\ verified_only_after_deploy (TestConnectInjectOnUpgrade c' o i).1
  /\ verified_only_after_deploy
       (TestConnectInject_CleanupKilledPods attempts c_secure c_autoEncrypt o i).1
  /\ verified_only_after_deploy (TestConnectInject_RestartConsulClients o i).1
  /\ deleted_only_after_registration
       (TestConnectInject_CleanupKilledPods attempts c_secure c_autoEncrypt o i).1.
Proof.
  repeat split.
  - eapply deploy_sound, triple_accepts, TestConnectInject_deploy.
  - eapply deploy_sound, triple_accepts, TestConnectInjectOnUpgrade_deploy.
  - eapply deploy_sound, triple_accepts, CleanupKilledPods_deploy.
  - eapply deploy_sound, triple_accepts, RestartConsulClients_deploy.
  - eapply delete_sound, triple_accepts, CleanupKilledPods_delete.
Qed.

(** C7 (the poller modelled from the spec).  For both check closures: a
    lookup error within an attempt makes that attempt a failed one and
    never fails the test; after a failed attempt polling goes on with the
    rest of the budget; the test fails exactly when all attempts of the
    budget have recorded a failure. *)
Theorem lookup_error_is_retryable (consulClient : ConsulClient) (podName : string) :
  lookup_errors_are_retryable (registered_check consulClient)
  /\ lookup_errors_are_retryable (deregistered_check consulClient podName).
Proof.
  split.
  - eapply retryable_of_attempt. apply registered_check_attempt.
  - eapply retryable_of_attempt. apply deregistered_check_attempt.
Qed.

(** C8.  For every (secure, autoEncrypt), the override map of the
    cleanup-killed-pods case maps "connectInject.enabled" to "true",
    "global.tls.enabled" and "global.acls.manageSystemACLs" to the string
    form of [secure], "global.tls.enableAutoEncrypt" to that of
    [autoEncrypt].  In every run in which the suite hands out the
    configuration, the context and a release name, the next call is the
    topology generator, handed this map with that context, configuration
    and release name, and the cluster it returns is the one created; and
    in no run is a generator handed another map. *)
Theorem cleanup_overrides (c_secure c_autoEncrypt : bool) :
  cleanup_helmValues c_secure c_autoEncrypt !! "connectInject.enabled" = Some "true"
  /\ cleanup_helmValues c_secure c_autoEncrypt !! "global.tls.enabled"
     = Some (if c_secure then "true" else "false")
  /\ cleanup_helmValues c_secure c_autoEncrypt !! "global.acls.manageSystemACLs"
     = Some (if c_secure then "true" else "false")
  /\ cleanup_helmValues c_secure c_autoEncrypt !! "global.tls.enableAutoEncrypt"
     = Some (if c_autoEncrypt then "true" else "false")
  /\ (forall (attempts : nat) (o : Oracle) (i : nat) cfg ctx releaseName,
        o i _ suite_Config = Returns cfg ->
        o (i + 1) _ suite_Environment_DefaultContext = Returns ctx ->
        o (i + 2) _ helpers_RandomName = Returns releaseName ->
        let generate :=
          NewHelmCluster (cleanup_helmValues c_secure c_autoEncrypt) ctx cfg releaseName in
        exists post,
          (TestConnectInject_CleanupKilledPods attempts c_secure c_autoEncrypt o i).1
          = Ev suite_Config (Returns cfg)
            :: Ev suite_Environment_DefaultContext (Returns ctx)
            :: Ev helpers_RandomName (Returns releaseName)
            :: Ev generate (o (i + 3) _ generate) :: post
          /\ forall consulCluster,
               o (i + 3) _ generate = Returns consulCluster ->
               exists post',
                 post = Ev (Create consulCluster) (o (i + 4) _ (Create consulCluster))
                        :: post')
  /\ forall attempts o i e helmValues,
       e ∈ (TestConnectInject_CleanupKilledPods attempts c_secure c_autoEncrypt o i).1 ->
       generator_overrides e = Some helmValues ->
       helmValues = cleanup_helmValues c_secure c_autoEncrypt.
Proof.
  split; [by destruct c_secure, c_autoEncrypt|].
  split; [by destruct c_secure, c_autoEncrypt|].
  split; [by destruct c_secure, c_autoEncrypt|].
  split; [by destruct c_secure, c_autoEncrypt|].
  split.
  - intros attempts o i cfg ctx releaseName Hcfg Hctx Hname generate.
    replace (i + 2) with (i + 1 + 1) in Hname by lia.
    replace (i + 3) with (i + 1 + 1 + 1) by lia.
    replace (i + 4) with (i + 1 + 1 + 1 + 1) by lia.
    unfold TestConnectInject_CleanupKilledPods.
    rewrite (bind_call_returns _ _ _ _ _ Hcfg). cbn [fst snd].
    rewrite (bind_call_returns _ _ _ _ _ Hctx). cbn [fst snd].
    rewrite (bind_call_returns _ _ _ _ _ Hname). cbn [fst snd].
    fold generate.
    destruct (o (i + 1 + 1 + 1) Cluster generate) as [consulCluster|] eqn:Hgen.
    + rewrite (bind_call_returns _ _ _ _ _ Hgen). cbn [fst snd].
      destruct (o (i + 1 + 1 + 1 + 1) unit (Create consulCluster)) as [[]|] eqn:Hcreate.
      * rewrite (bind_call_returns _ _ _ _ _ Hcreate). cbn [fst snd].
        eexists. split; [reflexivity|].
        intros ? [= <-]. rewrite Hcreate. by eexists.
      * rewrite bind_call, Hcreate. cbn [fst snd].
        eexists. split; [reflexivity|].
        intros ? [= <-]. rewrite Hcreate. by eexists.
    + rewrite bind_call, Hgen. cbn [fst snd].
      eexists. split; [reflexivity|]. by intros ? [=].
  - intros attempts o i e helmValues.
    eapply overrides_sound, triple_accepts, CleanupKilledPods_overrides.
Qed.

(** In a run with collaborators that all succeed, the fourth call hands
    the map of the row (true, false) to the generator. *)
Lemma cleanup_overrides_witness :
  exists post,
    (TestConnectInject_CleanupKilledPods 3 true false
       (cooperative (registered_until 13)) 0).1
    = Ev suite_Config (Returns sample_config)
      :: Ev suite_Environment_DefaultContext (Returns 1)
      :: Ev helpers_RandomName (Returns "test-abcdef")
      :: Ev (NewHelmCluster (cleanup_helmValues true false) 1 sample_config "test-abcdef")
            (Returns 2)
      :: post.
Proof.
  destruct (proj1 (proj2 (proj2 (proj2 (proj2 (cleanup_overrides true false)))))
              3 (cooperative (registered_until 13)) 0 sample_config 1 "test-abcdef"
              eq_refl eq_refl eq_refl) as (post & Hrun & _).
  exists post. exact Hrun.
Defined.

(** C9, as stated, fails in the scenario itself.  All collaborators
    succeed; the registry shows one instance of each service until the
    pod has been deleted and cannot be reached afterwards.  The
    registrations are confirmed, the pod is deleted, no instance that any
    lookup returns after the deletion carries the pod's name, and yet the
    deregistration check exhausts its three attempts and fails the test. *)
Lemma deregistration_check_counterexample :
  let run := TestConnectInject_CleanupKilledPods 3 true false
               (cooperative (reachable_until 13)) 0 in
  exists pre e1 e2 post,
    run.1 = pre ++ Ev (Pods_Delete 4 "ns1" "static-client-7f9c" (Some 0%Z)) (Returns None)
                :: post
    /\ pre !! 10 = Some e1 /\ confirms "static-client" e1 = true
    /\ pre !! 11 = Some e2 /\ confirms "static-client-sidecar-proxy" e2 = true
    /\ Forall (fun e => deletion e = None) pre
    /\ length (filter (fun e => is_lookup e = true) post) = 3
    /\ no_registration_remains "static-client-7f9c" post
    /\ run.2 = TestFailed (retry_exhausted ["connection refused"])
    /\ ~ (run.2 = Returned tt <-> no_registration_remains "static-client-7f9c" post).
Proof.
  set (run := TestConnectInject_CleanupKilledPods 3 true false
                (cooperative (reachable_until 13)) 0).
  assert (run.2 = TestFailed (retry_exhausted ["connection refused"])) as Hst
    by reflexivity.
  assert (no_registration_remains "static-client-7f9c" (drop 18 run.1)) as Hnone
    by (vm_compute; constructor).
  cbv zeta.
  exists (take 17 run.1),
    (Ev (Catalog_Service 3 "static-client" "")
        (Returns ([ {| ServiceID := "static-client-7f9c-static-client" |} ], None))),
    (Ev (Catalog_Service 3 "static-client-sidecar-proxy" "")
        (Returns ([ {| ServiceID := "static-client-7f9c-static-client-sidecar-proxy" |} ],
                  None))),
    (drop 18 run.1).
  split; [reflexivity|]. split; [reflexivity|]. split; [reflexivity|].
  split; [reflexivity|]. split; [reflexivity|].
  split; [vm_compute; by repeat constructor|].
  split; [reflexivity|]. split; [exact Hnone|]. split; [exact Hst|].
  intros [_ H]. specialize (H Hnone). rewrite Hst in H. discriminate H.
Qed.

Lemma bind_ret {A B} (a : A) (k : A -> T B) o i : bind (ret a) k o i = k a o i.
Proof. by apply bind_pure. Qed.

Lemma poll_deletes_nothing (f : RT unit) judge consulClient n o i :
  (forall r o i, f r o i = attempt_of judge consulClient r o i) ->
  Forall (fun e => deletion e = None) (retry_Run n f o i).1.
Proof.
  intros Hf. eapply Forall_impl; [|apply lookup_is_no_deletion].
  apply run_only_looks_up. intros r o' i'. rewrite Hf. apply attempt_only_looks_up.
Qed.

(** One call that the collaborator answers as asked. *)
Ltac obliged_at Hobl Hr c k o j :=
  let x := fresh "x" in
  let Hx := fresh "Hx" in
  pose proof (Hobl j _ c) as Hx; cbn [succeeds] in Hx;
  lazymatch type of Hx with
  | ex _ => destruct Hx as [x Hx]
  | _ => idtac
  end;
  rewrite (bind_call_returns c k o j _ Hx) in Hr; cbn [fst snd] in Hr.

Ltac obliged Hobl Hr :=
  lazymatch type of Hr with
  | _ = bind (call ?c) ?k ?o ?j => obliged_at Hobl Hr c k o j
  | context [(bind (call ?c) ?k ?o ?j).2] => obliged_at Hobl Hr c k o j
  end.

(** C9, amended.  In the cleanup-killed-pods scenario, where the
    collaborators do as they are asked and the listing finds the single
    backing pod: after the setup comes the registration poll; once it has
    confirmed the registrations, and not before, that pod is deleted, with
    a grace period of zero, and it is the only deletion; the rest of the
    run is the deregistration poll for the name of that pod, and the run
    returns exactly when, within the budget, some attempt of it passes.
    An attempt passes exactly when both lookups return without error and
    no instance they return has a [ServiceID] containing the pod's name.
    In every run, whatever the collaborators do, a pod that is deleted is
    the single pod the latest listing returned, deleted with a grace
    period of zero after an attempt of the registration check has seen
    exactly one instance of each service. *)
Theorem cleanup_killed_pods_scenario (attempts : nat) (c_secure c_autoEncrypt : bool)
    (pod : Pod) (o : Oracle) (i : nat) :
  (obliging pod o -> cleanup_scenario attempts c_secure c_autoEncrypt pod o i)
  /\ (forall consulClient j,
        (exists tr att,
            deregistered_check consulClient (Name pod) fresh o j = (tr, Returned att)
            /\ fail (final_R att) = false)
        <-> sees_pod_deregistered consulClient (Name pod) o j)
  /\ deleted_only_after_registration
       (TestConnectInject_CleanupKilledPods attempts c_secure c_autoEncrypt o i).1
  /\ deletes_the_listed_pod
       (TestConnectInject_CleanupKilledPods attempts c_secure c_autoEncrypt o i).1.
Proof.
  split; [|split; [|split]].
  {
    intros Hobl. unfold cleanup_scenario. cbv zeta.
    remember (TestConnectInject_CleanupKilledPods attempts c_secure c_autoEncrypt o i)
      as r eqn:Hr.
    unfold TestConnectInject_CleanupKilledPods in Hr.
    do 10 obliged Hobl Hr.
    lazymatch type of Hr with
    | context [bind (retry_Run _ _) _ _ ?j] => replace j with (i + 10) in Hr by lia
    end.
    lazymatch type of Hr with
    | _ = (?e1 :: ?e2 :: ?e3 :: ?e4 :: ?e5 :: ?e6 :: ?e7 :: ?e8 :: ?e9 :: ?e10 :: _, _) =>
        exists [e1; e2; e3; e4; e5; e6; e7; e8; e9; e10]
    end.
    lazymatch type of Hr with
    | context [Ev (SetupConsulClient ?cluster _) (Returns ?cl)] => exists cluster, cl
    end.
    split; [reflexivity|]. cbn [length]. split.
    - intros Hreg.
      rewrite bind_not_returned in Hr by (intros []; exact Hreg).
      subst r. split; [reflexivity|]. cbn [fst].
      repeat (apply Forall_cons; split; [reflexivity|]).
      eapply poll_deletes_nothing, registered_check_attempt.
    - intros Hreg.
      rewrite (bind_returned _ _ _ _ tt Hreg) in Hr. cbn [fst snd] in Hr.
      do 3 obliged Hobl Hr.
      cbn [require_NoError] in Hr. rewrite !bind_ret in Hr.
      unfold require_Len in Hr. rewrite !decide_True in Hr by reflexivity.
      rewrite !bind_ret in Hr. cbn [Items_0] in Hr. rewrite !bind_ret in Hr.
      do 3 obliged Hobl Hr.
      cbn [require_NoError] in Hr. rewrite !bind_ret in Hr.
      obliged Hobl Hr.
      lazymatch type of Hr with
      | context [_ ++ ?m1 :: ?m2 :: ?m3 :: ?m4 :: ?m5 :: Ev (Pods_Delete ?client ?ns _ _) _ :: _] =>
          exists [m1; m2; m3; m4; m5], client, ns
      end.
      lazymatch type of Hr with
      | context [retry_Run _ (deregistered_check _ _) _ ?j] =>
          lazymatch goal with
          | |- context [retry_Run _ (deregistered_check _ _) _ ?j'] =>
              replace j' with j by (rewrite !length_app; cbn [length]; lia)
          end
      end.
      match goal with x : unit |- _ => destruct x end.
      subst r. cbn [fst snd]. split; [|split; [|split]].
      + cbn [app]. by rewrite <- !app_assoc.
      + apply Forall_app. split; [|eapply poll_deletes_nothing, deregistered_check_attempt].
        apply Forall_app. split; [by repeat constructor|].
        apply Forall_app. split; [|by repeat constructor].
        eapply poll_deletes_nothing, registered_check_attempt.
      + reflexivity.
      + apply run_returns_iff.
  }
  - intros consulClient j. apply deregistration_attempt_passes.
  - eapply delete_sound, triple_accepts, CleanupKilledPods_delete.
  - eapply pods_sound, triple_accepts, CleanupKilledPods_pods.
Qed.

(** The scenario with three attempts, the row (true, false) and a registry
    that drops the registrations once the pod is deleted. *)
Lemma cleanup_killed_pods_scenario_witness :
  obliging {| Name := "static-client-7f9c" |} (cooperative (registered_until 13))
  /\ cleanup_scenario 3 true false {| Name := "static-client-7f9c" |}
       (cooperative (registered_until 13)) 0.
Proof.
  assert (obliging {| Name := "static-client-7f9c" |} (cooperative (registered_until 13)))
    as Hobl.
  { intros j X c. destruct c; simpl; eauto. }
  split; [exact Hobl|].
  exact (proj1 (cleanup_killed_pods_scenario 3 true false {| Name := "static-client-7f9c" |}
                  (cooperative (registered_until 13)) 0) Hobl).
Defined.

(** *** Two runs *)

(** With collaborators that all succeed and a registry that drops the pod's
    registrations once it is deleted, the cleanup case passes, and it
    deletes the pod with a grace period of zero. *)
Example cleanup_run_passes :
  let run := TestConnectInject_CleanupKilledPods 3 true false
               (cooperative (registered_until 13)) 0 in
  run.2 = Returned tt
  /\ (deletion <$> run.1 !! 17) = Some (Some ("ns1", "static-client-7f9c", Some 0%Z)).
Proof. split; reflexivity. Qed.

(** With a registry that cannot be reached, the registration poll exhausts
    its budget of three attempts and fails the test before any deletion. *)
Example cleanup_run_unreachable_registry :
  let run := TestConnectInject_CleanupKilledPods 3 true false
               (cooperative unreachable_registry) 0 in
  run.2 = TestFailed (retry_exhausted ["connection refused"])
  /\ length run.1 = 13
  /\ Forall (fun e => deletion e = None) run.1.
Proof.
  split; [reflexivity|]. split; [reflexivity|]. by repeat constructor.
Qed.

End ConnectSpec.

(** ** More on the environment package *)

Module EnvironmentMore.
Import Environment.
Import EnvironmentSpec.

(** *** The accessors, the heap left out *)

Lemma bind_ok {A B} (m : M A) (k : A -> M B) w s a s' :
  m w s = Ok a s' -> bind m k w s = k a w s'.
Proof. unfold bind. by intros ->. Qed.

Lemma bind_failed {A B} (m : M A) (k : A -> M B) w s f s' :
  m w s = Failed f s' -> bind m k w s = Failed f s'.
Proof. unfold bind. by intros ->. Qed.

Lemma bind_panicked {A B} (m : M A) (k : A -> M B) w s s' :
  m w s = Panicked s' -> bind m k w s = Panicked s'.
Proof. unfold bind. by intros ->. Qed.

Lemma require_NoError_val {A} (c : World -> Result A) w s a :
  c w = Val a -> require_NoError c w s = Ok a s.
Proof. unfold require_NoError. by intros ->. Qed.

Lemma require_NoError_err {A} (c : World -> Result A) w s e :
  c w = Err e -> require_NoError c w s = Failed (NoError_failed e) s.
Proof. unfold require_NoError. by intros ->. Qed.

Lemma deref_some {A} (heap : Store -> gmap loc A) (s : Store) (l : loc) (a : A) w :
  heap s !! l = Some a -> deref heap (Some l) w s = Ok a s.
Proof. unfold deref. by intros ->. Qed.

Lemma deref_new_options (s : Store) (o : k8s.KubectlOptions) w :
  deref optionsHeap (Some (next s)) w (with_options s o) = Ok o (with_options s o).
Proof. unfold deref. cbn [with_options optionsHeap]. by rewrite lookup_insert_eq. Qed.

Lemma set_Namespace_new_options (s : Store) (k : kubernetesContext) ns w :
  set_Namespace (Some (next s)) ns w (with_options s (initial_options k))
  = Ok tt (with_options s (options_with k ns)).
Proof.
  unfold set_Namespace. cbn [with_options optionsHeap]. rewrite lookup_insert_eq.
  unfold with_options, options_with. cbn. by rewrite insert_insert_eq.
Qed.

Lemma active_context_of_options (k : kubernetesContext) w (s : Store) configPath rawConfig :
  GetConfigPath w (initial_options k) = Val configPath ->
  LoadRawConfig w configPath = Val rawConfig ->
  KubernetesContextFromOptions (Some (next s)) w (with_options s (initial_options k))
  = Ok (active_context k rawConfig) (with_options s (initial_options k)).
Proof.
  intros Hp Hraw. unfold active_context.
  assert (optionsHeap (with_options s (initial_options k)) !! next s
          = Some (initial_options k)) as Hheap.
  { cbn [with_options optionsHeap]. by rewrite lookup_insert_eq. }
  case_bool_decide as Hn.
  - by apply (context_name_explicit _ _ _ _ Hheap).
  - apply (context_name_current _ _ _ _ configPath rawConfig Hheap); [|done..].
    cbn [initial_options k8s.ContextName]. by destruct (decide (kubeContextName k = "")).
Qed.

(** [KubectlOptions] on a context not yet resolved: one options object is
    allocated, and the call ends as the resolution of the namespace does. *)
Lemma KubectlOptions_resolves (k : kubernetesContext) (w : World) (s : Store) :
  options k = nil ->
  KubectlOptions k w s
  = match resolve_namespace k w with
    | Resolved ns => Ok (Some (next s)) (with_options s (options_with k ns))
    | Resolution_fails e => Failed (NoError_failed e) (with_options s (initial_options k))
    | Resolution_panics => Panicked (with_options s (initial_options k))
    end.
Proof.
  intros Hopt. unfold KubectlOptions, resolve_namespace. rewrite Hopt.
  rewrite bool_decide_eq_false_2 by (by intros H; apply H).
  unfold bind at 1. cbn [new_options namespace options].
  fold (initial_options k). fold (with_options s (initial_options k)).
  case_bool_decide as Hns; [|done].
  unfold bind at 1.
  rewrite (bind_ok _ _ _ _ _ _ (deref_new_options s (initial_options k) w)).
  destruct (GetConfigPath w (initial_options k)) as [configPath | e] eqn:Hp.
  2:{ by rewrite (bind_failed _ _ _ _ _ _ (require_NoError_err _ w _ e Hp)). }
  rewrite (bind_ok _ _ _ _ _ _ (require_NoError_val _ w _ configPath Hp)).
  destruct (LoadRawConfig w configPath) as [rawConfig | e] eqn:Hraw.
  2:{ by rewrite (bind_failed _ _ _ _ _ _
                    (require_NoError_err (fun w => LoadRawConfig w configPath) w _ e Hraw)). }
  rewrite (bind_ok _ _ _ _ _ _
             (require_NoError_val (fun w => LoadRawConfig w configPath) w _ rawConfig Hraw)).
  rewrite (bind_ok _ _ _ _ _ _ (active_context_of_options k w s _ _ Hp Hraw)).
  unfold Contexts_Namespace.
  destruct (clientcmdapi.Contexts rawConfig !! active_context k rawConfig) as [c|].
  2:{ by erewrite bind_panicked. }
  erewrite bind_ok; [|reflexivity].
  case_bool_decide as Hc.
  - erewrite bind_ok; [|reflexivity]. by rewrite set_Namespace_new_options.
  - by rewrite set_Namespace_new_options.
Qed.

Lemma KubernetesClientFromOptions_runs (w : World) (s : Store) (l : loc)
    (o : k8s.KubectlOptions) :
  optionsHeap s !! l = Some o ->
  KubernetesClientFromOptions (Some l) w s
  = match client_config o w with
    | Val config => Ok (Some (next s)) (with_client s config)
    | Err e => Failed (NoError_failed e) s
    end.
Proof.
  intros Ho. unfold KubernetesClientFromOptions, client_config.
  pose proof (deref_some optionsHeap _ _ _ w Ho) as Hd.
  rewrite (bind_ok _ _ _ _ _ _ Hd).
  destruct (GetConfigPath w o) as [configPath | e] eqn:Hp.
  2:{ by rewrite (bind_failed _ _ _ _ _ _ (require_NoError_err _ w _ e Hp)). }
  rewrite (bind_ok _ _ _ _ _ _ (require_NoError_val _ w _ configPath Hp)).
  destruct (LoadApiClientConfigE w configPath (k8s.ContextName o)) as [config | e] eqn:Hc.
  2:{ by rewrite (bind_failed _ _ _ _ _ _
                    (require_NoError_err
                       (fun w => LoadApiClientConfigE w configPath (k8s.ContextName o))
                       w _ e Hc)). }
  rewrite (bind_ok _ _ _ _ _ _
             (require_NoError_val
                (fun w => LoadApiClientConfigE w configPath (k8s.ContextName o))
                w _ config Hc)).
  destruct (NewForConfig w config) as [[] | e] eqn:Hn.
  2:{ by rewrite (bind_failed _ _ _ _ _ _
                    (require_NoError_err (fun w => NewForConfig w config) w _ e Hn)). }
  by rewrite (bind_ok _ _ _ _ _ _
                (require_NoError_val (fun w => NewForConfig w config) w _ tt Hn)).
Qed.

(** *** Registering and looking up *)

(** X1.  An environment built from a configuration hands back, under
    "default", a context holding the primary kubeconfig path, context name
    and namespace of the configuration, not yet resolved.  With multi-cluster
    mode enabled, "secondary" gives a different context, holding the
    secondary ones; with the mode disabled, asking for "secondary" fails. *)
Theorem FromConfig_then_lookup (cfg : config.TestConfig) (w w' : World) (s : Store) :
  exists l d s',
    NewKubernetesEnvironmentFromConfig (Some cfg) w s = Ok (Some l) s'
    /\ DefaultContext (Some l) w' s' = Ok (Some d) s'
    /\ Context (Some l) DefaultContextName w' s' = Ok (Some d) s'
    /\ contextHeap s' !! d
       = Some (unresolved (config.Kubeconfig cfg) (config.KubeContext cfg)
                 (config.KubeNamespace cfg))
    /\ (config.EnableMultiCluster cfg = true ->
        exists d2,
          d2 <> d
          /\ Context (Some l) SecondaryContextName w' s' = Ok (Some d2) s'
          /\ contextHeap s' !! d2
             = Some (unresolved (config.SecondaryKubeconfig cfg)
                       (config.SecondaryKubeContext cfg)
                       (config.SecondaryKubeNamespace cfg)))
    /\ (config.EnableMultiCluster cfg = false ->
        Context (Some l) SecondaryContextName w' s'
        = Failed (Truef_failed "requested context secondary not found") s').
Proof.
  destruct (FromConfig_runs cfg w s) as (s' & Hrun & Henv & Hd & Hd2).
  exists (S (next s)), (next s), s'. split; [exact Hrun|].
  pose proof (deref_some envHeap _ _ _ w' Henv) as Hderef.
  unfold DefaultContext, Context.
  rewrite !(bind_ok _ _ _ _ _ _ Hderef). cbn [contexts].
  unfold DefaultContextName, SecondaryContextName.
  destruct (config.EnableMultiCluster cfg) eqn:Hm.
  - rewrite !lookup_insert_ne by done. rewrite lookup_singleton_eq, lookup_insert_eq.
    split; [done|]. split; [done|]. split; [exact Hd|]. split; [|done].
    intros _. exists (S (S (next s))). split; [lia|]. split; [done|]. by apply Hd2.
  - rewrite lookup_singleton_eq, lookup_singleton_ne by done.
    split; [done|]. split; [done|]. split; [exact Hd|]. split; [done|]. by intros _.
Qed.

(** X2.  An environment built from a single context hands that very
    context back, under "default" and from [DefaultContext] alike, and the
    lookups leave the store as it is. *)
Theorem FromContext_then_lookup (ctx : ptr) (w w' : World) (s : Store) :
  exists l s',
    NewKubernetesEnvironmentFromContext ctx w s = Ok (Some l) s'
    /\ DefaultContext (Some l) w' s' = Ok ctx s'
    /\ Context (Some l) DefaultContextName w' s' = Ok ctx s'.
Proof.
  destruct (FromContext_runs ctx w s) as (s' & Hrun & Henv).
  exists (next s), s'. split; [exact Hrun|].
  pose proof (deref_some envHeap _ _ _ w' Henv) as Hderef.
  unfold DefaultContext, Context.
  rewrite !(bind_ok _ _ _ _ _ _ Hderef). cbn [contexts].
  unfold DefaultContextName. by rewrite lookup_singleton_eq.
Qed.

(** X3.  [DefaultContext] and [Context] asked for "default" agree: they
    return the same context in the same store, they panic together, and
    when the entry is absent each fails with its own message. *)
Theorem DefaultContext_is_Context_default (k : ptr) (w : World) (s : Store) :
  (forall p s', DefaultContext k w s = Ok p s'
                <-> Context k DefaultContextName w s = Ok p s')
  /\ (forall s', DefaultContext k w s = Panicked s'
                 <-> Context k DefaultContextName w s = Panicked s')
  /\ (forall s', DefaultContext k w s = Failed (Truef_failed "default context not found") s'
                 <-> Context k DefaultContextName w s
                     = Failed (Truef_failed "requested context default not found") s').
Proof.
  unfold DefaultContext, Context, bind, deref.
  destruct k as [l|]; [|by repeat split].
  destruct (envHeap s !! l) as [e|]; [|by repeat split].
  destruct (contexts e !! DefaultContextName) as [p|]; simpl.
  - repeat split; by intros ?.
  - repeat split; intros H; by simplify_eq.
Qed.

(** X4.  Nil pointers.  The constructor accepts a nil context and
    [DefaultContext] hands it back without failing the test; either
    accessor called on it panics.  [Context] and [DefaultContext] on a nil
    environment, and the two functions taking options on nil options, panic
    as well; none of them changes the store. *)
Theorem nil_pointers_panic (w w' : World) (s : Store) (name : string) :
  (exists l s',
      NewKubernetesEnvironmentFromContext nil w s = Ok (Some l) s'
      /\ DefaultContext (Some l) w' s' = Ok nil s'
      /\ TestContext_KubectlOptions nil w' s' = Panicked s'
      /\ TestContext_KubernetesClient nil w' s' = Panicked s')
  /\ Context nil name w s = Panicked s
  /\ DefaultContext nil w s = Panicked s
  /\ KubernetesContextFromOptions nil w s = Panicked s
  /\ KubernetesClientFromOptions nil w s = Panicked s.
Proof.
  split; [|by repeat split].
  destruct (FromContext_runs nil w s) as (s' & Hrun & Henv).
  exists (next s), s'. split; [exact Hrun|].
  split; [|by split].
  unfold DefaultContext, bind, deref. rewrite Henv. cbn [contexts].
  unfold DefaultContextName. by rewrite lookup_singleton_eq.
Qed.

(** *** Resolving options *)

(** X5.  For a context with an empty stored namespace, a config path that
    cannot be determined, or a config file that cannot be loaded, fails
    the test with that error: [KubectlOptions] returns nothing.  The
    options object it had allocated by then stays in the heap. *)
Theorem KubectlOptions_setup_errors (k : kubernetesContext) (w : World) (s : Store) :
  options k = nil ->
  namespace k = "" ->
  (forall e,
      GetConfigPath w (initial_options k) = Err e ->
      KubectlOptions k w s
      = Failed (NoError_failed e) (with_options s (initial_options k)))
  /\ (forall configPath e,
        GetConfigPath w (initial_options k) = Val configPath ->
        LoadRawConfig w configPath = Err e ->
        KubectlOptions k w s
        = Failed (NoError_failed e) (with_options s (initial_options k))).
Proof.
  intros Hopt Hns. split.
  - intros e Hp. rewrite KubectlOptions_resolves by done. unfold resolve_namespace.
    by rewrite bool_decide_eq_true_2, Hp.
  - intros configPath e Hp Hraw. rewrite KubectlOptions_resolves by done.
    unfold resolve_namespace. by rewrite bool_decide_eq_true_2, Hp, Hraw.
Qed.

Lemma KubectlOptions_setup_errors_witness :
  KubectlOptions (unresolved "/kube/primary" "dc1" "") world_without_path empty_store
  = Failed (NoError_failed "kubeconfig path not found")
      (with_options empty_store (initial_options (unresolved "/kube/primary" "dc1" "")))
  /\ KubectlOptions (unresolved "/kube/missing" "dc1" "") world_teamA empty_store
    = Failed (NoError_failed "open /kube/missing: no such file or directory")
        (with_options empty_store (initial_options (unresolved "/kube/missing" "dc1" ""))).
Proof.
  split.
  - apply (proj1 (KubectlOptions_setup_errors (unresolved "/kube/primary" "dc1" "")
                    world_without_path empty_store eq_refl eq_refl)).
    reflexivity.
  - apply (proj2 (KubectlOptions_setup_errors (unresolved "/kube/missing" "dc1" "")
                    world_teamA empty_store eq_refl eq_refl) "/kube/missing");
      reflexivity.
Defined.

(** X6.  For a context with an empty stored namespace, when the config file
    loads but has no entry for the active context name, [KubectlOptions]
    panics: the map of contexts gives nil for the missing key and the
    namespace is read through it. *)
Theorem KubectlOptions_missing_entry (k : kubernetesContext) (w : World) (s : Store)
    configPath rawConfig :
  options k = nil ->
  namespace k = "" ->
  GetConfigPath w (initial_options k) = Val configPath ->
  LoadRawConfig w configPath = Val rawConfig ->
  clientcmdapi.Contexts rawConfig !! active_context k rawConfig = None ->
  KubectlOptions k w s = Panicked (with_options s (initial_options k)).
Proof.
  intros Hopt Hns Hp Hraw Hctx. rewrite KubectlOptions_resolves by done.
  unfold resolve_namespace. by rewrite bool_decide_eq_true_2, Hp, Hraw, Hctx.
Qed.

Lemma KubectlOptions_missing_entry_witness :
  KubectlOptions (unresolved "/kube/primary" "dc9" "") world_teamA empty_store
  = Panicked (with_options empty_store
                (initial_options (unresolved "/kube/primary" "dc9" ""))).
Proof.
  apply (KubectlOptions_missing_entry (unresolved "/kube/primary" "dc9" "") world_teamA
           empty_store "/kube/primary" (one_context_file "dc1" "teamA"));
    reflexivity.
Defined.

(** X7.  For a context with a stored namespace that is not empty,
    [KubectlOptions] consults no collaborator: in every world it returns
    options carrying the stored context name, path and namespace. *)
Theorem KubectlOptions_explicit_namespace (k : kubernetesContext) (w w' : World)
    (s : Store) :
  options k = nil ->
  namespace k <> "" ->
  KubectlOptions k w s = Ok (Some (next s)) (with_options s (initial_options k))
  /\ KubectlOptions k w' s = KubectlOptions k w s.
Proof.
  intros Hopt Hns. rewrite !KubectlOptions_resolves by done. unfold resolve_namespace.
  by rewrite bool_decide_eq_false_2.
Qed.

Lemma KubectlOptions_explicit_namespace_witness :
  KubectlOptions (unresolved "/kube/missing" "dc9" "ns2") world_without_path empty_store
  = Ok (Some 1)
      (with_options empty_store (initial_options (unresolved "/kube/missing" "dc9" "ns2")))
  /\ KubectlOptions (unresolved "/kube/missing" "dc9" "ns2") world_teamA empty_store
    = KubectlOptions (unresolved "/kube/missing" "dc9" "ns2") world_without_path
        empty_store.
Proof.
  apply (KubectlOptions_explicit_namespace (unresolved "/kube/missing" "dc9" "ns2")
           world_without_path world_teamA empty_store eq_refl).
  discriminate.
Defined.

(** X8.  Asked twice in a world that has not changed, a context gives
    options with the same contents both times, and the options of the
    first call are still what they were after the second. *)
Theorem KubectlOptions_stable (ctx : ptr) (w : World) (s s1 : Store) (l1 : loc)
    (o1 : k8s.KubectlOptions) :
  TestContext_KubectlOptions ctx w s = Ok (Some l1) s1 ->
  optionsHeap s1 !! l1 = Some o1 ->
  exists l2 s2,
    TestContext_KubectlOptions ctx w s1 = Ok (Some l2) s2
    /\ optionsHeap s2 !! l2 = Some o1
    /\ optionsHeap s2 !! l1 = Some o1.
Proof.
  unfold TestContext_KubectlOptions. intros Hrun Ho1.
  destruct ctx as [c|]; [|done].
  destruct (contextHeap s !! c) as [k|] eqn:Hk; [|by unfold bind, deref in Hrun; rewrite Hk in Hrun].
  rewrite (bind_ok _ _ _ _ _ _ (deref_some contextHeap _ _ _ w Hk)) in Hrun.
  assert (contextHeap s1 = contextHeap s) as Hframe.
  { pose proof (preserves_ctx_KubectlOptions k w s) as H. by rewrite Hrun in H. }
  assert (contextHeap s1 !! c = Some k) as Hk1 by by rewrite Hframe.
  rewrite (bind_ok _ _ _ _ _ _ (deref_some contextHeap _ _ _ w Hk1)).
  destruct (options k) as [l|] eqn:Hopt.
  - unfold KubectlOptions in *. rewrite Hopt in *.
    rewrite bool_decide_eq_true_2 in * by done.
    injection Hrun as <- <-. by exists l, s.
  - rewrite KubectlOptions_resolves in Hrun by done.
    rewrite KubectlOptions_resolves by done.
    destruct (resolve_namespace k w) as [ns| |]; [|done..].
    injection Hrun as <- <-.
    cbn [with_options optionsHeap] in Ho1. rewrite lookup_insert_eq in Ho1.
    injection Ho1 as <-.
    eexists _, _. split; [done|]. cbn [with_options optionsHeap next].
    rewrite lookup_insert_eq. split; [done|].
    rewrite lookup_insert_ne by lia. by rewrite lookup_insert_eq.
Qed.

Lemma KubectlOptions_stable_witness :
  exists l2 s2,
    TestContext_KubectlOptions (Some 1) world_teamA
      (with_options store_after_setup
         (options_with (unresolved "/kube/primary" "dc1" "") "teamA"))
    = Ok (Some l2) s2
    /\ optionsHeap s2 !! l2
       = Some (options_with (unresolved "/kube/primary" "dc1" "") "teamA")
    /\ optionsHeap s2 !! 4
       = Some (options_with (unresolved "/kube/primary" "dc1" "") "teamA").
Proof.
  apply (KubectlOptions_stable (Some 1) world_teamA store_after_setup); reflexivity.
Defined.

Lemma KubectlOptions_store (k : kubernetesContext) (w : World) (s : Store) :
  final_store (KubectlOptions k w s) = s
  \/ exists o, final_store (KubectlOptions k w s) = with_options s o.
Proof.
  destruct (options k) as [p|] eqn:Hopt.
  - left. unfold KubectlOptions. rewrite Hopt. by rewrite bool_decide_eq_true_2.
  - right. rewrite KubectlOptions_resolves by done.
    destruct (resolve_namespace k w); by eexists.
Qed.

Lemma KubernetesClientFromOptions_store (p : ptr) (w : World) (s : Store) :
  final_store (KubernetesClientFromOptions p w s) = s
  \/ exists c, final_store (KubernetesClientFromOptions p w s) = with_client s c.
Proof.
  destruct p as [l|]; [|by left].
  destruct (optionsHeap s !! l) as [o|] eqn:Ho.
  - rewrite (KubernetesClientFromOptions_runs _ _ _ _ Ho).
    destruct (client_config o w); [right; by eexists | by left].
  - left. unfold KubernetesClientFromOptions, bind, deref. by rewrite Ho.
Qed.

Lemma KubernetesClient_composes (k : kubernetesContext) (w : World) (s : Store) :
  client k = nil ->
  KubernetesClient k w s
  = match KubectlOptions k w s with
    | Ok p s1 => KubernetesClientFromOptions p w s1
    | Failed f s1 => Failed f s1
    | Panicked s1 => Panicked s1
    end.
Proof.
  intros Hc. unfold KubernetesClient. rewrite Hc.
  rewrite bool_decide_eq_false_2 by (by intros H; apply H).
  unfold bind at 1. destruct (KubectlOptions k w s) as [p s1 | f s1 | s1]; [|done..].
  unfold bind. by destruct (KubernetesClientFromOptions p w s1).
Qed.

Lemma KubernetesClient_store (k : kubernetesContext) (w : World) (s : Store) :
  exists s1,
    (s1 = s \/ exists o, s1 = with_options s o)
    /\ (final_store (KubernetesClient k w s) = s1
        \/ exists c, final_store (KubernetesClient k w s) = with_client s1 c).
Proof.
  destruct (client k) as [c|] eqn:Hc.
  { exists s. split; [by left|]. left. unfold KubernetesClient. rewrite Hc.
    by rewrite bool_decide_eq_true_2. }
  rewrite KubernetesClient_composes by done.
  exists (final_store (KubectlOptions k w s)). split; [apply KubectlOptions_store|].
  destruct (KubectlOptions k w s) as [p s1 | f s1 | s1]; cbn [final_store]; [|by left..].
  apply KubernetesClientFromOptions_store.
Qed.

(** X9.  No accessor touches an object that is in the heap already: after
    [KubectlOptions] or [KubernetesClient], called through a context
    pointer, every options object and every client below the allocation
    mark is what it was, and the mark has not moved back. *)
Theorem accessors_keep_existing_objects (ctx : ptr) (w : World) (s : Store) (l : loc) :
  l < next s ->
  (optionsHeap (final_store (TestContext_KubectlOptions ctx w s)) !! l = optionsHeap s !! l
   /\ clientHeap (final_store (TestContext_KubectlOptions ctx w s)) !! l = clientHeap s !! l
   /\ next s <= next (final_store (TestContext_KubectlOptions ctx w s)))
  /\ (optionsHeap (final_store (TestContext_KubernetesClient ctx w s)) !! l
      = optionsHeap s !! l
      /\ clientHeap (final_store (TestContext_KubernetesClient ctx w s)) !! l
         = clientHeap s !! l
      /\ next s <= next (final_store (TestContext_KubernetesClient ctx w s))).
Proof.
  intros Hl.
  unfold TestContext_KubectlOptions, TestContext_KubernetesClient.
  destruct ctx as [c|]; [|by repeat split].
  destruct (contextHeap s !! c) as [k|] eqn:Hk.
  2:{ unfold bind, deref. rewrite Hk. by repeat split. }
  rewrite !(bind_ok _ _ _ _ _ _ (deref_some contextHeap _ _ _ w Hk)).
  split.
  - destruct (KubectlOptions_store k w s) as [-> | [o ->]]; [done|].
    cbn [with_options optionsHeap clientHeap next].
    rewrite lookup_insert_ne by lia. split; [done|]. split; [done|lia].
  - destruct (KubernetesClient_store k w s) as (s1 & Hs1 & Hs2).
    assert (optionsHeap s1 !! l = optionsHeap s !! l
            /\ clientHeap s1 !! l = clientHeap s !! l
            /\ next s <= next s1) as (Ho & Hc & Hn).
    { destruct Hs1 as [-> | [o ->]]; [done|].
      cbn [with_options optionsHeap clientHeap next].
      rewrite lookup_insert_ne by lia. split; [done|]. split; [done|lia]. }
    destruct Hs2 as [-> | [c' ->]]; [done|].
    cbn [with_client optionsHeap clientHeap next].
    rewrite lookup_insert_ne by lia. split; [done|]. split; [done|lia].
Qed.

Lemma accessors_keep_existing_objects_witness :
  optionsHeap (final_store (TestContext_KubernetesClient (Some 1) world_teamB
                              (with_options store_after_setup
                                 (options_with (unresolved "/kube/primary" "dc1" "") "teamA"))))
    !! 4
  = Some (options_with (unresolved "/kube/primary" "dc1" "") "teamA").
Proof.
  apply (accessors_keep_existing_objects (Some 1) world_teamB
           (with_options store_after_setup
              (options_with (unresolved "/kube/primary" "dc1" "") "teamA")) 4).
  vm_compute. lia.
Defined.

(** *** Building a client *)

(** X10.  [KubernetesClientFromOptions] builds the client from the
    configuration loaded for the config path of the options and their
    context name.  If the path cannot be determined, the configuration
    cannot be loaded, or the client cannot be constructed, the test fails
    with that error and no client is allocated: the store is unchanged. *)
Theorem KubernetesClientFromOptions_spec (w : World) (s : Store) (l : loc)
    (o : k8s.KubectlOptions) :
  optionsHeap s !! l = Some o ->
  (forall e,
      GetConfigPath w o = Err e ->
      KubernetesClientFromOptions (Some l) w s = Failed (NoError_failed e) s)
  /\ (forall configPath,
        GetConfigPath w o = Val configPath ->
        (forall e,
            LoadApiClientConfigE w configPath (k8s.ContextName o) = Err e ->
            KubernetesClientFromOptions (Some l) w s = Failed (NoError_failed e) s)
        /\ (forall config,
              LoadApiClientConfigE w configPath (k8s.ContextName o) = Val config ->
              (forall e,
                  NewForConfig w config = Err e ->
                  KubernetesClientFromOptions (Some l) w s = Failed (NoError_failed e) s)
              /\ (NewForConfig w config = Val tt ->
                  KubernetesClientFromOptions (Some l) w s
                  = Ok (Some (next s)) (with_client s config)))).
Proof.
  intros Ho. rewrite (KubernetesClientFromOptions_runs _ _ _ _ Ho). unfold client_config.
  split; [by intros e ->|].
  intros configPath ->. split; [by intros e ->|].
  intros config ->. split; [by intros e ->|]. by intros ->.
Qed.

Lemma KubernetesClientFromOptions_spec_witness :
  KubernetesClientFromOptions (Some 1) world_without_path
    (store_with_options (options_naming "dc1"))
  = Failed (NoError_failed "kubeconfig path not found")
      (store_with_options (options_naming "dc1"))
  /\ KubernetesClientFromOptions (Some 1) world_bad_client_config
      (store_with_options (options_naming "dc1"))
    = Failed (NoError_failed "context not found")
        (store_with_options (options_naming "dc1"))
  /\ KubernetesClientFromOptions (Some 1) world_refusing_clients
      (store_with_options (options_naming "dc1"))
    = Failed (NoError_failed "host must be a URL")
        (store_with_options (options_naming "dc1"))
  /\ KubernetesClientFromOptions (Some 1) world_teamA
      (store_with_options (options_naming "dc1"))
    = Ok (Some 2)
        (with_client (store_with_options (options_naming "dc1"))
           {| rest.Host := "/kube/primary#dc1" |}).
Proof.
  split; [|split; [|split]].
  - apply (proj1 (KubernetesClientFromOptions_spec world_without_path
                    (store_with_options (options_naming "dc1")) 1 (options_naming "dc1")
                    eq_refl)).
    reflexivity.
  - apply (proj1 (proj2 (KubernetesClientFromOptions_spec world_bad_client_config
                           (store_with_options (options_naming "dc1")) 1
                           (options_naming "dc1") eq_refl)
                    "/kube/primary" eq_refl)).
    reflexivity.
  - apply (proj1 (proj2 (proj2 (KubernetesClientFromOptions_spec world_refusing_clients
                                  (store_with_options (options_naming "dc1")) 1
                                  (options_naming "dc1") eq_refl)
                           "/kube/primary" eq_refl)
                    {| rest.Host := "/kube/primary" |} eq_refl)).
    reflexivity.
  - apply (proj2 (proj2 (proj2 (KubernetesClientFromOptions_spec world_teamA
                                  (store_with_options (options_naming "dc1")) 1
                                  (options_naming "dc1") eq_refl)
                           "/kube/primary" eq_refl)
                    {| rest.Host := "/kube/primary#dc1" |} eq_refl)).
    reflexivity.
Defined.

(** X11.  [KubernetesClient] on a context without a client resolves the
    options first and builds the client from them: a failure or a panic of
    [KubectlOptions] ends the call the same way, and when the options are
    returned the call ends as [KubernetesClientFromOptions] does on them.
    With a stored namespace that is not empty, the client is thus built
    for the stored context name at the path the collaborator gives. *)
Theorem KubernetesClient_resolves_first (k : kubernetesContext) (w : World) (s : Store) :
  client k = nil ->
  (forall f s1, KubectlOptions k w s = Failed f s1 -> KubernetesClient k w s = Failed f s1)
  /\ (forall s1, KubectlOptions k w s = Panicked s1 -> KubernetesClient k w s = Panicked s1)
  /\ (forall p s1,
        KubectlOptions k w s = Ok p s1 ->
        KubernetesClient k w s = KubernetesClientFromOptions p w s1)
  /\ (options k = nil ->
      namespace k <> "" ->
      forall configPath config,
        GetConfigPath w (initial_options k) = Val configPath ->
        LoadApiClientConfigE w configPath (kubeContextName k) = Val config ->
        NewForConfig w config = Val tt ->
        KubernetesClient k w s
        = Ok (Some (S (next s)))
            (with_client (with_options s (initial_options k)) config)).
Proof.
  intros Hc. rewrite KubernetesClient_composes by done.
  split; [by intros f s1 ->|]. split; [by intros s1 ->|]. split; [by intros p s1 ->|].
  intros Hopt Hns configPath config Hp Hl Hn.
  rewrite KubectlOptions_resolves by done. unfold resolve_namespace.
  rewrite bool_decide_eq_false_2 by done.
  erewrite KubernetesClientFromOptions_runs.
  2:{ cbn [with_options optionsHeap]. by rewrite lookup_insert_eq. }
  unfold client_config. change (options_with k (namespace k)) with (initial_options k).
  rewrite Hp. change (k8s.ContextName (initial_options k)) with (kubeContextName k).
  by rewrite Hl, Hn.
Qed.

Lemma KubernetesClient_resolves_first_witness :
  KubernetesClient (unresolved "/kube/primary" "dc1" "") world_without_path empty_store
  = Failed (NoError_failed "kubeconfig path not found")
      (with_options empty_store (initial_options (unresolved "/kube/primary" "dc1" "")))
  /\ KubernetesClient (unresolved "/kube/primary" "dc1" "ns2") world_teamA empty_store
    = Ok (Some 2)
        (with_client
           (with_options empty_store
              (initial_options (unresolved "/kube/primary" "dc1" "ns2")))
           {| rest.Host := "/kube/primary#dc1" |}).
Proof.
  split.
  - apply (proj1 (KubernetesClient_resolves_first (unresolved "/kube/primary" "dc1" "")
                    world_without_path empty_store eq_refl)).
    reflexivity.
  - apply (proj2 (proj2 (proj2 (KubernetesClient_resolves_first
                                  (unresolved "/kube/primary" "dc1" "ns2")
                                  world_teamA empty_store eq_refl)))
             eq_refl)
      with (configPath := "/kube/primary");
      [discriminate | reflexivity..].
Defined.

(** *** The context name *)

(** X12.  [KubernetesContextFromOptions] with an explicit context name
    consults no collaborator: it returns that name in every world.  With
    none, a config path that cannot be determined or a config file that
    cannot be loaded fails the test with that error; the store is left as
    it is in every case. *)
Theorem KubernetesContextFromOptions_errors (w w' : World) (s : Store) (l : loc)
    (o : k8s.KubectlOptions) :
  optionsHeap s !! l = Some o ->
  (k8s.ContextName o <> "" ->
     KubernetesContextFromOptions (Some l) w' s = KubernetesContextFromOptions (Some l) w s)
  /\ (k8s.ContextName o = "" ->
      (forall e,
          GetConfigPath w o = Err e ->
          KubernetesContextFromOptions (Some l) w s = Failed (NoError_failed e) s)
      /\ (forall configPath e,
            GetConfigPath w o = Val configPath ->
            LoadRawConfig w configPath = Err e ->
            KubernetesContextFromOptions (Some l) w s = Failed (NoError_failed e) s)).
Proof.
  intros Ho. split.
  - intros Hne. by rewrite !(context_name_explicit _ _ _ _ Ho Hne).
  - intros He. unfold KubernetesContextFromOptions.
    rewrite !(bind_ok _ _ _ _ _ _ (deref_some optionsHeap _ _ _ w Ho)).
    rewrite bool_decide_eq_false_2 by (by intros H; apply H).
    split.
    + intros e Hp. by rewrite (bind_failed _ _ _ _ _ _ (require_NoError_err _ w _ e Hp)).
    + intros configPath e Hp Hraw.
      rewrite (bind_ok _ _ _ _ _ _ (require_NoError_val _ w _ configPath Hp)).
      by rewrite (bind_failed _ _ _ _ _ _
                    (require_NoError_err (fun w => LoadRawConfig w configPath) w _ e Hraw)).
Qed.

Lemma KubernetesContextFromOptions_errors_witness :
  KubernetesContextFromOptions (Some 1) world_without_path
    (store_with_options (options_naming "dc7"))
  = KubernetesContextFromOptions (Some 1) world_teamA
      (store_with_options (options_naming "dc7"))
  /\ KubernetesContextFromOptions (Some 1) world_without_path
      (store_with_options (options_naming ""))
    = Failed (NoError_failed "kubeconfig path not found")
        (store_with_options (options_naming ""))
  /\ KubernetesContextFromOptions (Some 1) world_no_namespace
      (store_with_options (options_naming ""))
    = Failed (NoError_failed "open /kube/primary: no such file or directory")
        (store_with_options (options_naming "")).
Proof.
  split; [|split].
  - apply (proj1 (KubernetesContextFromOptions_errors world_teamA world_without_path
                    (store_with_options (options_naming "dc7")) 1 (options_naming "dc7")
                    eq_refl)).
    discriminate.
  - apply (proj1 (proj2 (KubernetesContextFromOptions_errors world_without_path
                           world_teamA (store_with_options (options_naming "")) 1
                           (options_naming "") eq_refl) eq_refl)).
    reflexivity.
  - apply (proj2 (proj2 (KubernetesContextFromOptions_errors world_no_namespace
                           world_teamA (store_with_options (options_naming "")) 1
                           (options_naming "") eq_refl) eq_refl)
             "/kube/primary");
      reflexivity.
Defined.

(** *** Building environments side by side *)

(** X13.  Given a configuration, and given any context pointer, the
    constructors touch no object that is in the heap already: every
    environment and context below the allocation mark is afterwards what
    it was, no options object or client is created, and the environment
    returned is a new one, at or above the mark.  Given a nil
    configuration, [NewKubernetesEnvironmentFromConfig] panics on reading
    it, before anything is allocated. *)
Theorem constructors_keep_existing_objects (cfg : config.TestConfig) (ctx : ptr)
    (w : World) (s : Store) (l : loc) :
  l < next s ->
  NewKubernetesEnvironmentFromConfig None w s = Panicked s
  /\ (exists n s',
      NewKubernetesEnvironmentFromConfig (Some cfg) w s = Ok (Some n) s'
      /\ next s <= n < next s'
      /\ envHeap s' !! l = envHeap s !! l
      /\ contextHeap s' !! l = contextHeap s !! l
      /\ optionsHeap s' = optionsHeap s
      /\ clientHeap s' = clientHeap s)
  /\ (exists n s',
      NewKubernetesEnvironmentFromContext ctx w s = Ok (Some n) s'
      /\ next s <= n < next s'
      /\ envHeap s' !! l = envHeap s !! l
      /\ contextHeap s' = contextHeap s
      /\ optionsHeap s' = optionsHeap s
      /\ clientHeap s' = clientHeap s).
Proof.
  intros Hl. split; [reflexivity|]. split.
  - unfold NewKubernetesEnvironmentFromConfig, NewContext, bind.
    cbn [new_context new_env next envHeap contextHeap].
    destruct (config.EnableMultiCluster cfg).
    + cbn [new_context new_env set_context ret next envHeap contextHeap optionsHeap
             clientHeap].
      rewrite lookup_insert_eq.
      eexists _, _. split; [reflexivity|].
      cbn [envHeap contextHeap optionsHeap clientHeap next].
      split; [lia|].
      rewrite !lookup_insert_ne by lia. done.
    + cbn [ret]. eexists _, _. split; [reflexivity|].
      cbn [envHeap contextHeap optionsHeap clientHeap next].
      split; [lia|].
      rewrite !lookup_insert_ne by lia. done.
  - unfold NewKubernetesEnvironmentFromContext, bind, new_env, ret.
    eexists _, _. split; [reflexivity|].
    cbn [envHeap contextHeap optionsHeap clientHeap next].
    split; [lia|]. by rewrite lookup_insert_ne by lia.
Qed.

Lemma constructors_keep_existing_objects_witness :
  NewKubernetesEnvironmentFromConfig None world_teamA store_after_setup
  = Panicked store_after_setup
  /\ exists n s',
      NewKubernetesEnvironmentFromConfig (Some multi_cluster_config) world_teamA
        store_after_setup
      = Ok (Some n) s'
      /\ next store_after_setup <= n < next s'
      /\ envHeap s' !! 2 = envHeap store_after_setup !! 2
      /\ contextHeap s' !! 2 = contextHeap store_after_setup !! 2
      /\ optionsHeap s' = optionsHeap store_after_setup
      /\ clientHeap s' = clientHeap store_after_setup.
Proof.
  assert (2 < next store_after_setup) as Hl by (vm_compute; lia).
  destruct (constructors_keep_existing_objects multi_cluster_config nil world_teamA
              store_after_setup 2 Hl) as (Hnil & Hcfg & _).
  exact (conj Hnil Hcfg).
Defined.

End EnvironmentMore.

(** ** More on the connect-inject tests *)

Module ConnectMore.
Import Connect.
Import ConnectSpec.

(** *** Rules for [keeps] *)

Section Keeps.
Context {A : Type} (update : A -> Event -> A) (P : A -> Event -> Prop).

Lemma always_allowed_nil st : always_allowed update P st [].
Proof. intros pre e post H. by destruct pre. Qed.

Lemma always_allowed_cons st e tr :
  P st e -> always_allowed update P (update st e) tr ->
  always_allowed update P st (e :: tr).
Proof.
  intros He Htr pre e' post Heq. destruct pre as [|e0 pre].
  - by injection Heq as <- _.
  - injection Heq as <- Heq. by apply (Htr pre e' post).
Qed.

Lemma seen_app st tr1 tr2 :
  seen update st (tr1 ++ tr2) = seen update (seen update st tr1) tr2.
Proof. apply fold_left_app. Qed.

Lemma always_allowed_app st tr1 tr2 :
  always_allowed update P st tr1 ->
  always_allowed update P (seen update st tr1) tr2 ->
  always_allowed update P st (tr1 ++ tr2).
Proof.
  revert st. induction tr1 as [|e tr1 IH]; intros st H1 H2; [done|].
  apply always_allowed_cons.
  - by apply (H1 [] e tr1).
  - apply IH; [|done]. intros pre e' post ->. by apply (H1 (e :: pre) e' post).
Qed.

Lemma keeps_ret {X} st (a : X) (Q : Status X -> A -> Prop) :
  Q (Returned a) st -> keeps update P st (ret a) Q.
Proof. intros HQ o i. split; [apply always_allowed_nil | done]. Qed.

Lemma keeps_fail {X} st f (Q : Status X -> A -> Prop) :
  Q (TestFailed f) st -> keeps update P st (fail_test f) Q.
Proof. intros HQ o i. split; [apply always_allowed_nil | done]. Qed.

Lemma keeps_stopped {X} st (Q : Status X -> A -> Prop) :
  Q Stopped st -> keeps update P st (fun _ _ => ([], Stopped)) Q.
Proof. intros HQ o i. split; [apply always_allowed_nil | done]. Qed.

Lemma keeps_bind {X Y} st (m : T X) (k : X -> T Y) (Q : Status Y -> A -> Prop) :
  keeps update P st m
    (fun r st' =>
       match r with
       | Returned a => keeps update P st' (k a) Q
       | TestFailed f => Q (TestFailed f) st'
       | Stopped => Q Stopped st'
       end) ->
  keeps update P st (bind m k) Q.
Proof.
  intros Hm o i. destruct (Hm o i) as [Htr Hk]. unfold bind.
  destruct (m o i) as [tr [a | f |]]; simpl in *; try done.
  destruct (Hk o (i + length tr)) as [Htr' HQ].
  destruct (k a o (i + length tr)) as [tr' r]; simpl in *.
  split; [by apply always_allowed_app | by rewrite seen_app].
Qed.

Lemma keeps_call {X} st (c : Call X) (Q : Status X -> A -> Prop) :
  (forall r, P st (Ev c r) /\ Q (status_of r) (update st (Ev c r))) ->
  keeps update P st (call c) Q.
Proof.
  intros H o i. unfold call. destruct (H (o i X c)) as [HP HQ].
  destruct (o i X c) as [x|]; simpl;
    (split; [apply always_allowed_cons; [done | apply always_allowed_nil] | done]).
Qed.

Lemma keeps_weaken {X} st (m : T X) (Q Q' : Status X -> A -> Prop) :
  keeps update P st m Q -> (forall r st', Q r st' -> Q' r st') -> keeps update P st m Q'.
Proof. intros H HQ o i. destruct (H o i). split; [done | by apply HQ]. Qed.

Lemma keeps_require_NoError st err (Q : Status unit -> A -> Prop) :
  (err = None -> Q (Returned tt) st) ->
  (forall e, err = Some e -> Q (TestFailed (NoError_failed e)) st) ->
  keeps update P st (require_NoError err) Q.
Proof.
  intros H1 H2. destruct err; [by apply keeps_fail, H2 | by apply keeps_ret, H1].
Qed.

Lemma keeps_require_Len {X} st (object : list X) len (Q : Status unit -> A -> Prop) :
  (length object = len -> Q (Returned tt) st) ->
  (length object <> len -> Q (TestFailed (Len_failed (length object))) st) ->
  keeps update P st (require_Len object len) Q.
Proof.
  intros H1 H2. unfold require_Len.
  case_decide; [by apply keeps_ret, H1 | by apply keeps_fail, H2].
Qed.

(** A computation all of whose events satisfy [L] keeps whatever such events
    keep. *)
Lemma keeps_of_events {X} (L : Event -> Prop) (I : A -> Prop) (R : Status X -> Prop)
    st (m : T X) (Q : Status X -> A -> Prop) :
  (forall st e, I st -> L e -> P st e /\ I (update st e)) ->
  (forall o i, Forall L (m o i).1 /\ R (m o i).2) ->
  I st ->
  (forall r st', I st' -> R r -> Q r st') ->
  keeps update P st m Q.
Proof.
  intros Hstep Hm HI HQ o i. destruct (Hm o i) as [Hall HR].
  assert (always_allowed update P st (m o i).1 /\ I (seen update st (m o i).1)) as [? ?].
  { revert st HI. induction Hall as [|e tr He _ IH]; intros st HI.
    - split; [apply always_allowed_nil | done].
    - destruct (Hstep st e HI He) as [HP HI']. destruct (IH _ HI') as [Htr Hend].
      split; [by apply always_allowed_cons | done]. }
  split; [done | by apply HQ].
Qed.

End Keeps.

Lemma check_lookup_is_lookup consulClient e : check_lookup consulClient e -> is_lookup e = true.
Proof. by by_cases_on_event e. Qed.

Lemma attempt_only_checks judge consulClient r o i :
  Forall (check_lookup consulClient) (attempt_of judge consulClient r o i).1.
Proof.
  assert (forall name r', name ∈ static_client_services ->
            check_lookup consulClient (Ev (Catalog_Service consulClient name "") r')) as Hev.
  { intros name r' Hin. by split. }
  assert ("static-client" ∈ static_client_services) as H1 by (by left).
  assert ("static-client-sidecar-proxy" ∈ static_client_services) as H2
    by (right; by left).
  unfold attempt_of. destruct (o i _ _) as [[l1 [e|]]|]; simpl.
  - repeat constructor; by apply Hev.
  - destruct (o (i + 1) _ _) as [[l2 [e|]]|]; simpl; repeat constructor; by apply Hev.
  - repeat constructor; by apply Hev.
Qed.

Lemma run_forall (L : Event -> Prop) (f : RT unit) :
  (forall r o i, Forall L (f r o i).1) ->
  forall n last o i, Forall L (run n f last o i).1.
Proof.
  intros Hf n. induction n as [|n IH]; intros last o i; simpl; [done|].
  unfold bind. specialize (Hf {| fail := false; output := [] |} o i).
  destruct (f _ o i) as [tr [att | fl |]]; simpl in *; try done.
  destruct (fail (final_R att)).
  - specialize (IH (output (final_R att)) o (i + length tr)).
    destruct (run n f _ o _) as [tr' st]. simpl in *. by apply Forall_app.
  - simpl. by rewrite app_nil_r.
Qed.

Lemma poll_facts (f : RT unit) judge consulClient n o i :
  (forall r o i, f r o i = attempt_of judge consulClient r o i) ->
  Forall (check_lookup consulClient) (retry_Run n f o i).1
  /\ poll_status (retry_Run n f o i).2.
Proof.
  intros Hf. split.
  - apply run_forall. intros r o' i'. rewrite Hf. apply attempt_only_checks.
  - intros fl Hfl. unfold retry_Run in Hfl.
    apply run_fails_iff in Hfl as [_ ->]; [by eexists|].
    intros r o' i' fl'. rewrite Hf. apply attempt_never_fails_the_test.
Qed.

Lemma registration_poll_facts n consulClient o i :
  Forall (check_lookup consulClient) (retry_Run n (registered_check consulClient) o i).1
  /\ poll_status (retry_Run n (registered_check consulClient) o i).2.
Proof. eapply poll_facts. apply registered_check_attempt. Qed.

Lemma deregistration_poll_facts n consulClient podName o i :
  Forall (check_lookup consulClient)
    (retry_Run n (deregistered_check consulClient podName) o i).1
  /\ poll_status (retry_Run n (deregistered_check consulClient podName) o i).2.
Proof. eapply poll_facts. apply deregistered_check_attempt. Qed.

(** *** Failing fast *)

Lemma first_failure_lookup consulClient st e :
  st = None -> check_lookup consulClient e -> st = None /\ first_failure st e = None.
Proof. intros -> He. split; [done|]. by by_cases_on_event e. Qed.

Lemma seen_first_failure_some f tr :
  seen first_failure (Some f) tr = Some f.
Proof. induction tr as [|e tr IH]; [done|]. apply IH. Qed.

(** From the first failed assertion seen at the end of a trace, the call
    that failed it. *)
Lemma seen_first_failure_inv tr f :
  seen first_failure None tr = Some f ->
  exists pre e post,
    tr = pre ++ e :: post /\ asserted_failure e = Some f
    /\ seen first_failure None pre = None.
Proof.
  induction tr as [|e tr IH] using rev_ind; [done|].
  rewrite seen_app. simpl. destruct (seen first_failure None tr) as [f'|] eqn:Hseen.
  - simpl. intros [= ->]. destruct (IH eq_refl) as (pre & e' & post & -> & He & Hpre).
    exists pre, e', (post ++ [e]). by rewrite <- app_assoc.
  - simpl. intros He. by exists tr, e, [].
Qed.

Lemma fails_fast_of_keeps (m : T unit) o i :
  keeps first_failure (fun st _ => st = None) None m ends_as_seen ->
  fails_fast (m o i).
Proof.
  intros Hm. destruct (Hm o i) as [Hall Hend].
  assert (forall pre e post f,
            (m o i).1 = pre ++ e :: post -> asserted_failure e = Some f ->
            post = [] /\ (m o i).2 = TestFailed f) as Hfirst.
  { intros pre e post f Heq He.
    pose proof (Hall pre e post Heq) as Hpre. simpl in Hpre.
    assert (seen first_failure None (pre ++ [e]) = Some f) as Hseen.
    { rewrite seen_app, Hpre. simpl. done. }
    destruct post as [|e' post].
    - split; [done|]. rewrite Heq, Hseen in Hend. exact Hend.
    - pose proof (Hall (pre ++ [e]) e' post) as H'.
      rewrite <- app_assoc in H'. specialize (H' Heq). simpl in H'. congruence. }
  split; [exact Hfirst|].
  intros f Hf. destruct (seen first_failure None (m o i).1) as [f'|] eqn:Hseen.
  - right. simpl in Hend. rewrite Hend in Hf. injection Hf as ->.
    destruct (seen_first_failure_inv _ _ Hseen) as (pre & e & post & Heq & He & _).
    destruct (Hfirst pre e post f Heq He) as [-> _]. by exists pre, e.
  - left. by apply Hend.
Qed.

(** Walking through a test body under [keeps]: [allowed] proves that an
    event is allowed, [poll] deals with a call of [retry.Run], [tidy]
    simplifies what has been seen. *)
Ltac keeps_call_step allowed tidy :=
  apply keeps_call;
  let r := fresh "r" in
  let x := fresh "x" in
  intros r; destruct r as [x|];
  [ try (lazymatch type of x with
         | (_ * option _)%type => destruct x as [? [?|]]
         | option _ => destruct x
         end);
    (split; [allowed | cbv beta iota delta [status_of]; tidy])
  | split; [allowed | cbv beta iota delta [status_of]; tidy] ].

Ltac keeps_walk_with allowed poll tidy finish :=
  repeat first
    [ apply keeps_ret
    | apply keeps_fail
    | apply keeps_stopped
    | poll
    | apply keeps_bind
    | apply keeps_require_NoError; [intros ? | intros ? ?]; simplify_eq
    | apply keeps_require_Len; intros ?; tidy
    | match goal with
      | H : length (_ :: ?l) = 1 |- _ => destruct l; [clear H | discriminate H]
      end
    | keeps_call_step allowed tidy
    | match goal with
      | |- keeps _ _ _ (if ?b then _ else _) _ => destruct b eqn:?
      | |- keeps _ _ _ (match ?x with _ => _ end) _ => destruct x
      | |- keeps _ _ _ (let '(_, _) := ?x in _) _ => destruct x
      end ];
  finish.

Ltac tidy_failure :=
  cbn [first_failure asserted_failure];
  repeat match goal with
         | H : length ?l = 1 |- context [decide (length ?l = 1)] =>
             rewrite (decide_True (P := length l = 1)) by exact H
         | H : length ?l <> 1 |- context [decide (length ?l = 1)] =>
             rewrite (decide_False (P := length l = 1)) by exact H
         end.

Ltac poll_failure :=
  idtac;
  match goal with
  | |- keeps _ _ _ (retry_Run _ (registered_check ?cl)) _ =>
      apply (keeps_of_events _ _ (check_lookup cl) (fun st => st = None) poll_status);
      [ apply first_failure_lookup
      | intros ? ?; apply registration_poll_facts
      | reflexivity
      | let r := fresh "r" in intros r ? -> ?; destruct r ]
  | |- keeps _ _ _ (retry_Run _ (deregistered_check ?cl _)) _ =>
      apply (keeps_of_events _ _ (check_lookup cl) (fun st => st = None) poll_status);
      [ apply first_failure_lookup
      | intros ? ?; apply deregistration_poll_facts
      | reflexivity
      | let r := fresh "r" in intros r ? -> ?; destruct r ]
  end.

Ltac finish_failure :=
  try done;
  try (unfold ends_as_seen; done);
  try match goal with
      | H : poll_status (TestFailed _) |- ends_as_seen (TestFailed _) None =>
          intros ? [= <-]; by apply H
      end.

Lemma TestConnectInject_fails_fast c :
  keeps first_failure (fun st _ => st = None) None (TestConnectInject c) ends_as_seen.
Proof.
  unfold TestConnectInject.
  keeps_walk_with ltac:(reflexivity) fail tidy_failure finish_failure.
Qed.

Lemma TestConnectInjectOnUpgrade_fails_fast c :
  keeps first_failure (fun st _ => st = None) None (TestConnectInjectOnUpgrade c)
    ends_as_seen.
Proof.
  unfold TestConnectInjectOnUpgrade.
  keeps_walk_with ltac:(reflexivity) fail tidy_failure finish_failure.
Qed.

Lemma CleanupKilledPods_fails_fast attempts c_secure c_autoEncrypt :
  keeps first_failure (fun st _ => st = None) None
    (TestConnectInject_CleanupKilledPods attempts c_secure c_autoEncrypt) ends_as_seen.
Proof.
  unfold TestConnectInject_CleanupKilledPods, Items_0.
  keeps_walk_with ltac:(reflexivity) poll_failure tidy_failure finish_failure.
Qed.

(** X14.  The tests fail fast.  In every run of [TestConnectInject],
    [TestConnectInjectOnUpgrade] and [TestConnectInject_CleanupKilledPods]:
    when [Install], [Upgrade], [TestInstallation], the pod listing or the
    pod deletion returns an error, or the listing returns a number of pods
    other than one, that call is the last of the run and the run is a test
    failure carrying that error (resp. that number); and a run that is a
    test failure for any other reason is a poll that exhausted its
    budget. *)
Theorem tests_fail_fast (c : InjectCase) (c' : UpgradeCase) (attempts : nat)
    (c_secure c_autoEncrypt : bool) (o : Oracle) (i : nat) :
  fails_fast (TestConnectInject c o i)
  /\ fails_fast (TestConnectInjectOnUpgrade c' o i)
  /\ fails_fast (TestConnectInject_CleanupKilledPods attempts c_secure c_autoEncrypt o i).
Proof.
  split; [|split].
  - apply fails_fast_of_keeps, TestConnectInject_fails_fast.
  - apply fails_fast_of_keeps, TestConnectInjectOnUpgrade_fails_fast.
  - apply fails_fast_of_keeps, CleanupKilledPods_fails_fast.
Qed.

(** Two runs that fail an assertion. *)
Example failed_install_ends_the_run :
  let run := TestConnectInject sample_inject_case (failing_install "release exists") 0 in
  run.2 = TestFailed (NoError_failed "release exists") /\ length run.1 = 3.
Proof. split; reflexivity. Qed.

Example two_pods_listed_ends_the_run :
  let run := TestConnectInject_CleanupKilledPods 3 true false listing_two_pods 0 in
  run.2 = TestFailed (Len_failed 2)
  /\ length run.1 = 15
  /\ Forall (fun e => deletion e = None) run.1.
Proof. split; [reflexivity|]. split; [reflexivity|]. by repeat constructor. Qed.

(** *** Handles *)

Ltac tidy_handles :=
  cbn [note no_handles h_cfg h_ctx h_release h_cluster h_options h_kube h_consul h_pods
         h_upgraded h_rollout].

Ltac settle_wired :=
  unfold inject_wired, upgrade_wired, cleanup_wired, restart_wired, restart_ordered;
  cbn;
  unfold static_client_fixture, static_server_url;
  repeat match goal with
         | H : config.EnableTransparentProxy _ = _ |- _ => rewrite ?H; clear H
         end;
  first
    [ done
    | solve [intros ? ?; simplify_eq; eexists _, _; repeat split; reflexivity]
    | by (repeat split; try reflexivity; try (by left); try (right; by left);
          try (by eexists))
    | by (repeat split; try reflexivity; right; reflexivity)
    | by (split; [reflexivity|]; eexists _, _; split; [reflexivity|];
          split; [|reflexivity]; first [by left | by right])
    | by (left; split; reflexivity)
    | by (right; split; reflexivity)
    | by left
    | by right ].

Lemma always_allowed_of_keeps {A X} (update : A -> Event -> A)
    (P : A -> Event -> Prop) (st : A) (m : T X) :
  keeps update P st m (fun _ _ => True) ->
  forall o i, always_allowed update P st (m o i).1.
Proof. intros H o i. apply H. Qed.

Ltac poll_wired :=
  idtac;
  match goal with
  | |- keeps note ?P ?st0 (retry_Run _ (registered_check ?cl)) _ =>
      apply (keeps_of_events note P (check_lookup cl) (fun st => st = st0)
               (fun _ => True));
      [ let e := fresh "e" in
        let He := fresh "He" in
        intros ? e -> He; destruct e as [? c ?]; destruct c; try (by destruct He);
        destruct He as (-> & ? & ->); by repeat split
      | intros ? ?; split; [apply registration_poll_facts | done]
      | reflexivity
      | let r := fresh "r" in intros r ? -> _; destruct r ]
  | |- keeps note ?P ?st0 (retry_Run _ (deregistered_check ?cl _)) _ =>
      apply (keeps_of_events note P (check_lookup cl) (fun st => st = st0)
               (fun _ => True));
      [ let e := fresh "e" in
        let He := fresh "He" in
        intros ? e -> He; destruct e as [? c ?]; destruct c; try (by destruct He);
        destruct He as (-> & ? & ->); by repeat split
      | intros ? ?; split; [apply deregistration_poll_facts | done]
      | reflexivity
      | let r := fresh "r" in intros r ? -> _; destruct r ]
  end.

(** X15.  In every run of the cleanup-killed-pods case each call is given
    the handles the suite and the earlier calls handed out: the cluster is
    generated for the context, configuration and release name just
    obtained, created and asked for a Consul client (with the row's
    [secure]) as that cluster; the fixture is deployed with the options of
    the context and the cleanup flag and debug directory of the
    configuration; the registry is looked up on that Consul client, for
    "static-client" and "static-client-sidecar-proxy" only, with no tag;
    pods are listed and deleted on the client of the context, in the
    namespace of its latest options, the deleted pod being the one
    listed.  No helper call, connectivity check or [kubectl] run occurs. *)
Theorem cleanup_data_flow (attempts : nat) (c_secure c_autoEncrypt : bool)
    (o : Oracle) (i : nat) :
  always_allowed note (cleanup_wired c_secure c_autoEncrypt) no_handles
    (TestConnectInject_CleanupKilledPods attempts c_secure c_autoEncrypt o i).1.
Proof.
  revert o i. apply always_allowed_of_keeps.
  unfold TestConnectInject_CleanupKilledPods, Items_0.
  keeps_walk_with settle_wired poll_wired tidy_handles ltac:(try done).
Qed.

(** X16.  In every run of [TestConnectInject_RestartConsulClients]: the
    cluster is generated with the single override "connectInject.enabled"
    for the context, configuration and release name just obtained; the
    fixtures deployed are the static server and the static client that
    fits the proxy mode of the configuration; every connectivity check
    targets "http://static-server" in transparent-proxy mode and
    "http://localhost:1234" otherwise; every [kubectl] run is a rollout
    restart or status of "ds/<release name>-consul-client"; all with the
    latest options of the context. *)
Theorem restart_data_flow (o : Oracle) (i : nat) :
  always_allowed note restart_wired no_handles
    (TestConnectInject_RestartConsulClients o i).1.
Proof.
  revert o i. apply always_allowed_of_keeps.
  unfold TestConnectInject_RestartConsulClients, check_connection.
  keeps_walk_with settle_wired fail tidy_handles ltac:(try done).
Qed.

(** X17.  In every run of [TestConnectInject_RestartConsulClients]: the
    rollout restart is the first [kubectl] run, the rollout status is asked
    only once the restart has returned, and the connection is checked only
    before any [kubectl] run or once the rollout status has returned. *)
Theorem restart_rollout_order (o : Oracle) (i : nat) :
  always_allowed note restart_ordered no_handles
    (TestConnectInject_RestartConsulClients o i).1.
Proof.
  revert o i. apply always_allowed_of_keeps.
  unfold TestConnectInject_RestartConsulClients, check_connection.
  keeps_walk_with settle_wired fail tidy_handles ltac:(try done).
Qed.

(** X18.  In every run of [TestConnectInject] and of
    [TestConnectInjectOnUpgrade], every call on the helper is made on the
    helper built from the row and from the context and configuration the
    suite returned.  In the upgrade test [Install] and the verification
    before the upgrade see the initial flags and no additional values,
    [Upgrade] and the verification after it see the flags and values of
    the upgrade, release name and generator staying the same. *)
Theorem helper_data_flow (c : InjectCase) (c' : UpgradeCase) (o : Oracle) (i : nat) :
  always_allowed note (inject_wired c) no_handles (TestConnectInject c o i).1
  /\ always_allowed note (upgrade_wired c') no_handles
       (TestConnectInjectOnUpgrade c' o i).1.
Proof.
  split; revert o i; apply always_allowed_of_keeps.
  - unfold TestConnectInject.
    keeps_walk_with settle_wired fail tidy_handles ltac:(try done).
  - unfold TestConnectInjectOnUpgrade.
    keeps_walk_with settle_wired fail tidy_handles ltac:(try done).
Qed.

(** *** The registration check *)

Lemma not_exactly_one_nil name instances :
  not_exactly_one name instances = [] <-> exists instance, instances = [instance].
Proof.
  unfold not_exactly_one. case_decide as Hlen.
  - split; [done|]. intros [x ->]. by destruct Hlen.
  - split; [|done]. intros _.
    destruct instances as [|x [|y l]]; try done. by exists x.
Qed.

(** X19.  The registration check returns exactly when, within the budget,
    some attempt passes; and an attempt passes exactly when both lookups
    return, without error, exactly one instance. *)
Theorem registration_check_passes (attempts : nat) (consulClient : ConsulClient)
    (o : Oracle) (i : nat) :
  ((retry_Run attempts (registered_check consulClient) o i).2 = Returned tt
   <-> some_attempt_passes attempts (registered_check consulClient) o i)
  /\ ((exists tr att,
         registered_check consulClient fresh o i = (tr, Returned att)
         /\ fail (final_R att) = false)
      <-> sees_one_of_each consulClient o i).
Proof.
  split; [apply run_returns_iff|].
  rewrite registered_check_attempt. unfold attempt_of, sees_one_of_each. split.
  - intros (tr & att & Hrun & Hfail).
    destruct (o i _ _) as [[l1 [e|]]|]; [by simplify_eq | | done].
    destruct (o (i + 1) _ _) as [[l2 [e|]]|]; [by simplify_eq | | done].
    injection Hrun as <- <-. simpl in Hfail.
    apply record_failures_fail in Hfail as [Hfail H2].
    apply record_failures_fail in Hfail as [_ H1].
    apply not_exactly_one_nil in H1 as [x1 ->].
    apply not_exactly_one_nil in H2 as [x2 ->].
    by exists x1, x2.
  - intros (x1 & x2 & -> & ->). by eexists _, _.
Qed.

(** *** What an attempt records *)

Lemma still_registered_elem instances podName msg :
  msg ∈ still_registered instances podName
  <-> exists instance,
        instance ∈ instances
        /\ Contains (ServiceID instance) podName = true
        /\ msg = ServiceID instance +:+ " is still registered".
Proof.
  unfold still_registered. rewrite list_elem_of_fmap. split.
  - intros (x & -> & [Hc Hin]%list_elem_of_filter). by exists x.
  - intros (x & Hin & Hc & ->). exists x. split; [done|]. by apply list_elem_of_filter.
Qed.

(** X20.  An attempt of the deregistration check in which both lookups
    return without error records one message per instance whose
    [ServiceID] contains the pod's name, "<ServiceID> is still registered",
    those of "static-client" first; it makes no other call, and it counts
    as failed exactly when a message is recorded. *)
Theorem deregistration_attempt_records (consulClient : ConsulClient) (podName : string)
    (o : Oracle) (i : nat) (instances1 instances2 : list CatalogService) :
  o i _ (Catalog_Service consulClient "static-client" "") = Returns (instances1, None) ->
  o (i + 1) _ (Catalog_Service consulClient "static-client-sidecar-proxy" "")
  = Returns (instances2, None) ->
  exists att,
    deregistered_check consulClient podName fresh o i
    = ([Ev (Catalog_Service consulClient "static-client" "") (Returns (instances1, None));
        Ev (Catalog_Service consulClient "static-client-sidecar-proxy" "")
          (Returns (instances2, None))],
       Returned att)
    /\ output (final_R att)
       = still_registered instances1 podName ++ still_registered instances2 podName
    /\ (fail (final_R att) = true <-> output (final_R att) <> [])
    /\ (forall msg,
          msg ∈ output (final_R att)
          <-> exists instance,
                instance ∈ instances1 ++ instances2
                /\ Contains (ServiceID instance) podName = true
                /\ msg = ServiceID instance +:+ " is still registered").
Proof.
  intros H1 H2. rewrite deregistered_check_attempt. unfold attempt_of. rewrite H1, H2.
  eexists. split; [reflexivity|]. cbn [final_R]. rewrite record_failures_app.
  assert (forall msgs, output (record_failures fresh msgs) = msgs
                       /\ (fail (record_failures fresh msgs) = true <-> msgs <> []))
    as Hrec.
  { intros [|m msgs]; [by split; [|split] | by split; [|split]]. }
  destruct (Hrec (still_registered instances1 podName
                  ++ still_registered instances2 podName)) as [-> Hfail].
  split; [done|]. split; [exact Hfail|].
  intros msg. rewrite elem_of_app, !still_registered_elem. split.
  - intros [(x & Hin & ?) | (x & Hin & ?)]; exists x;
      (split; [apply elem_of_app; by auto | done]).
  - intros (x & [Hin | Hin]%elem_of_app & ?); [left | right]; by exists x.
Qed.

Lemma deregistration_attempt_records_witness :
  exists att,
    deregistered_check 3 "static-client-7f9c" fresh (cooperative (registered_until 13)) 10
    = ([Ev (Catalog_Service 3 "static-client" "")
          (Returns ([ {| ServiceID := "static-client-7f9c-static-client" |} ], None));
        Ev (Catalog_Service 3 "static-client-sidecar-proxy" "")
          (Returns ([ {| ServiceID := "static-client-7f9c-static-client-sidecar-proxy" |} ],
                    None))],
       Returned att)
    /\ output (final_R att)
       = ["static-client-7f9c-static-client is still registered";
          "static-client-7f9c-static-client-sidecar-proxy is still registered"].
Proof.
  destruct (deregistration_attempt_records 3 "static-client-7f9c"
              (cooperative (registered_until 13)) 10
              [ {| ServiceID := "static-client-7f9c-static-client" |} ]
              [ {| ServiceID := "static-client-7f9c-static-client-sidecar-proxy" |} ]
              eq_refl eq_refl) as (att & Hrun & Hout & _).
  exists att. split; [exact Hrun | exact Hout].
Defined.

(** X21.  Polling is bounded: either check makes at least one and at most
    two lookups per attempt, so a poll with a budget of [attempts] makes at
    most [2 * attempts] calls, all of them lookups of the two services. *)
Theorem polls_are_bounded (attempts : nat) (consulClient : ConsulClient)
    (podName : string) (o : Oracle) (i : nat) :
  (forall r,
      1 <= length (registered_check consulClient r o i).1 <= 2
      /\ 1 <= length (deregistered_check consulClient podName r o i).1 <= 2)
  /\ length (retry_Run attempts (registered_check consulClient) o i).1 <= 2 * attempts
  /\ length (retry_Run attempts (deregistered_check consulClient podName) o i).1
     <= 2 * attempts
  /\ Forall (check_lookup consulClient)
       (retry_Run attempts (registered_check consulClient) o i).1
  /\ Forall (check_lookup consulClient)
       (retry_Run attempts (deregistered_check consulClient podName) o i).1.
Proof.
  assert (forall judge r o i,
            1 <= length (attempt_of judge consulClient r o i).1 <= 2) as Hatt.
  { intros judge r o' i'. unfold attempt_of.
    destruct (o' i' _ _) as [[l1 [e|]]|]; simpl; [lia | | lia].
    destruct (o' (i' + 1) _ _) as [[l2 [e|]]|]; simpl; lia. }
  assert (forall (f : RT unit) judge,
            (forall r o i, f r o i = attempt_of judge consulClient r o i) ->
            forall n last o i, length (run n f last o i).1 <= 2 * n) as Hrun.
  { intros f judge Hf n. induction n as [|n IH]; intros last o' i'; simpl; [lia|].
    unfold bind. pose proof (Hatt judge {| fail := false; output := [] |} o' i') as Hlen.
    rewrite <- Hf in Hlen.
    destruct (f _ o' i') as [tr [att | fl |]]; simpl in *; try lia.
    destruct (fail (final_R att)).
    - specialize (IH (output (final_R att)) o' (i' + length tr)).
      destruct (run n f _ o' _) as [tr' st]. simpl in *. rewrite length_app. lia.
    - simpl. rewrite app_nil_r. lia. }
  split; [|split; [|split; [|split]]].
  - intros r. rewrite registered_check_attempt, deregistered_check_attempt.
    split; apply Hatt.
  - apply (Hrun _ _ (registered_check_attempt consulClient)).
  - apply (Hrun _ _ (deregistered_check_attempt consulClient podName)).
  - apply registration_poll_facts.
  - apply deregistration_poll_facts.
Qed.

End ConnectMore.
